(** * Up204Lab: the hysteresis-loop data reduction scripts

    A shallow embedding of the numerical core of the scripts under
    [ferromagnetic_hysteresis/]: the tabular reader [read_dataset], the
    zero-crossing detectors and branch classifiers
    ([find_main_coercivity_crossings], [find_main_hysteresis_crossings],
    [find_remanence]), the Shoelace area routines
    ([calculate_hysteresis_area], [calculate_area_shoelace]) and the
    in-place negation script ([negate_dataset]).

    Numbers.  The scripts compute with binary64 floats, and the routines
    are embedded twice.  [Geometry] is the exact reading of the
    specification, which speaks of sequences of real numbers: a float is
    an exact rational ([Q]), compared with [==]; rounding, overflow and
    NaN are outside that model, and a division by zero (numpy answers inf
    or nan with a RuntimeWarning) is kept observable as the fault
    [DivideByZero].  [Geometry64] is the code as it runs: a float is a
    sign with the binary64 value as a rational, an infinity or a NaN, and
    every operation of [Binary64] rounds its exact result to nearest, ties
    to even, with gradual underflow.  What holds of the code only in exact
    arithmetic is stated about [Geometry] and says so; what is stated
    about [Geometry64] holds of the floats.  Where numbers are read from
    and written to text ([float], the format [.3f]) the model is exact as
    well.

    Text.  A [str] is the list of its characters and is restricted to
    ASCII.

    Exceptions.  Python code that can raise is embedded in the error monad
    [result]; [IndexError] and [ValueError] are the two exceptions the
    modelled code can raise on lists of numbers. *)

From Stdlib Require Import Ascii String.
From Stdlib Require Import List Bool Arith NArith ZArith QArith Qabs Qminmax.
From Stdlib Require Import Lia Lqa Permutation Sorted Qpower.
Import ListNotations.

(* ================================================================= *)
(** ** Python run-time model *)

Module Py.

Inductive exn : Type :=
| IndexError     (* sequence index out of range *)
| ValueError     (* numpy reduction of an empty array *)
| DivideByZero.  (* float division by zero: inf/nan in numpy *)

Inductive result (A : Type) : Type :=
| Ok (a : A)
| Raise (e : exn).

Arguments Ok {A} a.
Arguments Raise {A} e.

Definition bind {A B : Type} (c : result A) (k : A -> result B) : result B :=
  match c with
  | Ok a => k a
  | Raise e => Raise e
  end.

Definition raises {A : Type} (c : result A) (e : exn) : Prop := c = Raise e.

Definition returns {A : Type} (c : result A) : Prop := exists a, c = Ok a.

End Py.

Export Py.

Declare Scope py_scope.
Delimit Scope py_scope with py.
Notation "x <- c ;; k" := (bind c (fun x => k))
  (at level 61, c at next level, right associativity) : py_scope.
Open Scope py_scope.
Open Scope Q_scope.

(** Strict comparison of two floats, [x < y]. *)
Definition Qltb (x y : Q) : bool := negb (Qle_bool y x).

(** [l[i]] for a non-negative index. *)
Definition getitem (l : list Q) (i : nat) : result Q :=
  match nth_error l i with
  | Some x => Ok x
  | None => Raise IndexError
  end.

(** [l[lo:hi]] for non-negative bounds; a slice never raises. *)
Definition slice (l : list Q) (lo hi : nat) : list Q :=
  firstn (hi - lo) (skipn lo l).

(** [x / y] on floats. *)
Definition true_divide (x y : Q) : result Q :=
  if Qeq_bool y 0 then Raise DivideByZero else Ok (x / y).

(** [np.max(v)]. *)
Definition np_max (v : list Q) : result Q :=
  match v with
  | [] => Raise ValueError
  | x :: v' => Ok (fold_left Qmax v' x)
  end.

(** [np.argmin(v)]: the first index of the least element. *)
Fixpoint argmin_from (v : list Q) (i : nat) (best : Q) (besti : nat) : nat :=
  match v with
  | [] => besti
  | x :: v' =>
      if Qltb x best then argmin_from v' (S i) x i
      else argmin_from v' (S i) best besti
  end.

Definition np_argmin (v : list Q) : result nat :=
  match v with
  | [] => Raise ValueError
  | x :: v' => Ok (argmin_from v' 1 x 0)
  end.

(** [np.abs(v)]. *)
Definition np_abs (v : list Q) : list Q := map Qabs v.

(* ================================================================= *)
(** ** Loop geometry: crossings and main-loop branches *)

Module Geometry.

(** A crossing record [(i, value_at_zero, max_before)], as appended to
    [crossings] by both [find_main_*] functions. *)
Record crossing : Type := Crossing {
  c_index : nat;
  c_value : Q;
  c_salience : Q
}.

Section Detect.

(** [a] is the coordinate whose zero-crossings are sought and [p] the
    paired coordinate that is interpolated.  In
    [find_main_coercivity_crossings] [a] is [b] and [p] is [h]; in
    [find_main_hysteresis_crossings] [a] is [h] and [p] is [b]. *)
Variables a p : list Q.

(** One iteration of [for i in range(len(a) - 1)]. *)
Definition crossing_at (i : nat) : result (option crossing) :=
  ai <- getitem a i ;;
  ai1 <- getitem a (i + 1) ;;
  if Qle_bool (ai * ai1) 0 && negb (Qeq_bool ai ai1) then
    pi <- getitem p i ;;
    pi1 <- getitem p (i + 1) ;;
    q <- true_divide ((pi1 - pi) * (- ai)) (ai1 - ai) ;;
    let at_zero := pi + q in
    let window_start := (i - 50)%nat in
    max_before <- np_max (np_abs (slice p window_start (i + 1))) ;;
    Ok (Some (Crossing i at_zero max_before))
  else Ok None.

Fixpoint detect_loop (range : list nat) (crossings : list crossing)
  : result (list crossing) :=
  match range with
  | [] => Ok crossings
  | i :: range' =>
      oc <- crossing_at i ;;
      detect_loop range'
        (match oc with
         | Some c => crossings ++ [c]
         | None => crossings
         end)
  end.

Definition detect_crossings : result (list crossing) :=
  detect_loop (seq 0 (length a - 1)) [].

End Detect.

(** [sorted(crossings, key=lambda x: x[2], reverse=True)]: a stable sort,
    descending by salience; records of equal salience keep their order. *)
Fixpoint insert_desc (c : crossing) (l : list crossing) : list crossing :=
  match l with
  | [] => [c]
  | d :: l' =>
      if Qltb (c_salience c) (c_salience d) then d :: insert_desc c l'
      else c :: l
  end.

Definition sorted_desc (l : list crossing) : list crossing :=
  fold_right insert_desc [] l.

(** The selection loop over [crossings_sorted].  The result carries, next
    to [main_crossings], the part of the list the loop has not visited:
    [break] leaves it non-empty. *)
Fixpoint select_main (cs : list crossing) (main_crossings : list Q)
  : list Q * list crossing :=
  match cs with
  | [] => (main_crossings, [])
  | c :: cs' =>
      let val := c_value c in
      match main_crossings with
      | [] => select_main cs' (main_crossings ++ [val])
      | m0 :: _ =>
          if (length main_crossings =? 1)%nat then
            if Qltb (val * m0) 0 then (main_crossings ++ [val], cs')
            else select_main cs' main_crossings
          else select_main cs' main_crossings
      end
  end.

(** The tail of both [find_main_*] functions, from [if not crossings]. *)
Definition assign_branches (crossings : list crossing) : Q * Q :=
  match crossings with
  | [] => (0, 0)
  | _ =>
      let crossings_sorted := sorted_desc crossings in
      let main_crossings := fst (select_main crossings_sorted []) in
      match main_crossings with
      | m0 :: m1 :: _ => if Qltb 0 m0 then (m0, m1) else (m1, m0)
      | _ => (0, 0)
      end
  end.

Definition classify (a p : list Q) : result (Q * Q) :=
  crossings <- detect_crossings a p ;;
  Ok (assign_branches crossings).

(** calculate_coercivity.py: crossings of B, interpolating H. *)
Definition find_main_coercivity_crossings (h_values b_values : list Q)
  : result (Q * Q) :=
  classify b_values h_values.

(** find_proper_remanence.py: crossings of H, interpolating B. *)
Definition find_main_hysteresis_crossings (h_values b_values : list Q)
  : result (Q * Q) :=
  classify h_values b_values.

(** The quantities printed by every [main]. *)
Definition midpoint (plus minus : Q) : Q := (plus + Qabs minus) / 2.
Definition uncertainty (plus minus : Q) : Q := Qabs (plus - Qabs minus) / 2.

(** *** calculate_remanence.py *)

Section Remanence.

Variables h b : list Q.

Definition remanence_at (i : nat) : result (option Q) :=
  hi <- getitem h i ;;
  hi1 <- getitem h (i + 1) ;;
  if (Qle_bool hi 0 && Qle_bool 0 hi1) || (Qle_bool hi1 0 && Qle_bool 0 hi)
  then
    if negb (Qeq_bool hi1 hi) then
      bi <- getitem b i ;;
      bi1 <- getitem b (i + 1) ;;
      q <- true_divide ((bi1 - bi) * (0 - hi)) (hi1 - hi) ;;
      Ok (Some (bi + q))
    else Ok None
  else Ok None.

Fixpoint remanence_loop (range : list nat) (zero_crossings : list Q)
  : result (list Q) :=
  match range with
  | [] => Ok zero_crossings
  | i :: range' =>
      oz <- remanence_at i ;;
      remanence_loop range'
        (match oz with
         | Some z => zero_crossings ++ [z]
         | None => zero_crossings
         end)
  end.

Definition zero_crossings_of : result (list Q) :=
  remanence_loop (seq 0 (length h - 1)) [].

Definition find_remanence : result (Q * Q) :=
  zero_crossings <- zero_crossings_of ;;
  match zero_crossings with
  | z0 :: z1 :: _ => Ok (z0, z1)
  | [z0] => Ok (z0, z0)
  | [] =>
      closest_idx <- np_argmin (np_abs h) ;;
      v <- getitem b closest_idx ;;
      Ok (v, v)
  end.

End Remanence.

(** *** Shoelace area *)

Section Shoelace.

Variables h b : list Q.

Fixpoint shoelace_loop (n : nat) (range : list nat) (area : Q) : result Q :=
  match range with
  | [] => Ok area
  | i :: range' =>
      let j := ((i + 1) mod n)%nat in
      hi <- getitem h i ;;
      bj <- getitem b j ;;
      let area := area + hi * bj in
      hj <- getitem h j ;;
      bi <- getitem b i ;;
      let area := area - hj * bi in
      shoelace_loop n range' area
  end.

(** recalculate_area.py *)
Definition calculate_area_shoelace : result Q :=
  let n := length h in
  area <- shoelace_loop n (seq 0 n) 0 ;;
  Ok (Qabs area / 2).

(** calculate_hysteresis_area.py *)
Definition calculate_hysteresis_area : result Q :=
  if (length h <? 3)%nat || (length b <? 3)%nat then Ok 0
  else
    let n := length h in
    area <- shoelace_loop n (seq 0 n) 0 ;;
    Ok (Qabs area / 2).

End Shoelace.

End Geometry.

(* ================================================================= *)
(** ** Text: Python strings and [float] *)

Module Text.

(** A Python [str] restricted to ASCII, as the list of its characters. *)
Definition str : Type := list ascii.

Definition lit (s : String.string) : str := String.list_ascii_of_string s.

Arguments lit s%_string.

Definition tab : ascii := ascii_of_nat 9.
Definition newline : ascii := ascii_of_nat 10.

Definition code (c : ascii) : nat := nat_of_ascii c.

(** [c.isspace()] on ASCII: TAB, LF, VT, FF, CR, FS, GS, RS, US, space. *)
Definition is_space (c : ascii) : bool :=
  let n := code c in
  ((9 <=? n) && (n <=? 13)) || ((28 <=? n) && (n <=? 32)).

(** The blanks that [float()] skips around an ASCII literal (C's
    [isspace]): TAB, LF, VT, FF, CR, space. *)
Definition is_c_space (c : ascii) : bool :=
  let n := code c in
  ((9 <=? n) && (n <=? 13)) || (n =? 32).

Definition is_digit (c : ascii) : bool :=
  let n := code c in (48 <=? n) && (n <=? 57).

(** [c.lower()] on ASCII. *)
Definition lower_char (c : ascii) : ascii :=
  let n := code c in
  if (65 <=? n) && (n <=? 90) then ascii_of_nat (n + 32) else c.

Definition lower (s : str) : str := map lower_char s.

Fixpoint lstrip_with (space : ascii -> bool) (s : str) : str :=
  match s with
  | c :: s' => if space c then lstrip_with space s' else s
  | [] => []
  end.

Definition rstrip_with (space : ascii -> bool) (s : str) : str :=
  rev (lstrip_with space (rev s)).

Definition strip_with (space : ascii -> bool) (s : str) : str :=
  rstrip_with space (lstrip_with space s).

(** [s.strip()] *)
Definition strip (s : str) : str := strip_with is_space s.

Fixpoint str_eqb (s t : str) : bool :=
  match s, t with
  | [], [] => true
  | c :: s', d :: t' => Ascii.eqb c d && str_eqb s' t'
  | _, _ => false
  end.

(** [s in {k1, k2, ...}] *)
Definition member (s : str) (keys : list str) : bool :=
  existsb (str_eqb s) keys.

Fixpoint starts_with (p s : str) : bool :=
  match p, s with
  | [], _ => true
  | c :: p', d :: s' => Ascii.eqb c d && starts_with p' s'
  | _ :: _, [] => false
  end.

(** [p in s]: substring test. *)
Fixpoint contains (p s : str) : bool :=
  starts_with p s ||
  match s with
  | [] => false
  | _ :: s' => contains p s'
  end.

(** [s.split(sep)] for a one-character separator. *)
Fixpoint split (sep : ascii) (s : str) : list str :=
  match s with
  | [] => [[]]
  | c :: s' =>
      if Ascii.eqb c sep then [] :: split sep s'
      else match split sep s' with
           | f :: fs => (c :: f) :: fs
           | [] => [[c]]
           end
  end.

(** [f.readlines()] on the text of a file (newlines already translated to
    LF): every line keeps its terminating newline. *)
Fixpoint readlines (s : str) : list str :=
  match s with
  | [] => []
  | c :: s' =>
      if Ascii.eqb c newline then [c] :: readlines s'
      else match readlines s' with
           | l :: ls => (c :: l) :: ls
           | [] => [[c]]
           end
  end.

(** [f.writelines(lines)] into an emptied file. *)
Definition writelines (lines : list str) : str := concat lines.

(** The carriage return. *)
Definition cr : ascii := ascii_of_nat 13.

(** The newline translation of a file opened for reading in text mode
    with the default [newline=None]: CR LF and a lone CR become LF. *)
Fixpoint universal_newlines (s : str) : str :=
  match s with
  | [] => []
  | c :: s' =>
      if Ascii.eqb c cr then
        match s' with
        | d :: s'' =>
            if Ascii.eqb d newline then newline :: universal_newlines s''
            else newline :: universal_newlines s'
        | [] => [newline]
        end
      else c :: universal_newlines s'
  end.

(** *** Floats as text

    A float that is read from or written to text is a sign and an exact
    non-negative magnitude, or an infinity, or a NaN.  [float()] rounds
    the decimal literal to the nearest binary64 value, and the format
    [.3f] rounds the exact binary64 value to thousandths, both ties to
    even; the sign of a zero is kept. *)
Inductive pyfloat : Type :=
| Finite (negative : bool) (magnitude : Q)
| Infinite (negative : bool)
| NaN.

(** Unary minus. *)
Definition fneg (x : pyfloat) : pyfloat :=
  match x with
  | Finite s m => Finite (negb s) m
  | Infinite s => Infinite (negb s)
  | NaN => NaN
  end.

Definition digit_of (c : ascii) : option N :=
  if is_digit c then Some (N.of_nat (code c - 48)) else None.

Definition digit_char (d : N) : ascii := ascii_of_nat (48 + N.to_nat d).

Definition underscore : ascii := ascii_of_nat 95.

(** The underscore rule of numeric literals: an underscore stands between
    two digits; the underscores are removed.  [prev] is the character
    before [s] (NUL at the start). *)
Fixpoint remove_underscores (prev : ascii) (s : str) : option str :=
  match s with
  | [] => if Ascii.eqb prev underscore then None else Some []
  | c :: s' =>
      if Ascii.eqb c underscore then
        if is_digit prev then remove_underscores c s' else None
      else if Ascii.eqb prev underscore && negb (is_digit c) then None
      else option_map (cons c) (remove_underscores c s')
  end.

(** An optional sign. *)
Definition take_sign (s : str) : bool * str :=
  match s with
  | c :: s' =>
      if Ascii.eqb c (ascii_of_nat 45) then (true, s')
      else if Ascii.eqb c (ascii_of_nat 43) then (false, s')
      else (false, s)
  | [] => (false, s)
  end.

(** The longest prefix of decimal digits, and what follows it. *)
Fixpoint take_digits (s : str) : list N * str :=
  match s with
  | c :: s' =>
      match digit_of c with
      | Some d => let (ds, r) := take_digits s' in (d :: ds, r)
      | None => ([], s)
      end
  | [] => ([], [])
  end.

Definition value_of (ds : list N) : N :=
  fold_left (fun acc d => (10 * acc + d)%N) ds 0%N.

(** Nothing, or [e] or [E], an optional sign and at least one digit. *)
Definition take_exponent (s : str) : option Z :=
  match s with
  | [] => Some 0%Z
  | c :: s' =>
      if Ascii.eqb (lower_char c) (ascii_of_nat 101) then
        let (negative, r) := take_sign s' in
        match take_digits r with
        | ((_ :: _) as ds, []) =>
            let e := Z.of_N (value_of ds) in
            Some (if negative then (- e)%Z else e)
        | _ => None
        end
      else None
  end.

(** [n * 10 ^ e] *)
Definition scale10 (n : N) (e : Z) : Q :=
  if (0 <=? e)%Z then inject_Z (Z.of_N n * 10 ^ e)
  else Z.of_N n # Z.to_pos (10 ^ (- e)).

(** A decimal number: digits with an optional point, at least one digit
    in all, and an optional exponent. *)
Definition parse_number (s : str) : option Q :=
  let (ip, r1) := take_digits s in
  let (fp, r2) :=
    match r1 with
    | c :: r => if Ascii.eqb c (ascii_of_nat 46) then take_digits r else ([], r1)
    | [] => ([], r1)
    end in
  match ip ++ fp with
  | [] => None
  | ds =>
      match take_exponent r2 with
      | Some e => Some (scale10 (value_of ds) (e - Z.of_nat (length fp)))
      | None => None
      end
  end.

(** The decimal literal [s] read exactly: the value the text denotes,
    before any rounding.  [None] when [s] is not a float literal. *)
Definition decimal_of_str (s : str) : option pyfloat :=
  match remove_underscores zero (strip_with is_c_space s) with
  | None => None
  | Some t =>
      let (negative, body) := take_sign t in
      let word := lower body in
      if member word [lit "inf"; lit "infinity"] then Some (Infinite negative)
      else if str_eqb word (lit "nan") then Some NaN
      else option_map (Finite negative) (parse_number body)
  end.

(** The nearest integer to the non-negative [x], ties to even. *)
Definition round_half_even (x : Q) : Z :=
  let num := Qnum x in
  let den := Zpos (Qden x) in
  let q := (num / den)%Z in
  let r := (num mod den)%Z in
  match (2 * r ?= den)%Z with
  | Lt => q
  | Gt => (q + 1)%Z
  | Eq => if Z.even q then q else (q + 1)%Z
  end.

(** [x * 2 ^ e], exactly. *)
Definition scale2 (x : Q) (e : Z) : Q :=
  if (0 <=? e)%Z then (Qnum x * 2 ^ e)%Z # Qden x
  else Qnum x # (Qden x * Z.to_pos (2 ^ (- e)))%positive.

(** The integer part of the binary logarithm of a positive rational. *)
Definition floor_log2 (x : Q) : Z :=
  let k := (Z.log2 (Qnum x) - Z.log2 (Zpos (Qden x)))%Z in
  if Qle_bool 1 (scale2 x (- k)) then k else (k - 1)%Z.

(** Rounding of a non-negative real to binary64, to nearest and ties to
    even, with gradual underflow; [None] when the result overflows. *)
Definition round_binary64 (m : Q) : option Q :=
  if (Qnum m =? 0)%Z then Some 0
  else
    let e := Z.max (floor_log2 m - 52) (-1074) in
    let mantissa := round_half_even (scale2 m (- e)) in
    let v := scale2 (inject_Z mantissa) e in
    if Qle_bool (inject_Z (2 ^ 1024)) v then None else Some v.

Definition to_binary64 (x : pyfloat) : pyfloat :=
  match x with
  | Finite s m =>
      match round_binary64 m with
      | Some v => Finite s v
      | None => Infinite s
      end
  | _ => x
  end.

(** [float(s)]; [None] stands for ValueError. *)
Definition float_of_str (s : str) : option pyfloat :=
  option_map to_binary64 (decimal_of_str s).

(** The non-negative magnitude [m] in thousandths, rounded to the nearest
    integer, ties to even. *)
Definition round_milli (m : Q) : N := Z.to_N (round_half_even (m * 1000)).

Fixpoint digits_aux (fuel : nat) (n : N) (acc : list N) : list N :=
  match fuel with
  | O => acc
  | S fuel' =>
      let acc' := (n mod 10)%N :: acc in
      if (n / 10 =? 0)%N then acc' else digits_aux fuel' (n / 10)%N acc'
  end.

(** The decimal digits of [n], most significant first; one digit for 0. *)
Definition digits (n : N) : list N := digits_aux (S (N.size_nat n)) n [].

Definition decimal (n : N) : str := map digit_char (digits n).

Definition sign_text (negative : bool) : str :=
  if negative then [ascii_of_nat 45] else [].

(** [f"{x:.3f}"] *)
Definition format3 (x : pyfloat) : str :=
  match x with
  | Finite s m =>
      let n := round_milli m in
      let k := (n mod 1000)%N in
      sign_text s ++ decimal (n / 1000)%N ++ [ascii_of_nat 46] ++
      [digit_char (k / 100); digit_char ((k / 10) mod 10); digit_char (k mod 10)]
  | Infinite s => sign_text s ++ lit "inf"
  | NaN => lit "nan"
  end.

End Text.

(* ================================================================= *)
(** ** The tabular reader *)

Module Reader.

Import Text.

(** [read_dataset], on the rows that [csv.reader] yields for the file: a
    row is the list of its fields.  The csv tokenizer itself belongs to
    the Python library. *)
Fixpoint read_rows (rows : list (list str)) (currents fluxes : list pyfloat)
  : list pyfloat * list pyfloat :=
  match rows with
  | [] => (currents, fluxes)
  | row :: rows' =>
      match row with
      | r0 :: r1 :: _ =>
          if member (lower (strip r0)) [lit "current"; lit "i/a"] then
            read_rows rows' currents fluxes
          else if member (lower (strip r1)) [lit "flux density b"; lit "b/mt"] then
            read_rows rows' currents fluxes
          else
            match float_of_str (strip r0) with
            | None => read_rows rows' currents fluxes
            | Some current =>
                match float_of_str (strip r1) with
                | None => read_rows rows' currents fluxes
                | Some flux =>
                    read_rows rows' (currents ++ [current]) (fluxes ++ [flux])
                end
            end
      | _ => read_rows rows' currents fluxes
      end
  end.

Definition read_dataset (rows : list (list str)) : list pyfloat * list pyfloat :=
  read_rows rows [] [].

End Reader.

(* ================================================================= *)
(** ** negate_run2softiron.py *)

Module Negate.

Import Text.

(** The body of [for line in lines]: what is appended to [output_lines]. *)
Definition negate_line (line : str) : str :=
  if match strip line with [] => true | _ => false end
     || negb (contains [tab] line)
  then line
  else
    let parts := split tab (strip line) in
    match parts with
    | [p0; p1] =>
        if existsb (fun keyword => contains keyword (lower p0))
                   [lit "current"; lit "i/a"] then line
        else if existsb (fun keyword => contains keyword (lower p1))
                        [lit "flux"; lit "b/mt"] then line
        else
          match float_of_str p0 with
          | None => line
          | Some current =>
              match float_of_str p1 with
              | None => line
              | Some flux =>
                  let negated_current := fneg current in
                  let negated_flux := fneg flux in
                  format3 negated_current ++ [tab] ++
                  format3 negated_flux ++ [newline]
              end
          end
    | _ => line
    end.

(** The body of [negate_dataset] as a function from the text that the
    open file hands to [readlines], newlines translated, to the text that
    is handed to [writelines]. *)
Definition negate_dataset (content : str) : str :=
  let lines := readlines content in
  let output_lines := map negate_line lines in
  writelines output_lines.

(** The whole run of the script on the characters of the file as they are
    stored: the file is read in text mode, which translates the newlines,
    and written in text mode, which on POSIX writes LF as it is. *)
Definition negate_file (stored : str) : str :=
  negate_dataset (universal_newlines stored).

End Negate.

(* ================================================================= *)
(** ** Binary64 arithmetic

    The arithmetic of the scripts as numpy performs it on [float64]
    scalars: every operation is the exact operation on the values followed
    by one rounding to binary64, to nearest and ties to even, with gradual
    underflow, signed zeros, infinities and NaN.  No operation raises:
    overflow, an invalid operation and a division by zero answer inf or
    nan (numpy prints a RuntimeWarning). *)

Module Binary64.

Import Text.

(** [0.0] *)
Definition fzero : pyfloat := Finite false 0.

(** [2.0] *)
Definition ftwo : pyfloat := Finite false 2.

Definition is_nan (x : pyfloat) : bool :=
  match x with NaN => true | _ => false end.


(** The real number that a finite float stands for. *)
Definition signed (negative : bool) (m : Q) : Q := if negative then - m else m.

(** The float nearest to the exact result [q]; an exact zero takes the
    sign [zero_sign]. *)
Definition of_exact (q : Q) (zero_sign : bool) : pyfloat :=
  if Qeq_bool q 0 then Finite zero_sign 0
  else to_binary64 (Finite (negb (Qle_bool 0 q)) (Qabs q)).

(** [x + y] *)
Definition fadd (x y : pyfloat) : pyfloat :=
  match x, y with
  | NaN, _ | _, NaN => NaN
  | Infinite s, Infinite t => if Bool.eqb s t then Infinite s else NaN
  | Infinite s, Finite _ _ => Infinite s
  | Finite _ _, Infinite t => Infinite t
  | Finite s m, Finite t n => of_exact (signed s m + signed t n) (s && t)
  end.

(** [x - y] *)
Definition fsub (x y : pyfloat) : pyfloat := fadd x (fneg y).

(** [x * y] *)
Definition fmul (x y : pyfloat) : pyfloat :=
  match x, y with
  | NaN, _ | _, NaN => NaN
  | Infinite s, Infinite t => Infinite (xorb s t)
  | Infinite s, Finite t n =>
      if Qeq_bool n 0 then NaN else Infinite (xorb s t)
  | Finite s m, Infinite t =>
      if Qeq_bool m 0 then NaN else Infinite (xorb s t)
  | Finite s m, Finite t n => to_binary64 (Finite (xorb s t) (m * n))
  end.

(** [x / y] *)
Definition fdiv (x y : pyfloat) : pyfloat :=
  match x, y with
  | NaN, _ | _, NaN => NaN
  | Infinite _, Infinite _ => NaN
  | Infinite s, Finite t _ => Infinite (xorb s t)
  | Finite s _, Infinite t => Finite (xorb s t) 0
  | Finite s m, Finite t n =>
      if Qeq_bool n 0 then
        if Qeq_bool m 0 then NaN else Infinite (xorb s t)
      else to_binary64 (Finite (xorb s t) (m / n))
  end.

(** [abs(x)] *)
Definition fabs (x : pyfloat) : pyfloat :=
  match x with
  | Finite _ m => Finite false m
  | Infinite _ => Infinite false
  | NaN => NaN
  end.

(** The order of two floats; [None] when either is a NaN, which makes
    every comparison but [!=] false. *)
Definition fcompare (x y : pyfloat) : option comparison :=
  match x, y with
  | NaN, _ | _, NaN => None
  | Infinite s, Infinite t =>
      Some (if s then if t then Eq else Lt else if t then Gt else Eq)
  | Infinite s, Finite _ _ => Some (if s then Lt else Gt)
  | Finite _ _, Infinite t => Some (if t then Gt else Lt)
  | Finite s m, Finite t n => Some (signed s m ?= signed t n)
  end.

(** [x < y] *)
Definition flt (x y : pyfloat) : bool :=
  match fcompare x y with Some Lt => true | _ => false end.

(** [x <= y] *)
Definition fle (x y : pyfloat) : bool :=
  match fcompare x y with Some Lt | Some Eq => true | _ => false end.

(** [x == y] *)
Definition feq (x y : pyfloat) : bool :=
  match fcompare x y with Some Eq => true | _ => false end.

(** [x != y] *)
Definition fne (x y : pyfloat) : bool := negb (feq x y).

(** [x > y] *)
Definition fgt (x y : pyfloat) : bool := flt y x.

(** [x >= y] *)
Definition fge (x y : pyfloat) : bool := fle y x.

(** [np.maximum(x, y)]: a NaN wins. *)
Definition maximum (x y : pyfloat) : pyfloat :=
  if is_nan x then x
  else if is_nan y then y
  else if flt x y then y else x.

(** [x] is a binary64 value: rounding leaves it as it is. *)
Definition is_binary64 (x : pyfloat) : bool :=
  match x with
  | Finite _ m =>
      Qle_bool 0 m &&
      match round_binary64 m with
      | Some v => Qeq_bool v m
      | None => false
      end
  | _ => true
  end.

(** The float nearest to the rational [q]. *)
Definition of_Q (q : Q) : pyfloat := of_exact q false.

(** The least positive binary64 value. *)
Definition tiny : Q := 2 ^ (-1074).

End Binary64.

(* ================================================================= *)
(** ** numpy on arrays of binary64 *)

Module Numpy64.

Import Text Binary64.

(** [l[i]] for a non-negative index. *)
Definition getitem (l : list pyfloat) (i : nat) : result pyfloat :=
  match nth_error l i with
  | Some x => Ok x
  | None => Raise IndexError
  end.

(** [l[lo:hi]] for non-negative bounds. *)
Definition slice (l : list pyfloat) (lo hi : nat) : list pyfloat :=
  firstn (hi - lo) (skipn lo l).

(** [np.max(v)] *)
Definition np_max (v : list pyfloat) : result pyfloat :=
  match v with
  | [] => Raise ValueError
  | x :: v' => Ok (fold_left maximum v' x)
  end.

(** [np.abs(v)] *)
Definition np_abs (v : list pyfloat) : list pyfloat := map fabs v.

(** [np.argmin(v)]: the first index of the least element; the scan
    replaces the running minimum [best] by an element [x] unless
    [x >= best], and stops at the first NaN. *)
Fixpoint argmin_from (v : list pyfloat) (i : nat) (best : pyfloat)
         (besti : nat) : nat :=
  match v with
  | [] => besti
  | x :: v' =>
      if is_nan best then besti
      else if fge x best then argmin_from v' (S i) best besti
      else argmin_from v' (S i) x i
  end.

Definition np_argmin (v : list pyfloat) : result nat :=
  match v with
  | [] => Raise ValueError
  | x :: v' => Ok (argmin_from v' 1 x 0)
  end.

End Numpy64.

(* ================================================================= *)
(** ** Loop geometry in binary64

    The routines of [Geometry] once more, now with the arithmetic and the
    comparisons of [Binary64] in the place of the exact ones. *)

Module Geometry64.

Import Text Binary64 Numpy64.

Record crossing : Type := Crossing {
  c_index : nat;
  c_value : pyfloat;
  c_salience : pyfloat
}.

Section Detect.

Variables a p : list pyfloat.

(** One iteration of [for i in range(len(a) - 1)]. *)
Definition crossing_at (i : nat) : result (option crossing) :=
  ai <- getitem a i ;;
  ai1 <- getitem a (i + 1) ;;
  if fle (fmul ai ai1) fzero && fne ai ai1 then
    pi <- getitem p i ;;
    pi1 <- getitem p (i + 1) ;;
    let at_zero :=
      fadd pi (fdiv (fmul (fsub pi1 pi) (fneg ai)) (fsub ai1 ai)) in
    let window_start := (i - 50)%nat in
    max_before <- np_max (np_abs (slice p window_start (i + 1))) ;;
    Ok (Some (Crossing i at_zero max_before))
  else Ok None.

Fixpoint detect_loop (range : list nat) (crossings : list crossing)
  : result (list crossing) :=
  match range with
  | [] => Ok crossings
  | i :: range' =>
      oc <- crossing_at i ;;
      detect_loop range'
        (match oc with
         | Some c => crossings ++ [c]
         | None => crossings
         end)
  end.

Definition detect_crossings : result (list crossing) :=
  detect_loop (seq 0 (length a - 1)) [].

End Detect.

(** [sorted(crossings, key=lambda x: x[2], reverse=True)]: a stable sort,
    descending by salience.  The keys are compared with [<] alone; the
    description as an insertion holds for keys without a NaN, which is
    what the maximum of a window without a NaN is. *)
Fixpoint insert_desc (c : crossing) (l : list crossing) : list crossing :=
  match l with
  | [] => [c]
  | d :: l' =>
      if flt (c_salience c) (c_salience d) then d :: insert_desc c l'
      else c :: l
  end.

Definition sorted_desc (l : list crossing) : list crossing :=
  fold_right insert_desc [] l.

(** The selection loop over [crossings_sorted], with the part of the list
    that [break] leaves unvisited. *)
Fixpoint select_main (cs : list crossing) (main_crossings : list pyfloat)
  : list pyfloat * list crossing :=
  match cs with
  | [] => (main_crossings, [])
  | c :: cs' =>
      let b_val := c_value c in
      match main_crossings with
      | [] => select_main cs' (main_crossings ++ [b_val])
      | m0 :: _ =>
          if (length main_crossings =? 1)%nat then
            if flt (fmul b_val m0) fzero then (main_crossings ++ [b_val], cs')
            else select_main cs' main_crossings
          else select_main cs' main_crossings
      end
  end.

(** The tail of both [find_main_*] functions, from [if not crossings]. *)
Definition assign_branches (crossings : list crossing) : pyfloat * pyfloat :=
  match crossings with
  | [] => (fzero, fzero)
  | _ =>
      let crossings_sorted := sorted_desc crossings in
      let main_crossings := fst (select_main crossings_sorted []) in
      match main_crossings with
      | m0 :: m1 :: _ => if fgt m0 fzero then (m0, m1) else (m1, m0)
      | _ => (fzero, fzero)
      end
  end.

Definition classify (a p : list pyfloat) : result (pyfloat * pyfloat) :=
  crossings <- detect_crossings a p ;;
  Ok (assign_branches crossings).

(** calculate_coercivity.py: crossings of B, interpolating H. *)
Definition find_main_coercivity_crossings (h_values b_values : list pyfloat)
  : result (pyfloat * pyfloat) :=
  classify b_values h_values.

(** find_proper_remanence.py: crossings of H, interpolating B. *)
Definition find_main_hysteresis_crossings (h_values b_values : list pyfloat)
  : result (pyfloat * pyfloat) :=
  classify h_values b_values.

(** *** calculate_remanence.py *)

Section Remanence.

Variables h b : list pyfloat.

Definition remanence_at (i : nat) : result (option pyfloat) :=
  hi <- getitem h i ;;
  hi1 <- getitem h (i + 1) ;;
  if (fle hi fzero && fle fzero hi1) || (fle hi1 fzero && fle fzero hi) then
    if fne hi1 hi then
      bi <- getitem b i ;;
      bi1 <- getitem b (i + 1) ;;
      Ok (Some (fadd bi (fdiv (fmul (fsub bi1 bi) (fsub fzero hi))
                              (fsub hi1 hi))))
    else Ok None
  else Ok None.

Fixpoint remanence_loop (range : list nat) (zero_crossings : list pyfloat)
  : result (list pyfloat) :=
  match range with
  | [] => Ok zero_crossings
  | i :: range' =>
      oz <- remanence_at i ;;
      remanence_loop range'
        (match oz with
         | Some z => zero_crossings ++ [z]
         | None => zero_crossings
         end)
  end.

Definition zero_crossings_of : result (list pyfloat) :=
  remanence_loop (seq 0 (length h - 1)) [].

Definition find_remanence : result (pyfloat * pyfloat) :=
  zero_crossings <- zero_crossings_of ;;
  match zero_crossings with
  | z0 :: z1 :: _ => Ok (z0, z1)
  | [z0] => Ok (z0, z0)
  | [] =>
      closest_idx <- np_argmin (np_abs h) ;;
      v <- getitem b closest_idx ;;
      Ok (v, v)
  end.

End Remanence.

(** *** Shoelace area *)

Section Shoelace.

Variables h b : list pyfloat.

Fixpoint shoelace_loop (n : nat) (range : list nat) (area : pyfloat)
  : result pyfloat :=
  match range with
  | [] => Ok area
  | i :: range' =>
      let j := ((i + 1) mod n)%nat in
      hi <- getitem h i ;;
      bj <- getitem b j ;;
      let area := fadd area (fmul hi bj) in
      hj <- getitem h j ;;
      bi <- getitem b i ;;
      let area := fsub area (fmul hj bi) in
      shoelace_loop n range' area
  end.

(** recalculate_area.py *)
Definition calculate_area_shoelace : result pyfloat :=
  let n := length h in
  area <- shoelace_loop n (seq 0 n) fzero ;;
  Ok (fdiv (fabs area) ftwo).

(** calculate_hysteresis_area.py *)
Definition calculate_hysteresis_area : result pyfloat :=
  if (length h <? 3)%nat || (length b <? 3)%nat then Ok fzero
  else
    let n := length h in
    area <- shoelace_loop n (seq 0 n) fzero ;;
    Ok (fdiv (fabs area) ftwo).

End Shoelace.

End Geometry64.

(* ================================================================= *)
(** ** Vocabulary of the statements and example data *)

Import Geometry Text Reader Negate.

(** The test series of the specification. *)
Definition h_example : list Q := [-10; -5; 5; 10].
Definition b_example : list Q := [-1; -(1#2); 1#2; 1].


(** The series on which [find_remanence] is evaluated below: H never
    reaches zero. *)
Definition h_rising : list Q := [1; 2; 3].
Definition b_rising : list Q := [5; 6; 7].

(** A series whose H changes sign exactly once. *)
Definition h_single : list Q := [-1; 1].
Definition b_single : list Q := [2; 4].

(** The signed Shoelace sum of a vertex list, written on the list of points
    rather than on indices: [chain] adds the cross products of consecutive
    points, [closed_sum] closes the polygon on its first vertex. *)
Definition cross (u v : Q * Q) : Q := fst u * snd v - fst v * snd u.

Fixpoint chain (l : list (Q * Q)) : Q :=
  match l with
  | u :: (v :: _) as t => cross u v + chain t
  | _ => 0
  end.

Definition closed_sum (l : list (Q * Q)) : Q :=
  match l with
  | [] => 0
  | u :: _ => chain (l ++ [u])
  end.

(** Two runs that both return, with equal numbers. *)
Definition same_value (r1 r2 : result Q) : Prop :=
  exists x y, r1 = Ok x /\ r2 = Ok y /\ x == y.

(** The triangle (0,0), (4,0), (0,3) of the specification, split after its
    first vertex. *)
Definition tri_h1 : list Q := [0].
Definition tri_h2 : list Q := [4; 0].
Definition tri_b1 : list Q := [0].
Definition tri_b2 : list Q := [0; 3].

(** Every value of a series negated. *)
Definition neg (l : list Q) : list Q := map Qopp l.

(** Two runs that end alike: the same exception, or related values. *)
Definition res_rel {A : Type} (R : A -> A -> Prop) (r1 r2 : result A) : Prop :=
  match r1, r2 with
  | Ok x, Ok y => R x y
  | Raise e1, Raise e2 => e1 = e2
  | _, _ => False
  end.

(** The record of the same crossing in the negated dataset. *)
Definition mirrored (c c' : crossing) : Prop :=
  c_index c' = c_index c /\
  c_value c' == - c_value c /\
  c_salience c' = c_salience c.

(** A value and its counterpart in the negated dataset. *)
Definition opposite (v v' : Q) : Prop := v' == - v.

(** A vertex with both coordinates negated. *)
Definition neg_point (u : Q * Q) : Q * Q := (- fst u, - snd u).

(** A loop with two B-crossings, at H = 3 and at H = -3/2. *)
Definition h_loop : list Q := [4; 2; -2; -1].
Definition b_loop : list Q := [1; -1; -1; 1].

(** The first field is a recognised label of the current column. *)
Definition current_label (field : str) : bool :=
  member (lower (strip field)) [lit "current"; lit "i/a"].

(** The second field is a recognised label of the flux column. *)
Definition flux_label (field : str) : bool :=
  member (lower (strip field)) [lit "flux density b"; lit "b/mt"].

(** A row that the reader recognises as a header. *)
Definition header_row (row : list str) : Prop :=
  (exists r0 rest, row = r0 :: rest /\ current_label r0 = true) \/
  (exists r0 r1 rest, row = r0 :: r1 :: rest /\ flux_label r1 = true).

(** The characters that [format3] writes: digits, sign, point and the
    letters of "inf" and "nan". *)
Definition plain (c : ascii) : bool :=
  is_digit c || existsb (Ascii.eqb c) (lit "-.infa").

(** The decimal point. *)
Definition dot : ascii := ascii_of_nat 46.

(** The three fractional digits of [n] thousandths. *)
Definition milli_digits (n : N) : list N :=
  let k := (n mod 1000)%N in [(k / 100)%N; ((k / 10) mod 10)%N; (k mod 10)%N].

(** The line that the script writes for the two negated values. *)
Definition formatted_line (u v : pyfloat) : str :=
  format3 u ++ [tab] ++ format3 v ++ [newline].

(** The two fields of a line that reaches the [try] block: a non-blank
    line with a tab, two tab-separated fields once stripped, and no header
    keyword in either. *)
Definition fields_of (line : str) : option (str * str) :=
  if match strip line with [] => true | _ => false end
     || negb (contains [tab] line)
  then None
  else
    match split tab (strip line) with
    | [p0; p1] =>
        if existsb (fun keyword => contains keyword (lower p0))
                   [lit "current"; lit "i/a"] then None
        else if existsb (fun keyword => contains keyword (lower p1))
                        [lit "flux"; lit "b/mt"] then None
        else Some (p0, p1)
    | _ => None
    end.

(** [t] without its leading minus sign, if it has one. *)
Definition drop_minus (t : str) : str :=
  match t with
  | c :: r => if Ascii.eqb c (ascii_of_nat 45) then r else t
  | [] => t
  end.

(** A written number with exactly three decimal places: an optional minus
    sign, at least one digit, a point and three digits. *)
Definition three_decimals (t : str) : bool :=
  let (ip, r) := take_digits (drop_minus t) in
  match ip, r with
  | _ :: _, [c; d1; d2; d3] =>
      Ascii.eqb c dot && is_digit d1 && is_digit d2 && is_digit d3
  | _, _ => false
  end.

(** The decimal literal in [field] has a non-zero digit beyond its third
    decimal place: its exact value is not a whole number of thousandths. *)
Definition exceeds_three_decimals (field : str) : Prop :=
  exists s m, decimal_of_str field = Some (Finite s m) /\
              ~ exists k : Z, m * 1000 == inject_Z k.

(** No character of [s] is a newline. *)
Definition no_newline (s : str) : Prop :=
  Forall (fun c => Ascii.eqb c newline = false) s.

(** A line that ends with its only newline. *)
Definition terminated (l : str) : Prop :=
  exists body, l = body ++ [newline] /\ no_newline body.

(** What [readlines] returns: terminated lines, the last of which may
    instead be a non-empty line without newline. *)
Inductive file_lines : list str -> Prop :=
| file_lines_nil : file_lines []
| file_lines_last (l : str) : l <> [] -> no_newline l -> file_lines [l]
| file_lines_cons (l : str) (ls : list str) :
    terminated l -> file_lines ls -> file_lines (l :: ls).

(** A line with two finite values, one of them with more than three
    decimals. *)
Definition line_example : str := lit "1.23456	-0.5
".

(** The binary64 values of its two fields. *)
Definition example_current : pyfloat :=
  Eval vm_compute in
    match float_of_str (lit "1.23456") with Some x => x | None => NaN end.

Definition example_flux : pyfloat :=
  Eval vm_compute in
    match float_of_str (lit "-0.5") with Some x => x | None => NaN end.

(** The two values that a row contributes to the dataset, if it is a data
    row. *)
Definition row_values (row : list str) : option (pyfloat * pyfloat) :=
  match row with
  | r0 :: r1 :: _ =>
      if current_label r0 then None
      else if flux_label r1 then None
      else
        match float_of_str (strip r0), float_of_str (strip r1) with
        | Some current, Some flux => Some (current, flux)
        | _, _ => None
        end
  | _ => None
  end.

(** The data of a file, row by row and in file order. *)
Definition data_of (rows : list (list str)) : list (pyfloat * pyfloat) :=
  flat_map (fun row => match row_values row with
                       | Some v => [v]
                       | None => []
                       end) rows.

(** A row that is not a data row for lack of fields or of numbers. *)
Definition malformed_row (row : list str) : Prop :=
  (length row < 2)%nat \/
  (exists r0 rest, row = r0 :: rest /\ float_of_str (strip r0) = None) \/
  (exists r0 r1 rest, row = r0 :: r1 :: rest /\
                      float_of_str (strip r1) = None).


(** A vertex moved by [(dx, dy)]. *)
Definition shift_point (dx dy : Q) (u : Q * Q) : Q * Q :=
  (fst u + dx, snd u + dy).

(** Every value of a series multiplied by [k]: the conversion
    [h_values = [config["h_factor"] * i for i in currents]] of every
    [main]. *)
Definition scaled_by (k : Q) (l : list Q) : list Q := map (fun i => k * i) l.

(** Every value of a series moved by [d]. *)
Definition offset_by (d : Q) (l : list Q) : list Q := map (fun x => x + d) l.

(** A value of [find_remanence]'s crossing list and the record of the same
    crossing in the list of [find_main_hysteresis_crossings]. *)
Definition same_crossing (z : Q) (c : crossing) : Prop := z == c_value c.

(** Two runs of different result types that end alike: the same
    exception, or related values. *)
Definition res_rel_hetero {A B : Type} (R : A -> B -> Prop)
           (r1 : result A) (r2 : result B) : Prop :=
  match r1, r2 with
  | Ok x, Ok y => R x y
  | Raise e1, Raise e2 => e1 = e2
  | _, _ => False
  end.

(** [x'] is [k] times [x]. *)
Definition proportional (k x x' : Q) : Prop := x' == k * x.

(** The record of the same crossing after the paired series was multiplied
    by [k]: value and salience are multiplied by [k]. *)
Definition scaled_record (k : Q) (c c' : crossing) : Prop :=
  c_index c' = c_index c /\
  c_value c' == k * c_value c /\
  c_salience c' == k * c_salience c.

(** *** Vocabulary of the binary64 statements *)

Import Binary64.



(** The test of the detection loop at index [i], in binary64: the two
    adjacent values exist, their rounded product is not positive and they
    differ. *)
Definition sign_change64 (a : list pyfloat) (i : nat) : bool :=
  match nth_error a i, nth_error a (i + 1) with
  | Some x, Some y => fle (fmul x y) fzero && fne x y
  | _, _ => false
  end.







(** A series of exact values as binary64 floats. *)
Definition floats (l : list Q) : list pyfloat := map of_Q l.


(** A rising, all-positive H whose adjacent products underflow. *)
Definition h_minute : list pyfloat :=
  Eval vm_compute in floats [2 ^ (-600); 2 ^ (-599); 2 ^ (-598)].
Definition b_minute : list pyfloat := Eval vm_compute in floats [1; 3; -5].

(** The example series of the exact model, as floats. *)
Definition h_example64 : list pyfloat := Eval vm_compute in floats h_example.

(** A triangle and a two-point "polygon" whose coordinates are tenths,
    none of them a binary64 value. *)
Definition h_tenths : list pyfloat :=
  Eval vm_compute in floats [1 # 10; 3 # 10; 5 # 10].
Definition b_tenths : list pyfloat :=
  Eval vm_compute in floats [7 # 10; 2 # 10; 9 # 10].
Definition h_pair : list pyfloat := Eval vm_compute in floats [1 # 10; 3 # 10].
Definition b_pair : list pyfloat := Eval vm_compute in floats [7 # 10; 2 # 10].




(** The test of [find_remanence]'s loop at index [i], in binary64: zero
    lies between the two adjacent values, bounds included, and they
    differ. *)
Definition straddles_zero (h : list pyfloat) (i : nat) : bool :=
  match nth_error h i, nth_error h (i + 1) with
  | Some x, Some y =>
      ((fle x fzero && fle fzero y) || (fle y fzero && fle fzero x)) && fne y x
  | _, _ => false
  end.

(** A binary64 value that is neither an infinity nor a NaN. *)
Definition finite_binary64 (x : pyfloat) : bool :=
  match x with
  | Finite _ _ => is_binary64 x
  | _ => false
  end.

(** *** Vocabulary of the statements about stored files *)

(** The characters of a text that [float] accepts: blanks, digits, sign,
    point, underscore, exponent letter, and the letters of "infinity" and
    "nan" in either case. *)
Definition numeric_char (c : ascii) : bool :=
  is_c_space c || is_digit c ||
  existsb (Ascii.eqb (lower_char c)) (lit "_+-.einfaty").

(** No character of [s] is a carriage return. *)
Definition no_cr (s : str) : Prop :=
  Forall (fun c => Ascii.eqb c cr = false) s.

(** A line with an infinite and a NaN field. *)
Definition line_special : str := lit "inf	nan
".

(** A file without a tab whose lines end in CR LF. *)
Definition crlf_file : str :=
  lit "1.5 2.5" ++ [cr; newline] ++ lit "3 4" ++ [cr; newline].

(* ================================================================= *)
(** ** Facts about the run-time model *)

Lemma bind_Ok {A B : Type} (c : result A) (k : A -> result B) (b : B) :
  bind c k = Ok b -> exists x, c = Ok x /\ k x = Ok b.
Proof.
  destruct c as [x|e]; simpl; intros H; [eauto | discriminate].
Qed.

Lemma bind_Raise {A B : Type} (c : result A) (k : A -> result B) (e : exn) :
  bind c k = Raise e -> c = Raise e \/ exists x, c = Ok x /\ k x = Raise e.
Proof.
  destruct c as [x|e']; simpl; intros H; [right; eauto | left; congruence].
Qed.

(** Inverts a hypothesis [x <- c ;; k = Ok v], naming the intermediate value. *)
Ltac bind_inv H x Hx :=
  apply bind_Ok in H; destruct H as (x & Hx & H).

Lemma Qltb_lt (x y : Q) : Qltb x y = true <-> x < y.
Proof.
  unfold Qltb. rewrite negb_true_iff.
  split; intros H.
  - destruct (Qlt_le_dec x y) as [L|L]; [exact L|].
    apply Qle_bool_iff in L. congruence.
  - destruct (Qle_bool y x) eqn:E; [|reflexivity].
    apply Qle_bool_iff in E. exfalso. apply (Qlt_not_le _ _ H E).
Qed.

Lemma Qltb_ge (x y : Q) : Qltb x y = false <-> y <= x.
Proof.
  unfold Qltb. rewrite negb_false_iff. apply Qle_bool_iff.
Qed.

Lemma Qeq_bool_false (x y : Q) : Qeq_bool x y = false <-> ~ x == y.
Proof.
  split; intros H.
  - intros E. apply Qeq_bool_iff in E. congruence.
  - destruct (Qeq_bool x y) eqn:E; [|reflexivity].
    apply Qeq_bool_iff in E. contradiction.
Qed.

Lemma getitem_Ok (l : list Q) (i : nat) (x : Q) :
  getitem l i = Ok x <-> nth_error l i = Some x.
Proof.
  unfold getitem. destruct (nth_error l i); split; intros H;
    try discriminate; congruence.
Qed.

Lemma getitem_in_range (l : list Q) (i : nat) :
  (i < length l)%nat -> exists x, getitem l i = Ok x.
Proof.
  intros H. unfold getitem.
  destruct (nth_error l i) as [x|] eqn:E; [eauto|].
  apply nth_error_None in E. lia.
Qed.

Lemma getitem_raises (l : list Q) (i : nat) (e : exn) :
  getitem l i = Raise e -> e = IndexError.
Proof.
  unfold getitem. destruct (nth_error l i); intros H; congruence.
Qed.

Lemma true_divide_Ok (x y q : Q) :
  true_divide x y = Ok q -> ~ y == 0 /\ q = x / y.
Proof.
  unfold true_divide. destruct (Qeq_bool y 0) eqn:E; intros H; [discriminate|].
  apply Qeq_bool_false in E. split; [exact E | congruence].
Qed.

Lemma true_divide_nonzero (x y : Q) :
  ~ y == 0 -> true_divide x y = Ok (x / y).
Proof.
  intros H. unfold true_divide.
  apply Qeq_bool_false in H. now rewrite H.
Qed.

Lemma np_max_raises (v : list Q) (e : exn) :
  np_max v = Raise e -> e = ValueError /\ v = [].
Proof.
  destruct v; simpl; intros H; [split; congruence | discriminate].
Qed.

Lemma Qmax_cases (x y : Q) :
  (Qmax x y = x /\ y <= x) \/ (Qmax x y = y /\ x <= y).
Proof.
  unfold Qmax, GenericMinMax.gmax.
  destruct (x ?= y) eqn:E.
  - apply Qeq_alt in E. left. split; [reflexivity | lra].
  - apply Qlt_alt in E. right. split; [reflexivity | lra].
  - apply Qgt_alt in E. left. split; [reflexivity | lra].
Qed.

Lemma fold_Qmax_spec (v : list Q) :
  forall x, In (fold_left Qmax v x) (x :: v) /\
            forall y, In y (x :: v) -> y <= fold_left Qmax v x.
Proof.
  induction v as [|z v IH]; simpl; intros x.
  - split; [now left|]. intros y [<-|[]]. lra.
  - destruct (IH (Qmax x z)) as [Hin Hub]. simpl in Hin, Hub.
    destruct (Qmax_cases x z) as [[E L]|[E L]]; rewrite E in Hin, Hub |- *.
    + split.
      * destruct Hin as [Hin|Hin]; [now left | now right; right].
      * intros y [<-|[<-|Hy]]; [apply Hub; now left | | apply Hub; now right].
        assert (x <= fold_left Qmax v x) by (apply Hub; now left). lra.
    + split.
      * destruct Hin as [Hin|Hin]; [now right; left | now right; right].
      * intros y [<-|[<-|Hy]]; [ | apply Hub; now left | apply Hub; now right].
        assert (z <= fold_left Qmax v z) by (apply Hub; now left). lra.
Qed.

(** [np.max] returns an element of the array that bounds all the others. *)
Lemma np_max_spec (v : list Q) (m : Q) :
  np_max v = Ok m -> In m v /\ forall y, In y v -> y <= m.
Proof.
  destruct v as [|x v]; simpl; intros H; [discriminate|].
  injection H as <-. apply fold_Qmax_spec.
Qed.

Lemma slice_window_nonempty (l : list Q) (i : nat) :
  (i < length l)%nat -> slice l (i - 50) (i + 1) <> [].
Proof.
  intros H E. apply (f_equal (@length Q)) in E.
  unfold slice in E. rewrite length_firstn, length_skipn in E. simpl in E. lia.
Qed.

(* ================================================================= *)
(** ** Crossing detection *)

(** What one iteration records when it records a crossing. *)
Lemma crossing_at_Some (a p : list Q) (i : nat) (c : crossing) :
  crossing_at a p i = Ok (Some c) ->
  exists ai ai1 pi pi1 m,
    nth_error a i = Some ai /\ nth_error a (i + 1) = Some ai1 /\
    nth_error p i = Some pi /\ nth_error p (i + 1) = Some pi1 /\
    ai * ai1 <= 0 /\ ~ ai == ai1 /\ ~ ai1 - ai == 0 /\
    np_max (np_abs (slice p (i - 50) (i + 1))) = Ok m /\
    c = Crossing i (pi + (pi1 - pi) * (- ai) / (ai1 - ai)) m.
Proof.
  unfold crossing_at. intros H.
  bind_inv H ai Hai. bind_inv H ai1 Hai1.
  destruct (Qle_bool (ai * ai1) 0 && negb (Qeq_bool ai ai1)) eqn:G;
    [|discriminate].
  apply andb_true_iff in G. destruct G as [G1 G2].
  apply Qle_bool_iff in G1. apply negb_true_iff in G2.
  apply Qeq_bool_false in G2.
  bind_inv H pi Hpi. bind_inv H pi1 Hpi1. bind_inv H q Hq.
  bind_inv H m Hm.
  apply true_divide_Ok in Hq. destruct Hq as [Hd ->].
  apply getitem_Ok in Hai, Hai1, Hpi, Hpi1.
  exists ai, ai1, pi, pi1, m. repeat split; auto.
  congruence.
Qed.

(** The interpolating division is never a division by zero. *)
Lemma crossing_at_no_div0 (a p : list Q) (i : nat) :
  crossing_at a p i <> Raise DivideByZero.
Proof.
  unfold crossing_at. intros H.
  apply bind_Raise in H. destruct H as [H|(ai & Hai & H)];
    [apply getitem_raises in H; discriminate|].
  apply bind_Raise in H. destruct H as [H|(ai1 & Hai1 & H)];
    [apply getitem_raises in H; discriminate|].
  destruct (Qle_bool (ai * ai1) 0 && negb (Qeq_bool ai ai1)) eqn:G;
    [|discriminate].
  apply andb_true_iff in G. destruct G as [_ G2].
  apply negb_true_iff in G2. apply Qeq_bool_false in G2.
  apply bind_Raise in H. destruct H as [H|(pi & Hpi & H)];
    [apply getitem_raises in H; discriminate|].
  apply bind_Raise in H. destruct H as [H|(pi1 & Hpi1 & H)];
    [apply getitem_raises in H; discriminate|].
  rewrite true_divide_nonzero in H.
  - simpl in H. apply bind_Raise in H. destruct H as [H|(m & Hm & H)];
      [apply np_max_raises in H; destruct H; discriminate | discriminate].
  - intros E. apply G2. lra.
Qed.

Lemma detect_loop_Forall (P : crossing -> Prop) (a p : list Q) :
  (forall i c, crossing_at a p i = Ok (Some c) -> P c) ->
  forall range acc cs,
    detect_loop a p range acc = Ok cs -> Forall P acc -> Forall P cs.
Proof.
  intros HP. induction range as [|i range IH]; simpl; intros acc cs H Hacc.
  - congruence.
  - bind_inv H oc Hoc. apply IH in H; [exact H|].
    destruct oc as [c|]; [|exact Hacc].
    apply Forall_app. split; [exact Hacc|].
    constructor; [eapply HP; eauto | constructor].
Qed.

Lemma detect_loop_no_div0 (a p : list Q) :
  forall range acc, detect_loop a p range acc <> Raise DivideByZero.
Proof.
  induction range as [|i range IH]; simpl; intros acc H; [discriminate|].
  apply bind_Raise in H. destruct H as [H|(oc & _ & H)].
  - exact (crossing_at_no_div0 _ _ _ H).
  - exact (IH _ H).
Qed.

(** On series of equal length every iteration returns. *)
Lemma crossing_at_returns (a p : list Q) (i : nat) :
  length a = length p -> (i + 1 < length a)%nat ->
  exists oc, crossing_at a p i = Ok oc.
Proof.
  intros Hlen Hi. unfold crossing_at.
  destruct (getitem_in_range a i) as (ai & ->); [lia|].
  destruct (getitem_in_range a (i + 1)) as (ai1 & ->); [lia|].
  simpl.
  destruct (Qle_bool (ai * ai1) 0 && negb (Qeq_bool ai ai1)) eqn:G;
    [|eauto].
  apply andb_true_iff in G. destruct G as [_ G2].
  apply negb_true_iff in G2. apply Qeq_bool_false in G2.
  destruct (getitem_in_range p i) as (pi & ->); [lia|].
  destruct (getitem_in_range p (i + 1)) as (pi1 & ->); [lia|].
  simpl. rewrite true_divide_nonzero by (intros E; apply G2; lra).
  simpl.
  destruct (np_max (np_abs (slice p (i - 50) (i + 1)))) as [m|e] eqn:M;
    [simpl; eauto|].
  apply np_max_raises in M. destruct M as [_ M].
  unfold np_abs in M. apply map_eq_nil in M.
  apply slice_window_nonempty in M; [contradiction | lia].
Qed.

Lemma detect_loop_returns (a p : list Q) :
  length a = length p ->
  forall range acc,
    (forall i, In i range -> (i + 1 < length a)%nat) ->
    exists cs, detect_loop a p range acc = Ok cs.
Proof.
  intros Hlen. induction range as [|i range IH]; simpl; intros acc Hr.
  - eauto.
  - destruct (crossing_at_returns a p i Hlen) as (oc & ->); [auto|].
    simpl. apply IH. auto.
Qed.

Lemma detect_crossings_returns (a p : list Q) :
  length a = length p -> exists cs, detect_crossings a p = Ok cs.
Proof.
  intros Hlen. apply detect_loop_returns; [exact Hlen|].
  intros i Hi. apply in_seq in Hi. lia.
Qed.



(** A product is non-positive exactly when the factors have opposite sign
    or one of them is zero. *)
Lemma product_nonpos_signs (x y : Q) :
  x * y <= 0 ->
  (x < 0 /\ 0 < y) \/ (y < 0 /\ 0 < x) \/ x == 0 \/ y == 0.
Proof.
  intros H.
  destruct (Q_dec x 0) as [[Hx|Hx]|Hx]; [| |auto];
    (destruct (Q_dec y 0) as [[Hy|Hy]|Hy]; [| |auto]); auto.
  - exfalso. assert (0 < (- x) * (- y)) by (apply Qmult_lt_0_compat; lra). lra.
  - exfalso. assert (0 < x * y) by (apply Qmult_lt_0_compat; lra). lra.
Qed.

Lemma classify_no_div0 (a p : list Q) : classify a p <> Raise DivideByZero.
Proof.
  unfold classify. intros H.
  apply bind_Raise in H. destruct H as [H|(cs & _ & H)]; [|discriminate].
  exact (detect_loop_no_div0 _ _ _ _ H).
Qed.

Lemma remanence_at_no_div0 (h b : list Q) (i : nat) :
  remanence_at h b i <> Raise DivideByZero.
Proof.
  unfold remanence_at. intros H.
  apply bind_Raise in H. destruct H as [H|(hi & Hhi & H)];
    [apply getitem_raises in H; discriminate|].
  apply bind_Raise in H. destruct H as [H|(hi1 & Hhi1 & H)];
    [apply getitem_raises in H; discriminate|].
  destruct ((Qle_bool hi 0 && Qle_bool 0 hi1) || (Qle_bool hi1 0 && Qle_bool 0 hi));
    [|discriminate].
  destruct (Qeq_bool hi1 hi) eqn:G; simpl in H; [discriminate|].
  apply Qeq_bool_false in G.
  apply bind_Raise in H. destruct H as [H|(bi & Hbi & H)];
    [apply getitem_raises in H; discriminate|].
  apply bind_Raise in H. destruct H as [H|(bi1 & Hbi1 & H)];
    [apply getitem_raises in H; discriminate|].
  rewrite true_divide_nonzero in H by (intros E; apply G; lra).
  discriminate.
Qed.

Lemma remanence_loop_no_div0 (h b : list Q) :
  forall range acc, remanence_loop h b range acc <> Raise DivideByZero.
Proof.
  induction range as [|i range IH]; simpl; intros acc H; [discriminate|].
  apply bind_Raise in H. destruct H as [H|(oz & _ & H)].
  - exact (remanence_at_no_div0 _ _ _ H).
  - exact (IH _ H).
Qed.

Lemma find_remanence_no_div0 (h b : list Q) :
  find_remanence h b <> Raise DivideByZero.
Proof.
  unfold find_remanence, zero_crossings_of. intros H.
  apply bind_Raise in H. destruct H as [H|(zs & _ & H)].
  - exact (remanence_loop_no_div0 _ _ _ _ H).
  - destruct zs as [|z0 [|z1 zs]]; try discriminate.
    apply bind_Raise in H. destruct H as [H|(k & _ & H)].
    + unfold np_argmin in H. destruct (np_abs h); discriminate.
    + apply bind_Raise in H. destruct H as [H|(v & _ & H)]; [|discriminate].
      apply getitem_raises in H. discriminate.
Qed.

(* ================================================================= *)
(** ** Sorting by salience and the selection loop *)

Lemma insert_desc_perm (c : crossing) (l : list crossing) :
  Permutation (insert_desc c l) (c :: l).
Proof.
  induction l as [|d l IH]; simpl; [reflexivity|].
  destruct (Qltb (c_salience c) (c_salience d)); [|reflexivity].
  rewrite IH. apply perm_swap.
Qed.

Lemma sorted_desc_perm (l : list crossing) : Permutation (sorted_desc l) l.
Proof.
  induction l as [|c l IH]; simpl; [reflexivity|].
  rewrite insert_desc_perm. now constructor.
Qed.



Lemma sorted_desc_nonempty (l : list crossing) :
  l <> [] -> exists c0 rest, sorted_desc l = c0 :: rest.
Proof.
  intros H. destruct (sorted_desc l) as [|c0 rest] eqn:E; [|eauto].
  exfalso. apply H. apply Permutation_nil.
  rewrite <- E. apply sorted_desc_perm.
Qed.


(** The loop once the first branch value [m0] is known: it walks to the
    first crossing of opposite sign, appends it and breaks. *)
Lemma select_main_second (m0 : Q) (rest : list crossing) :
  (exists pre c1 post,
      rest = pre ++ c1 :: post /\
      Forall (fun c => ~ c_value c * m0 < 0) pre /\
      c_value c1 * m0 < 0 /\
      select_main rest [m0] = ([m0; c_value c1], post)) \/
  (Forall (fun c => ~ c_value c * m0 < 0) rest /\
   select_main rest [m0] = ([m0], [])).
Proof.
  induction rest as [|c rest IH]; simpl.
  - right. split; [constructor | reflexivity].
  - destruct (Qltb (c_value c * m0) 0) eqn:E.
    + left. exists [], c, rest. apply Qltb_lt in E.
      repeat split; auto.
    + apply Qltb_ge in E.
      assert (N : ~ c_value c * m0 < 0) by (intros L; lra).
      destruct IH as [(pre & c1 & post & -> & F & L & S)|[F S]].
      * left. exists (c :: pre), c1, post. repeat split; auto.
      * right. split; [constructor; assumption | exact S].
Qed.

Lemma select_main_first (c0 : crossing) (rest : list crossing) :
  select_main (c0 :: rest) [] = select_main rest [c_value c0].
Proof. reflexivity. Qed.

(* ================================================================= *)
(** ** Degenerate inputs *)

Lemma detect_loop_none (a p : list Q) :
  forall range acc,
    (forall i, In i range -> crossing_at a p i = Ok None) ->
    detect_loop a p range acc = Ok acc.
Proof.
  induction range as [|i range IH]; simpl; intros acc H; [reflexivity|].
  rewrite (H i) by now left. simpl. apply IH. auto.
Qed.

(** A coordinate without sign change yields no crossing record, whatever
    the paired series is. *)
Lemma detect_crossings_no_sign_change (a p : list Q) :
  (forall i x y, nth_error a i = Some x -> nth_error a (i + 1) = Some y ->
                 0 < x * y) ->
  detect_crossings a p = Ok [].
Proof.
  intros H. apply detect_loop_none. intros i Hi. apply in_seq in Hi.
  unfold crossing_at.
  destruct (getitem_in_range a i) as (ai & Hai); [lia|].
  destruct (getitem_in_range a (i + 1)) as (ai1 & Hai1); [lia|].
  rewrite Hai, Hai1. simpl.
  apply getitem_Ok in Hai, Hai1.
  specialize (H i ai ai1 Hai Hai1).
  destruct (Qle_bool (ai * ai1) 0) eqn:E; [|reflexivity].
  apply Qle_bool_iff in E. lra.
Qed.

(** Without two crossings of opposite sign the branches are [(0, 0)]. *)
Lemma assign_branches_degenerate (cs : list crossing) :
  (forall c1 c2, In c1 cs -> In c2 cs -> ~ c_value c1 * c_value c2 < 0) ->
  assign_branches cs = (0, 0).
Proof.
  intros H. destruct cs as [|c cs'] eqn:Ecs; [reflexivity|].
  rewrite <- Ecs in *. unfold assign_branches.
  assert (Hne : cs <> []) by (rewrite Ecs; discriminate).
  destruct (sorted_desc_nonempty cs Hne) as (c0 & rest & E).
  rewrite Ecs at 1. rewrite E, select_main_first.
  pose proof (sorted_desc_perm cs) as P. rewrite E in P.
  destruct (select_main_second (c_value c0) rest)
    as [(pre & c1 & post & Hr & _ & L & _)|[_ S]].
  - exfalso. apply (H c1 c0); [| |exact L].
    + apply (Permutation_in _ P). right. rewrite Hr.
      apply in_or_app. right. now left.
    + apply (Permutation_in _ P). now left.
  - rewrite S. reflexivity.
Qed.

(** Fewer than two selected branch values give [(0, 0)] as well. *)
Lemma assign_branches_short (cs : list crossing) :
  (length (fst (select_main (sorted_desc cs) [])) < 2)%nat ->
  assign_branches cs = (0, 0).
Proof.
  intros H. unfold assign_branches.
  destruct cs as [|c cs']; [reflexivity|].
  destruct (fst (select_main (sorted_desc (c :: cs')) [])) as [|m0 [|m1 t]];
    try reflexivity.
  simpl in H. lia.
Qed.

Lemma argmin_from_bound (v : list Q) :
  forall i best besti,
    (besti < i)%nat -> (argmin_from v i best besti < i + length v)%nat.
Proof.
  induction v as [|x v IH]; simpl; intros i best besti H; [lia|].
  destruct (Qltb x best).
  - specialize (IH (S i) x i). lia.
  - specialize (IH (S i) best besti). lia.
Qed.

Lemma np_argmin_in_range (v : list Q) :
  v <> [] -> exists k, np_argmin v = Ok k /\ (k < length v)%nat.
Proof.
  destruct v as [|x v]; [congruence|]. intros _. simpl.
  eexists. split; [reflexivity|].
  pose proof (argmin_from_bound v 1 x 0). lia.
Qed.


(* ================================================================= *)
(** ** [find_remanence] *)





(* ================================================================= *)
(** ** Shoelace area *)

Lemma chain_cons2 (u v : Q * Q) (l : list (Q * Q)) :
  chain (u :: v :: l) = cross u v + chain (v :: l).
Proof. reflexivity. Qed.




Lemma closed_sum_cons (u : Q * Q) (t : list (Q * Q)) :
  closed_sum (u :: t) = chain (u :: t ++ [u]).
Proof. reflexivity. Qed.



Lemma getitem_app_here (pre suf : list Q) (x : Q) :
  getitem (pre ++ x :: suf) (length pre) = Ok x.
Proof.
  apply getitem_Ok. rewrite nth_error_app2 by lia.
  rewrite Nat.sub_diag. reflexivity.
Qed.

(** The index loop, started in the middle of the series, adds the chain of
    the remaining points closed on the first vertex [(x0, y0)]. *)
Lemma shoelace_loop_chain (h b : list Q) (x0 y0 : Q) :
  nth_error h 0 = Some x0 -> nth_error b 0 = Some y0 ->
  forall hs bs hp bp acc,
    h = hp ++ hs -> b = bp ++ bs ->
    length hp = length bp -> length hs = length bs ->
    exists s,
      shoelace_loop h b (length h) (seq (length hp) (length hs)) acc = Ok s /\
      s == acc + chain (combine hs bs ++ [(x0, y0)]).
Proof.
  intros H0 B0.
  induction hs as [|x hs IH]; intros bs hp bp acc Eh Eb Lp Ls.
  - exists acc. split; [reflexivity|].
    destruct bs; simpl; ring.
  - destruct bs as [|y bs]; [discriminate|].
    simpl in Ls. injection Ls as Ls.
    simpl seq. simpl shoelace_loop.
    assert (Hn : length h = (length hp + S (length hs))%nat)
      by (rewrite Eh, length_app; reflexivity).
    assert (Gx : getitem h (length hp) = Ok x)
      by (rewrite Eh; apply getitem_app_here).
    assert (Gy : getitem b (length hp) = Ok y)
      by (rewrite Eb, Lp; apply getitem_app_here).
    assert (Eh' : h = (hp ++ [x]) ++ hs) by (rewrite <- app_assoc; exact Eh).
    assert (Eb' : b = (bp ++ [y]) ++ bs) by (rewrite <- app_assoc; exact Eb).
    assert (Lp' : length (hp ++ [x]) = length (bp ++ [y]))
      by (rewrite !length_app; simpl; lia).
    assert (Lk : length (hp ++ [x]) = S (length hp))
      by (rewrite length_app; simpl; lia).
    destruct hs as [|x' hs'].
    + (* the last vertex: the next index wraps to 0 *)
      destruct bs as [|? ?]; [|discriminate].
      assert (J : ((length hp + 1) mod length h = 0)%nat).
      { rewrite Hn. simpl length. apply Nat.Div0.mod_same. }
      rewrite J, Gx, Gy.
      apply getitem_Ok in H0, B0. rewrite H0, B0. simpl.
      eexists. split; [reflexivity|]. unfold cross. simpl. ring.
    + destruct bs as [|y' bs']; [discriminate|].
      assert (J : ((length hp + 1) mod length h = length hp + 1)%nat)
        by (apply Nat.mod_small; rewrite Hn; simpl; lia).
      assert (Gx' : getitem h (length hp + 1) = Ok x').
      { rewrite Eh'. replace (length hp + 1)%nat with (length (hp ++ [x])) by lia.
        apply getitem_app_here. }
      assert (Gy' : getitem b (length hp + 1) = Ok y').
      { rewrite Eb'. replace (length hp + 1)%nat with (length (bp ++ [y]))
          by (rewrite <- Lp'; lia).
        apply getitem_app_here. }
      rewrite J, Gx, Gy, Gx', Gy'. simpl bind.
      destruct (IH (y' :: bs') (hp ++ [x]) (bp ++ [y])
                   (acc + x * y' - x' * y) Eh' Eb' Lp' Ls)
        as (s & Hs & Es).
      rewrite Lk in Hs.
      exists s. split.
      * exact Hs.
      * rewrite Es. simpl combine.
        rewrite <- !app_comm_cons, chain_cons2. unfold cross. simpl. ring.
Qed.

Lemma shoelace_sum_closed (h b : list Q) :
  length h = length b ->
  exists s,
    shoelace_loop h b (length h) (seq 0 (length h)) 0 = Ok s /\
    s == closed_sum (combine h b).
Proof.
  intros L. destruct h as [|x0 h'].
  - exists 0. split; reflexivity.
  - destruct b as [|y0 b']; [discriminate|].
    destruct (shoelace_loop_chain (x0 :: h') (y0 :: b') x0 y0 eq_refl eq_refl
                (x0 :: h') (y0 :: b') [] [] 0 eq_refl eq_refl eq_refl L)
      as (s & Hs & Es).
    exists s. split; [exact Hs|].
    rewrite Es. simpl combine. rewrite closed_sum_cons, app_comm_cons. ring.
Qed.

Lemma closed_sum_small (l : list (Q * Q)) :
  (length l < 3)%nat -> closed_sum l == 0.
Proof.
  destruct l as [|u [|v [|w l]]]; simpl; intros H; try lia;
    unfold cross; ring.
Qed.

(** Both area routines compute half the absolute closed sum. *)
Lemma calculate_area_shoelace_closed (h b : list Q) :
  length h = length b ->
  exists r, calculate_area_shoelace h b = Ok r /\
            r == Qabs (closed_sum (combine h b)) / 2.
Proof.
  intros L. unfold calculate_area_shoelace.
  destruct (shoelace_sum_closed h b L) as (s & -> & Es).
  simpl. eexists. split; [reflexivity|]. now rewrite Es.
Qed.

Lemma calculate_hysteresis_area_closed (h b : list Q) :
  length h = length b ->
  exists r, calculate_hysteresis_area h b = Ok r /\
            r == Qabs (closed_sum (combine h b)) / 2.
Proof.
  intros L. unfold calculate_hysteresis_area.
  destruct ((length h <? 3)%nat || (length b <? 3)%nat) eqn:G.
  - exists 0. split; [reflexivity|].
    rewrite closed_sum_small; [reflexivity|].
    rewrite length_combine, <- L, Nat.min_id.
    rewrite <- L, orb_diag in G. now apply Nat.ltb_lt.
  - destruct (shoelace_sum_closed h b L) as (s & -> & Es).
    simpl. eexists. split; [reflexivity|]. now rewrite Es.
Qed.



Lemma same_value_of_closed (r1 r2 : result Q) (s1 s2 : Q) :
  (exists r, r1 = Ok r /\ r == Qabs s1 / 2) ->
  (exists r, r2 = Ok r /\ r == Qabs s2 / 2) ->
  Qabs s1 == Qabs s2 ->
  same_value r1 r2.
Proof.
  intros (x & -> & Ex) (y & -> & Ey) E.
  exists x, y. repeat split. rewrite Ex, Ey, E. reflexivity.
Qed.


(** In exact arithmetic the enclosed area of fewer than three vertices is
    0: the guarded routine returns 0 at once, and in the routine without a
    guard the signed sum cancels. *)
Lemma small_polygon_area_exact (h b : list Q) :
  length h = length b -> (length h < 3)%nat ->
  calculate_hysteresis_area h b = Ok 0 /\
  exists r, calculate_area_shoelace h b = Ok r /\ r == 0.
Proof.
  intros L N. split.
  - unfold calculate_hysteresis_area.
    apply Nat.ltb_lt in N. now rewrite N.
  - destruct (calculate_area_shoelace_closed h b L) as (r & Hr & Er).
    exists r. split; [exact Hr|].
    rewrite Er, closed_sum_small; [reflexivity|].
    rewrite length_combine, <- L, Nat.min_id. exact N.
Qed.

(* ================================================================= *)
(** ** Negating a dataset *)

Lemma Qabs_opp_eq (x : Q) : Qabs (- x) = Qabs x.
Proof.
  destruct x as [n d]. unfold Qabs, Qopp. simpl.
  now rewrite Z.abs_opp.
Qed.

Lemma np_abs_neg (l : list Q) : np_abs (neg l) = np_abs l.
Proof.
  unfold np_abs, neg. rewrite map_map.
  apply map_ext. intros x. apply Qabs_opp_eq.
Qed.

Lemma slice_neg (l : list Q) (lo hi : nat) :
  slice (neg l) lo hi = neg (slice l lo hi).
Proof.
  unfold slice, neg. now rewrite skipn_map, firstn_map.
Qed.

Lemma getitem_neg (l : list Q) (i : nat) :
  getitem (neg l) i =
  match getitem l i with Ok x => Ok (- x) | Raise e => Raise e end.
Proof.
  unfold getitem, neg. rewrite nth_error_map.
  destruct (nth_error l i); reflexivity.
Qed.

Lemma Qltb_comp (x x' y y' : Q) :
  x == x' -> y == y' -> Qltb x y = Qltb x' y'.
Proof.
  intros Ex Ey. unfold Qltb. now rewrite Ex, Ey.
Qed.

Lemma crossing_guard_neg (x y : Q) :
  Qle_bool (- x * - y) 0 && negb (Qeq_bool (- x) (- y)) =
  Qle_bool (x * y) 0 && negb (Qeq_bool x y).
Proof.
  assert (E1 : - x * - y == x * y) by ring.
  rewrite E1. f_equal. f_equal.
  destruct (Qeq_bool x y) eqn:E.
  - apply Qeq_bool_iff in E. apply Qeq_bool_iff. now rewrite E.
  - apply Qeq_bool_false in E. apply Qeq_bool_false.
    intros N. apply E. lra.
Qed.

Lemma divisor_neg (x y : Q) : Qeq_bool (- y - - x) 0 = Qeq_bool (y - x) 0.
Proof.
  destruct (Qeq_bool (y - x) 0) eqn:E.
  - apply Qeq_bool_iff in E. apply Qeq_bool_iff. lra.
  - apply Qeq_bool_false in E. apply Qeq_bool_false.
    intros N. apply E. lra.
Qed.

Lemma crossing_at_neg (a p : list Q) (i : nat) :
  res_rel (fun oc oc' =>
             match oc, oc' with
             | Some c, Some c' => mirrored c c'
             | None, None => True
             | _, _ => False
             end)
          (crossing_at a p i) (crossing_at (neg a) (neg p) i).
Proof.
  unfold crossing_at. rewrite !getitem_neg.
  destruct (getitem a i) as [ai|e]; simpl; [|reflexivity].
  destruct (getitem a (i + 1)) as [ai1|e]; simpl; [|reflexivity].
  rewrite crossing_guard_neg.
  destruct (Qle_bool (ai * ai1) 0 && negb (Qeq_bool ai ai1)); simpl; [|exact I].
  rewrite ?getitem_neg.
  destruct (getitem p i) as [pi|e]; simpl; [|reflexivity].
  destruct (getitem p (i + 1)) as [pi1|e]; simpl; [|reflexivity].
  unfold true_divide. rewrite divisor_neg.
  destruct (Qeq_bool (ai1 - ai) 0) eqn:D; simpl; [reflexivity|].
  apply Qeq_bool_false in D.
  rewrite slice_neg, np_abs_neg.
  destruct (np_max (np_abs (slice p (i - 50) (i + 1)))) as [m|e]; simpl;
    [|reflexivity].
  repeat split; simpl.
  field. split; [exact D | intros N; apply D; lra].
Qed.

Lemma detect_loop_neg (a p : list Q) :
  forall range acc acc',
    Forall2 mirrored acc acc' ->
    res_rel (Forall2 mirrored)
            (detect_loop a p range acc)
            (detect_loop (neg a) (neg p) range acc').
Proof.
  induction range as [|i range IH]; simpl; intros acc acc' F; [exact F|].
  pose proof (crossing_at_neg a p i) as C.
  destruct (crossing_at a p i) as [oc|e],
           (crossing_at (neg a) (neg p) i) as [oc'|e']; simpl in C |- *;
    try contradiction; [|exact C].
  apply IH.
  destruct oc as [c|], oc' as [c'|]; try contradiction; [|exact F].
  apply Forall2_app; [exact F | constructor; [exact C | constructor]].
Qed.

Lemma detect_crossings_neg (a p : list Q) :
  res_rel (Forall2 mirrored)
          (detect_crossings a p) (detect_crossings (neg a) (neg p)).
Proof.
  unfold detect_crossings.
  replace (length (neg a)) with (length a)
    by (unfold neg; now rewrite length_map).
  apply detect_loop_neg. constructor.
Qed.

Lemma insert_desc_neg (c c' : crossing) (l l' : list crossing) :
  mirrored c c' -> Forall2 mirrored l l' ->
  Forall2 mirrored (insert_desc c l) (insert_desc c' l').
Proof.
  intros M F. induction F as [|d d' l l' Md F IH]; simpl.
  - constructor; [exact M | constructor].
  - destruct M as (Mi & Mv & Ms), Md as (Di & Dv & Ds).
    rewrite Ms, Ds.
    destruct (Qltb (c_salience c) (c_salience d)).
    + constructor; [repeat split; assumption | exact IH].
    + constructor; [repeat split; assumption|].
      constructor; [repeat split; assumption | exact F].
Qed.

Lemma sorted_desc_neg (l l' : list crossing) :
  Forall2 mirrored l l' -> Forall2 mirrored (sorted_desc l) (sorted_desc l').
Proof.
  induction 1 as [|c c' l l' M F IH]; simpl; [constructor|].
  now apply insert_desc_neg.
Qed.

Lemma select_main_neg (cs cs' : list crossing) :
  Forall2 mirrored cs cs' ->
  forall main main',
    Forall2 opposite main main' ->
    Forall2 opposite (fst (select_main cs main)) (fst (select_main cs' main')) /\
    Forall2 mirrored (snd (select_main cs main)) (snd (select_main cs' main')).
Proof.
  induction 1 as [|c c' cs cs' M F IH]; intros main main' Fm; simpl.
  - split; [exact Fm | constructor].
  - pose proof (Forall2_length Fm) as L.
    destruct M as (Mi & Mv & Ms).
    destruct Fm as [|m0 m0' t t' O Ft].
    + apply IH. constructor; [exact Mv | constructor].
    + rewrite <- L.
      destruct (length (m0 :: t) =? 1)%nat; [|apply IH; now constructor].
      assert (E : c_value c' * m0' == c_value c * m0)
        by (unfold opposite in O; rewrite Mv, O; ring).
      rewrite (Qltb_comp _ _ 0 0 E (Qeq_refl 0)).
      destruct (Qltb (c_value c * m0) 0); simpl.
      * split; [|exact F].
        constructor; [exact O|].
        apply Forall2_app; [exact Ft | constructor; [exact Mv | constructor]].
      * apply IH. now constructor.
Qed.

(** The shapes [main_crossings] can have after the selection loop. *)
Lemma main_crossings_shape (cs : list crossing) :
  let main := fst (select_main (sorted_desc cs) []) in
  (cs = [] /\ main = []) \/
  (exists m0, main = [m0]) \/
  (exists m0 m1, main = [m0; m1] /\ m1 * m0 < 0).
Proof.
  intros main. unfold main.
  destruct cs as [|c cs'] eqn:Ecs; [left; split; reflexivity|].
  rewrite <- Ecs. right.
  assert (Hne : cs <> []) by (rewrite Ecs; discriminate).
  destruct (sorted_desc_nonempty cs Hne) as (c0 & rest & E).
  rewrite E, select_main_first.
  destruct (select_main_second (c_value c0) rest)
    as [(pre & c1 & post & _ & _ & L & S)|[_ S]]; rewrite S; simpl.
  - right. exists (c_value c0), (c_value c1). split; [reflexivity | exact L].
  - left. exists (c_value c0). reflexivity.
Qed.

Lemma negative_product_left (x y : Q) : y * x < 0 -> 0 < x -> y < 0.
Proof.
  intros P X.
  destruct (Qlt_le_dec y 0) as [L|L]; [exact L|].
  exfalso. assert (0 <= y * x) by (apply Qmult_le_0_compat; lra). lra.
Qed.

Lemma negative_product_right (x y : Q) : y * x < 0 -> x <= 0 -> 0 < y /\ x < 0.
Proof.
  intros P X.
  destruct (Qlt_le_dec 0 y) as [L|L].
  - split; [exact L|].
    destruct (Qeq_dec x 0) as [E|E]; [rewrite E in P; lra|].
    destruct (Q_dec x 0) as [[?|?]|?]; [assumption | lra | contradiction].
  - exfalso.
    assert (0 <= (- y) * (- x)) by (apply Qmult_le_0_compat; lra). lra.
Qed.

(** The outputs are labelled by sign: [plus] is never negative and [minus]
    never positive. *)
Lemma assign_branches_signs (cs : list crossing) :
  0 <= fst (assign_branches cs) /\ snd (assign_branches cs) <= 0.
Proof.
  unfold assign_branches.
  destruct (main_crossings_shape cs) as [[-> _]|[(m0 & E)|(m0 & m1 & E & P)]].
  - simpl. lra.
  - destruct cs; [simpl; lra|]. rewrite E. simpl. lra.
  - destruct cs; [simpl; lra|]. rewrite E.
    destruct (Qltb 0 m0) eqn:G; simpl.
    + apply Qltb_lt in G.
      pose proof (negative_product_left m0 m1 P G). lra.
    + apply Qltb_ge in G.
      destruct (negative_product_right m0 m1 P G). lra.
Qed.

Lemma assign_branches_cons (c : crossing) (cs : list crossing) :
  assign_branches (c :: cs) =
  match fst (select_main (sorted_desc (c :: cs)) []) with
  | m0 :: m1 :: _ => if Qltb 0 m0 then (m0, m1) else (m1, m0)
  | _ => (0, 0)
  end.
Proof. reflexivity. Qed.

(** Negation exchanges the labels: the new [plus] is the old [minus]
    negated, and the new [minus] the old [plus] negated. *)
Lemma assign_branches_neg (cs cs' : list crossing) :
  Forall2 mirrored cs cs' ->
  fst (assign_branches cs') == - snd (assign_branches cs) /\
  snd (assign_branches cs') == - fst (assign_branches cs).
Proof.
  intros F.
  pose proof (select_main_neg _ _ (sorted_desc_neg _ _ F) [] []
                (Forall2_nil _)) as [Fm _].
  destruct F as [|c c' cs cs' M F]; [simpl; split; reflexivity|].
  rewrite !assign_branches_cons.
  destruct (main_crossings_shape (c :: cs))
    as [[N _]|[(m0 & E)|(m0 & m1 & E & P)]]; [discriminate| |];
    cbv zeta in E; rewrite E in Fm |- *;
    remember (fst (select_main (sorted_desc (c' :: cs')) [])) as main' eqn:Em;
    clear Em.
  - inversion Fm as [|? m0' ? t' O Ft]; subst.
    inversion Ft; subst. simpl. split; reflexivity.
  - inversion Fm as [|? m0' ? t' O Ft]; subst.
    inversion Ft as [|? m1' ? t'' O1 Ft1]; subst.
    inversion Ft1; subst.
    unfold opposite in O, O1.
    destruct (Qltb 0 m0) eqn:G.
    + apply Qltb_lt in G.
      assert (G' : Qltb 0 m0' = false) by (apply Qltb_ge; lra).
      rewrite G'. simpl. split; assumption.
    + apply Qltb_ge in G.
      destruct (negative_product_right m0 m1 P G) as [_ N].
      assert (G' : Qltb 0 m0' = true) by (apply Qltb_lt; lra).
      rewrite G'. simpl. split; assumption.
Qed.

Lemma classify_neg (a p : list Q) :
  res_rel (fun r r' => fst r' == - snd r /\ snd r' == - fst r)
          (classify a p) (classify (neg a) (neg p)).
Proof.
  unfold classify.
  pose proof (detect_crossings_neg a p) as D.
  destruct (detect_crossings a p) as [cs|e],
           (detect_crossings (neg a) (neg p)) as [cs'|e']; simpl in D |- *;
    try contradiction; [|exact D].
  now apply assign_branches_neg.
Qed.

(** The midpoint (plus + |minus|) / 2 of a sign-labelled pair is unchanged
    when the labels are exchanged and the values negated. *)
Lemma midpoint_exchange (plus minus plus' minus' : Q) :
  0 <= plus -> minus <= 0 ->
  plus' == - minus -> minus' == - plus ->
  midpoint plus' minus' == midpoint plus minus.
Proof.
  intros Hp Hm E1 E2. unfold midpoint.
  rewrite E1, E2, Qabs_opp.
  rewrite (Qabs_pos plus Hp), (Qabs_neg minus Hm).
  field.
Qed.

Lemma Qle_bool_opp_l (x : Q) : Qle_bool (- x) 0 = Qle_bool 0 x.
Proof.
  destruct (Qle_bool 0 x) eqn:E.
  - apply Qle_bool_iff in E. apply Qle_bool_iff. lra.
  - destruct (Qle_bool (- x) 0) eqn:E'; [|reflexivity].
    apply Qle_bool_iff in E'.
    assert (T : Qle_bool 0 x = true) by (apply Qle_bool_iff; lra).
    congruence.
Qed.

Lemma Qle_bool_opp_r (x : Q) : Qle_bool 0 (- x) = Qle_bool x 0.
Proof.
  destruct (Qle_bool x 0) eqn:E.
  - apply Qle_bool_iff in E. apply Qle_bool_iff. lra.
  - destruct (Qle_bool 0 (- x)) eqn:E'; [|reflexivity].
    apply Qle_bool_iff in E'.
    assert (T : Qle_bool x 0 = true) by (apply Qle_bool_iff; lra).
    congruence.
Qed.

Lemma Qeq_bool_opp (x y : Q) : Qeq_bool (- x) (- y) = Qeq_bool x y.
Proof.
  destruct (Qeq_bool x y) eqn:E.
  - apply Qeq_bool_iff in E. apply Qeq_bool_iff. now rewrite E.
  - apply Qeq_bool_false in E. apply Qeq_bool_false.
    intros N. apply E. lra.
Qed.

Lemma remanence_guard_neg (x y : Q) :
  (Qle_bool (- x) 0 && Qle_bool 0 (- y)) || (Qle_bool (- y) 0 && Qle_bool 0 (- x))
  = (Qle_bool x 0 && Qle_bool 0 y) || (Qle_bool y 0 && Qle_bool 0 x).
Proof.
  rewrite !Qle_bool_opp_l, !Qle_bool_opp_r.
  destruct (Qle_bool 0 x), (Qle_bool y 0), (Qle_bool 0 y), (Qle_bool x 0);
    reflexivity.
Qed.

Lemma remanence_at_neg (h b : list Q) (i : nat) :
  res_rel (fun oz oz' =>
             match oz, oz' with
             | Some z, Some z' => opposite z z'
             | None, None => True
             | _, _ => False
             end)
          (remanence_at h b i) (remanence_at (neg h) (neg b) i).
Proof.
  unfold remanence_at. rewrite !getitem_neg.
  destruct (getitem h i) as [hi|e]; simpl; [|reflexivity].
  destruct (getitem h (i + 1)) as [hi1|e]; simpl; [|reflexivity].
  rewrite remanence_guard_neg, Qeq_bool_opp.
  destruct ((Qle_bool hi 0 && Qle_bool 0 hi1) || (Qle_bool hi1 0 && Qle_bool 0 hi));
    [|exact I].
  destruct (Qeq_bool hi1 hi) eqn:N; simpl; [exact I|].
  apply Qeq_bool_false in N.
  rewrite ?getitem_neg.
  destruct (getitem b i) as [bi|e]; simpl; [|reflexivity].
  destruct (getitem b (i + 1)) as [bi1|e]; simpl; [|reflexivity].
  unfold true_divide. rewrite divisor_neg.
  assert (D : ~ hi1 - hi == 0) by (intros E; apply N; lra).
  apply Qeq_bool_false in D. rewrite D. simpl.
  apply Qeq_bool_false in D.
  unfold opposite. field. split; [exact D | intros E; apply D; lra].
Qed.

Lemma remanence_loop_neg (h b : list Q) :
  forall range acc acc',
    Forall2 opposite acc acc' ->
    res_rel (Forall2 opposite)
            (remanence_loop h b range acc)
            (remanence_loop (neg h) (neg b) range acc').
Proof.
  induction range as [|i range IH]; simpl; intros acc acc' F; [exact F|].
  pose proof (remanence_at_neg h b i) as C.
  destruct (remanence_at h b i) as [oz|e],
           (remanence_at (neg h) (neg b) i) as [oz'|e']; simpl in C |- *;
    try contradiction; [|exact C].
  apply IH.
  destruct oz as [z|], oz' as [z'|]; try contradiction; [|exact F].
  apply Forall2_app; [exact F | constructor; [exact C | constructor]].
Qed.

(** [find_remanence] on the negated dataset ends like it does on the
    original, with both outputs negated. *)
Lemma find_remanence_neg (h b : list Q) :
  res_rel (fun r r' => fst r' == - fst r /\ snd r' == - snd r)
          (find_remanence h b) (find_remanence (neg h) (neg b)).
Proof.
  unfold find_remanence, zero_crossings_of.
  replace (length (neg h)) with (length h)
    by (unfold neg; now rewrite length_map).
  pose proof (remanence_loop_neg h b (seq 0 (length h - 1)) [] []
                (Forall2_nil _)) as R.
  destruct (remanence_loop h b (seq 0 (length h - 1)) []) as [zs|e],
           (remanence_loop (neg h) (neg b) (seq 0 (length h - 1)) [])
             as [zs'|e']; simpl in R |- *; try contradiction; [|exact R].
  destruct R as [|z0 z0' t t' O0 R].
  - rewrite np_abs_neg.
    destruct (np_argmin (np_abs h)) as [k|e]; simpl; [|reflexivity].
    rewrite getitem_neg.
    destruct (getitem b k) as [v|e]; simpl; [|reflexivity].
    split; reflexivity.
  - destruct R as [|z1 z1' t t' O1 R]; simpl; split; assumption.
Qed.

Lemma combine_neg (h b : list Q) :
  combine (neg h) (neg b) = map neg_point (combine h b).
Proof.
  revert b. induction h as [|x h IH]; intros [|y b]; simpl; try reflexivity.
  now rewrite <- IH.
Qed.

Lemma chain_neg (l : list (Q * Q)) : chain (map neg_point l) == chain l.
Proof.
  induction l as [|u l IH]; [reflexivity|].
  destruct l as [|v l]; [reflexivity|].
  change (map neg_point (u :: v :: l))
    with (neg_point u :: neg_point v :: map neg_point l).
  rewrite !chain_cons2.
  change (neg_point v :: map neg_point l) with (map neg_point (v :: l)).
  rewrite IH. unfold cross, neg_point. simpl. ring.
Qed.

Lemma closed_sum_neg (l : list (Q * Q)) :
  closed_sum (map neg_point l) == closed_sum l.
Proof.
  destruct l as [|u t]; [reflexivity|].
  change (map neg_point (u :: t)) with (neg_point u :: map neg_point t).
  rewrite !closed_sum_cons.
  change (neg_point u :: map neg_point t ++ [neg_point u])
    with (neg_point u :: (map neg_point t ++ map neg_point [u])).
  rewrite <- map_app.
  change (neg_point u :: map neg_point (t ++ [u]))
    with (map neg_point (u :: t ++ [u])).
  apply chain_neg.
Qed.

Lemma classify_neg_returns (a p : list Q) :
  length a = length p ->
  exists plus minus plus' minus',
    classify a p = Ok (plus, minus) /\
    classify (neg a) (neg p) = Ok (plus', minus') /\
    plus' == - minus /\ minus' == - plus /\
    midpoint plus' minus' == midpoint plus minus.
Proof.
  intros L.
  pose proof (classify_neg a p) as R.
  destruct (detect_crossings_returns a p L) as (cs & Hcs).
  assert (Hc : classify a p = Ok (assign_branches cs))
    by (unfold classify; now rewrite Hcs).
  rewrite Hc in R.
  destruct (classify (neg a) (neg p)) as [[plus' minus']|e];
    simpl in R; [|contradiction].
  destruct R as [R1 R2].
  destruct (assign_branches_signs cs) as [S1 S2].
  destruct (assign_branches cs) as [plus minus]. simpl in *.
  exists plus, minus, plus', minus'.
  repeat split; auto using midpoint_exchange.
Qed.

(** C3, as the code has it.  On series of equal length, negating every
    value of both series makes the two main-loop classifiers return the
    negated branch values with the labels exchanged (the new plus is the
    old minus negated, the new minus the old plus negated) and leaves their
    midpoint (plus + |minus|) / 2 unchanged; it negates both outputs of
    [find_remanence]; and it leaves the Shoelace area of both area routines
    unchanged. *)
Theorem negation_symmetry (h b : list Q) :
  length h = length b ->
  (exists plus minus plus' minus',
      find_main_coercivity_crossings h b = Ok (plus, minus) /\
      find_main_coercivity_crossings (neg h) (neg b) = Ok (plus', minus') /\
      plus' == - minus /\ minus' == - plus /\
      midpoint plus' minus' == midpoint plus minus) /\
  (exists plus minus plus' minus',
      find_main_hysteresis_crossings h b = Ok (plus, minus) /\
      find_main_hysteresis_crossings (neg h) (neg b) = Ok (plus', minus') /\
      plus' == - minus /\ minus' == - plus /\
      midpoint plus' minus' == midpoint plus minus) /\
  res_rel (fun r r' => fst r' == - fst r /\ snd r' == - snd r)
          (find_remanence h b) (find_remanence (neg h) (neg b)) /\
  same_value (calculate_hysteresis_area h b)
             (calculate_hysteresis_area (neg h) (neg b)) /\
  same_value (calculate_area_shoelace h b)
             (calculate_area_shoelace (neg h) (neg b)).
Proof.
  intros L.
  assert (Ln : length (neg h) = length (neg b))
    by (unfold neg; rewrite !length_map; exact L).
  assert (E : Qabs (closed_sum (combine h b))
              == Qabs (closed_sum (combine (neg h) (neg b)))).
  { rewrite combine_neg, closed_sum_neg. reflexivity. }
  split; [|split; [|split; [|split]]].
  - apply classify_neg_returns. symmetry. exact L.
  - apply classify_neg_returns. exact L.
  - apply find_remanence_neg.
  - eapply same_value_of_closed; [| |exact E];
      now apply calculate_hysteresis_area_closed.
  - eapply same_value_of_closed; [| |exact E];
      now apply calculate_area_shoelace_closed.
Qed.

Lemma negation_symmetry_witness :
  same_value (calculate_hysteresis_area h_loop b_loop)
             (calculate_hysteresis_area (neg h_loop) (neg b_loop)).
Proof.
  apply (negation_symmetry h_loop b_loop). reflexivity.
Defined.

(** Negation does not negate the labelled outputs one by one: on this loop
    plus = 3 and minus = -3/2, and on the negated loop plus = 3/2 and
    minus = -3.  Nor does it keep the midpoint of [find_remanence]: on the
    single-crossing series it is 3 before and 0 after. *)
Lemma negation_exchanges_branches :
  (exists plus minus plus' minus',
      find_main_coercivity_crossings h_loop b_loop = Ok (plus, minus) /\
      find_main_coercivity_crossings (neg h_loop) (neg b_loop)
      = Ok (plus', minus') /\
      plus == 3 /\ minus == - (3 # 2) /\ plus' == 3 # 2 /\ minus' == - 3 /\
      ~ plus' == - plus /\ ~ minus' == - minus) /\
  (exists z z',
      find_remanence h_single b_single = Ok (z, z) /\
      find_remanence (neg h_single) (neg b_single) = Ok (z', z') /\
      midpoint z z == 3 /\ midpoint z' z' == 0 /\
      ~ midpoint z' z' == midpoint z z).
Proof.
  split.
  - do 4 eexists.
    split; [vm_compute; reflexivity|].
    split; [vm_compute; reflexivity|].
    repeat split; try reflexivity; intros H; vm_compute in H; discriminate.
  - do 2 eexists.
    split; [vm_compute; reflexivity|].
    split; [vm_compute; reflexivity|].
    repeat split; try reflexivity. intros H; vm_compute in H; discriminate.
Qed.

(* ================================================================= *)
(** ** The reader skips header rows *)

Lemma read_rows_cons (row : list str) (rows : list (list str))
      (currents fluxes : list pyfloat) :
  read_rows (row :: rows) currents fluxes =
  match row with
  | r0 :: r1 :: _ =>
      if current_label r0 then read_rows rows currents fluxes
      else if flux_label r1 then read_rows rows currents fluxes
      else
        match float_of_str (strip r0) with
        | None => read_rows rows currents fluxes
        | Some current =>
            match float_of_str (strip r1) with
            | None => read_rows rows currents fluxes
            | Some flux =>
                read_rows rows (currents ++ [current]) (fluxes ++ [flux])
            end
        end
  | _ => read_rows rows currents fluxes
  end.
Proof. reflexivity. Qed.

Lemma read_rows_app (rows1 rows2 : list (list str)) :
  forall currents fluxes,
    read_rows (rows1 ++ rows2) currents fluxes =
    read_rows rows2 (fst (read_rows rows1 currents fluxes))
                    (snd (read_rows rows1 currents fluxes)).
Proof.
  induction rows1 as [|row rows1 IH]; intros currents fluxes; [reflexivity|].
  rewrite <- app_comm_cons, !read_rows_cons.
  destruct row as [|r0 [|r1 rest]]; try apply IH.
  destruct (current_label r0); [apply IH|].
  destruct (flux_label r1); [apply IH|].
  destruct (float_of_str (strip r0)); [|apply IH].
  destruct (float_of_str (strip r1)); apply IH.
Qed.

Lemma read_rows_header (row : list str) (rows : list (list str)) :
  header_row row ->
  forall currents fluxes,
    read_rows (row :: rows) currents fluxes = read_rows rows currents fluxes.
Proof.
  intros [(r0 & rest & -> & H)|(r0 & r1 & rest & -> & H)] currents fluxes;
    rewrite read_rows_cons.
  - destruct rest as [|r1 rest]; [reflexivity|]. now rewrite H.
  - rewrite H. now destruct (current_label r0).
Qed.

(** The two sequences that the reader returns have the same length. *)
Lemma read_rows_lengths (rows : list (list str)) :
  forall currents fluxes,
    length currents = length fluxes ->
    length (fst (read_rows rows currents fluxes)) =
    length (snd (read_rows rows currents fluxes)).
Proof.
  induction rows as [|row rows IH]; intros currents fluxes L; [exact L|].
  rewrite !read_rows_cons.
  destruct row as [|r0 [|r1 rest]]; try now apply IH.
  destruct (current_label r0); [now apply IH|].
  destruct (flux_label r1); [now apply IH|].
  destruct (float_of_str (strip r0)); [|now apply IH].
  destruct (float_of_str (strip r1)); [|now apply IH].
  apply IH. rewrite !length_app. simpl. lia.
Qed.

(** C8.  A row whose first field is, once stripped and lowered, one of
    "current" and "i/a", or whose second field is one of "flux density b"
    and "b/mt", contributes nothing to the two sequences that
    [read_dataset] returns, wherever the row stands in the file: the
    result is that of the file without the row. *)
Theorem header_rows_are_skipped (before after : list (list str)) (row : list str) :
  header_row row ->
  read_dataset (before ++ row :: after) = read_dataset (before ++ after).
Proof.
  intros H. unfold read_dataset.
  rewrite !read_rows_app. apply read_rows_header. exact H.
Qed.

Lemma header_rows_are_skipped_witness :
  read_dataset ([[lit "1"; lit "2"]]
                  ++ [lit " CURRENT "; lit "0.5"] :: [[lit "3"; lit "4"]])
  = read_dataset ([[lit "1"; lit "2"]] ++ [[lit "3"; lit "4"]]).
Proof.
  apply (header_rows_are_skipped
           [[lit "1"; lit "2"]] [[lit "3"; lit "4"]]
           [lit " CURRENT "; lit "0.5"]).
  left. exists (lit " CURRENT "), [lit "0.5"]. split; reflexivity.
Defined.

(* ================================================================= *)
(** ** Decimal text: writing a number and reading it back *)

Lemma small_digit_cases (d : N) :
  (d < 10)%N ->
  In d [0; 1; 2; 3; 4; 5; 6; 7; 8; 9]%N.
Proof.
  intros H. rewrite <- (N2Nat.id d).
  assert (K : (N.to_nat d < 10)%nat) by lia.
  destruct (N.to_nat d) as [|[|[|[|[|[|[|[|[|[|k]]]]]]]]]]; simpl; try lia; auto 12.
Qed.

Lemma digit_of_digit_char (d : N) :
  (d < 10)%N -> digit_of (digit_char d) = Some d.
Proof.
  intros H. apply small_digit_cases in H. simpl in H.
  repeat (destruct H as [<-|H]; [reflexivity|]). contradiction.
Qed.

Lemma value_of_fold (ds : list N) (acc : N) :
  fold_left (fun a d => (10 * a + d)%N) ds acc
  = (acc * 10 ^ N.of_nat (length ds) + value_of ds)%N.
Proof.
  unfold value_of. revert acc.
  induction ds as [|d ds IH]; intros acc.
  - simpl. lia.
  - cbn [fold_left length]. rewrite IH, (IH (10 * 0 + d)%N).
    rewrite Nat2N.inj_succ, N.pow_succ_r'. lia.
Qed.

Lemma value_of_cons (d : N) (ds : list N) :
  value_of (d :: ds) = (d * 10 ^ N.of_nat (length ds) + value_of ds)%N.
Proof.
  unfold value_of at 1. cbn [fold_left]. rewrite value_of_fold. lia.
Qed.

Lemma value_of_app (ds1 ds2 : list N) :
  value_of (ds1 ++ ds2)
  = (value_of ds1 * 10 ^ N.of_nat (length ds2) + value_of ds2)%N.
Proof.
  unfold value_of at 1. rewrite fold_left_app.
  fold (value_of ds1). apply value_of_fold.
Qed.

Lemma digits_aux_S (fuel : nat) (n : N) (acc : list N) :
  digits_aux (S fuel) n acc =
  if (n / 10 =? 0)%N then (n mod 10)%N :: acc
  else digits_aux fuel (n / 10)%N ((n mod 10)%N :: acc).
Proof. reflexivity. Qed.

(** With enough fuel the digits written are those of [n]. *)
Lemma digits_aux_spec (fuel : nat) :
  forall n acc,
    (n < 2 ^ N.of_nat fuel)%N ->
    let ds := digits_aux (S fuel) n acc in
    value_of ds = (n * 10 ^ N.of_nat (length acc) + value_of acc)%N /\
    (Forall (fun d => (d < 10)%N) acc -> Forall (fun d => (d < 10)%N) ds) /\
    ds <> [].
Proof.
  induction fuel as [|fuel IH]; intros n acc H ds; unfold ds;
    rewrite digits_aux_S;
    pose proof (N.mod_lt n 10) as M;
    pose proof (N.div_mod' n 10) as D;
    destruct (n / 10 =? 0)%N eqn:E;
    try (apply N.eqb_eq in E; rewrite value_of_cons;
         repeat split; [nia | | discriminate];
         intros F; constructor; [lia | exact F]).
  - apply N.eqb_neq in E. exfalso. apply E.
    assert (n = 0%N) by (change (2 ^ N.of_nat 0)%N with 1%N in H; lia).
    subst n. reflexivity.
  - apply N.eqb_neq in E.
    assert (Hq : (n / 10 < 2 ^ N.of_nat fuel)%N).
    { rewrite Nat2N.inj_succ, N.pow_succ_r' in H.
      apply N.Div0.div_lt_upper_bound. lia. }
    destruct (IH (n / 10)%N ((n mod 10)%N :: acc) Hq) as (V & F & NE).
    repeat split;
      [|intros Fa; apply F; constructor; [lia | exact Fa] | exact NE].
    rewrite V, value_of_cons. cbn [length].
    rewrite Nat2N.inj_succ, N.pow_succ_r'. nia.
Qed.

Lemma size_nat_bound (p : positive) :
  (N.pos p < 2 ^ N.of_nat (Pos.size_nat p))%N.
Proof.
  induction p as [p IH|p IH|]; cbn [Pos.size_nat];
    rewrite ?Nat2N.inj_succ, ?N.pow_succ_r'.
  - change (N.pos p~1) with (2 * N.pos p + 1)%N. lia.
  - change (N.pos p~0) with (2 * N.pos p)%N. lia.
  - reflexivity.
Qed.

Lemma digits_spec (n : N) :
  value_of (digits n) = n /\
  Forall (fun d => (d < 10)%N) (digits n) /\
  digits n <> [].
Proof.
  assert (H : (n < 2 ^ N.of_nat (N.size_nat n))%N).
  { destruct n as [|p]; [reflexivity | apply size_nat_bound]. }
  destruct (digits_aux_spec (N.size_nat n) n [] H) as (V & F & NE).
  unfold digits. repeat split; [|apply F; constructor | exact NE].
  rewrite V. change (value_of []) with 0%N.
  change (N.of_nat (length (@nil N))) with 0%N. rewrite N.pow_0_r. lia.
Qed.

(** Decides a fact about every [plain] character by enumeration. *)
Ltac by_enumeration :=
  let c := fresh "c" in
  intros c;
  destruct c as [[|] [|] [|] [|] [|] [|] [|] [|]];
  vm_compute; intros; try reflexivity; try discriminate; try congruence.

Lemma plain_not_space : forall c, plain c = true -> is_space c = false.
Proof. by_enumeration. Qed.

Lemma plain_not_c_space : forall c, plain c = true -> is_c_space c = false.
Proof. by_enumeration. Qed.

Lemma plain_not_tab : forall c, plain c = true -> Ascii.eqb c tab = false.
Proof. by_enumeration. Qed.

Lemma plain_not_newline : forall c, plain c = true -> Ascii.eqb c newline = false.
Proof. by_enumeration. Qed.

Lemma plain_not_underscore :
  forall c, plain c = true -> Ascii.eqb c underscore = false.
Proof. by_enumeration. Qed.

Lemma plain_lower : forall c, plain c = true -> lower_char c = c.
Proof. by_enumeration. Qed.

Lemma digit_is_plain : forall c, is_digit c = true -> plain c = true.
Proof. by_enumeration. Qed.

Lemma digit_char_is_digit (d : N) :
  (d < 10)%N -> is_digit (digit_char d) = true.
Proof.
  intros H. apply small_digit_cases in H. simpl in H.
  repeat (destruct H as [<-|H]; [reflexivity|]). contradiction.
Qed.

Lemma lower_plain (s : str) : Forall (fun c => plain c = true) s -> lower s = s.
Proof.
  induction 1 as [|c s Hc _ IH]; [reflexivity|].
  unfold lower in *. simpl. now rewrite IH, plain_lower.
Qed.

Lemma lstrip_with_head (space : ascii -> bool) (c : ascii) (s : str) :
  space c = false -> lstrip_with space (c :: s) = c :: s.
Proof. intros H. simpl. now rewrite H. Qed.

(** A text without blanks at either end is its own [strip]. *)
Lemma strip_with_plain (space : ascii -> bool) (s : str) :
  (forall c, plain c = true -> space c = false) ->
  Forall (fun c => plain c = true) s ->
  strip_with space s = s.
Proof.
  intros Hs F. unfold strip_with, rstrip_with.
  destruct s as [|c s]; [reflexivity|].
  rewrite lstrip_with_head by (inversion F; auto).
  destruct (rev (c :: s)) as [|d r] eqn:E.
  - apply (f_equal (@rev ascii)) in E. rewrite rev_involutive in E.
    discriminate.
  - rewrite lstrip_with_head.
    + rewrite <- E. apply rev_involutive.
    + apply Hs. rewrite Forall_forall in F. apply F.
      apply in_rev. rewrite E. now left.
Qed.

Lemma remove_underscores_none (s : str) :
  Forall (fun c => Ascii.eqb c underscore = false) s ->
  forall prev, Ascii.eqb prev underscore = false ->
               remove_underscores prev s = Some s.
Proof.
  induction 1 as [|c s Hc _ IH]; intros prev Hp; simpl.
  - now rewrite Hp.
  - rewrite Hc, Hp. simpl. now rewrite (IH c Hc).
Qed.

Lemma starts_with_incl (p s : str) :
  starts_with p s = true -> incl p s.
Proof.
  revert s. induction p as [|c p IH]; intros s H; [intros x []|].
  destruct s as [|d s]; [discriminate|]. simpl in H.
  apply andb_true_iff in H. destruct H as [E H].
  apply Ascii.eqb_eq in E. subst d.
  intros x [<-|Hx]; [now left|]. right. exact (IH s H x Hx).
Qed.

(** A keyword that occurs in [s] has all its characters in [s]. *)
Lemma contains_incl (p s : str) : contains p s = true -> incl p s.
Proof.
  induction s as [|d s IH]; simpl; intros H.
  - rewrite orb_false_r in H. now apply starts_with_incl.
  - apply orb_true_iff in H. destruct H as [H|H].
    + now apply starts_with_incl.
    + intros x Hx. right. exact (IH H x Hx).
Qed.

Lemma contains_missing_char (p s : str) (c : ascii) :
  In c p -> ~ In c s -> contains p s = false.
Proof.
  intros Hp Hs. destruct (contains p s) eqn:E; [|reflexivity].
  exfalso. apply Hs. exact (contains_incl p s E c Hp).
Qed.

Lemma split_no_sep (sep : ascii) (s : str) :
  Forall (fun c => Ascii.eqb c sep = false) s -> split sep s = [s].
Proof.
  induction 1 as [|c s Hc _ IH]; [reflexivity|].
  simpl. now rewrite Hc, IH.
Qed.

Lemma split_at_sep (sep : ascii) (s1 s2 : str) :
  Forall (fun c => Ascii.eqb c sep = false) s1 ->
  split sep (s1 ++ sep :: s2) = s1 :: split sep s2.
Proof.
  induction 1 as [|c s Hc _ IH]; simpl.
  - now rewrite Ascii.eqb_refl.
  - now rewrite Hc, IH.
Qed.

Lemma contains_tab_here (s1 s2 : str) : contains [tab] (s1 ++ tab :: s2) = true.
Proof.
  induction s1 as [|c s1 IH].
  - reflexivity.
  - simpl app. cbn [contains]. rewrite IH. apply orb_true_r.
Qed.

Lemma format3_finite (s : bool) (m : Q) :
  format3 (Finite s m) =
  sign_text s ++ decimal (round_milli m / 1000) ++
  dot :: map digit_char (milli_digits (round_milli m)).
Proof. reflexivity. Qed.

Lemma milli_digits_small (n : N) :
  Forall (fun d => (d < 10)%N) (milli_digits n).
Proof.
  unfold milli_digits.
  pose proof (N.mod_lt n 1000) as K.
  repeat constructor.
  - apply N.Div0.div_lt_upper_bound. lia.
  - apply N.mod_lt. lia.
  - apply N.mod_lt. lia.
Qed.

Lemma milli_digits_value (n : N) :
  (n / 1000 * 10 ^ N.of_nat (length (milli_digits n))
   + value_of (milli_digits n) = n)%N.
Proof.
  unfold milli_digits. cbn [length].
  change (10 ^ N.of_nat 3)%N with 1000%N.
  set (k := (n mod 1000)%N).
  assert (V : value_of [(k / 100)%N; ((k / 10) mod 10)%N; (k mod 10)%N] = k).
  { unfold value_of. cbn [fold_left].
    pose proof (N.div_mod' k 10) as D1.
    pose proof (N.div_mod' (k / 10) 10) as D2.
    assert (E : (k / 10 / 10 = k / 100)%N)
      by (rewrite N.Div0.div_div; reflexivity).
    rewrite E in D2. lia. }
  rewrite V. unfold k.
  pose proof (N.div_mod' n 1000). lia.
Qed.

Lemma plain_digit_chars (ds : list N) :
  Forall (fun d => (d < 10)%N) ds ->
  Forall (fun c => plain c = true) (map digit_char ds).
Proof.
  induction 1 as [|d ds Hd _ IH]; cbn [map]; constructor; [|exact IH].
  apply digit_is_plain. now apply digit_char_is_digit.
Qed.

(** What [format3] writes is made of plain characters and is not empty. *)
Lemma format3_plain (x : pyfloat) :
  Forall (fun c => plain c = true) (format3 x) /\ format3 x <> [].
Proof.
  destruct x as [s m|s|].
  - rewrite format3_finite. split.
    + apply Forall_app. split; [destruct s; repeat constructor|].
      apply Forall_app. split.
      * apply plain_digit_chars. apply digits_spec.
      * constructor; [reflexivity|].
        apply plain_digit_chars, milli_digits_small.
    + destruct s; [discriminate|]. cbn [sign_text app].
      unfold decimal.
      destruct (digits_spec (round_milli m / 1000)) as (_ & _ & NE).
      destruct (digits (round_milli m / 1000)); [congruence | discriminate].
  - split; [destruct s; repeat constructor | destruct s; discriminate].
  - split; [repeat constructor | discriminate].
Qed.

Lemma take_digits_written (ds : list N) (rest : str) :
  Forall (fun d => (d < 10)%N) ds ->
  take_digits rest = ([], rest) ->
  take_digits (map digit_char ds ++ rest) = (ds, rest).
Proof.
  intros F R. induction F as [|d ds Hd _ IH]; [exact R|].
  cbn [map app take_digits].
  now rewrite (digit_of_digit_char d Hd), IH.
Qed.

Lemma digit_not_sign :
  forall c, is_digit c = true ->
            Ascii.eqb c (ascii_of_nat 45) = false /\
            Ascii.eqb c (ascii_of_nat 43) = false /\
            Ascii.eqb c "i"%char = false /\
            Ascii.eqb c "n"%char = false.
Proof. by_enumeration; repeat split; reflexivity. Qed.

(** Reading back what [format3] wrote for a finite value gives the value
    rounded to thousandths, exactly. *)
Lemma decimal_of_str_format3 (s : bool) (m : Q) :
  decimal_of_str (format3 (Finite s m)) =
  Some (Finite s (Z.of_N (round_milli m) # 1000)).
Proof.
  destruct (format3_plain (Finite s m)) as [P _].
  unfold decimal_of_str.
  rewrite (strip_with_plain is_c_space _ plain_not_c_space P).
  rewrite remove_underscores_none;
    [|eapply Forall_impl; [|exact P]; apply plain_not_underscore
     |reflexivity].
  rewrite format3_finite.
  set (n := round_milli m).
  destruct (digits_spec (n / 1000)) as (V & F & NE).
  unfold decimal.
  destruct (digits (n / 1000)) as [|d0 ds] eqn:Ed; [congruence|].
  assert (Hd0 : is_digit (digit_char d0) = true)
    by (apply digit_char_is_digit; inversion F; assumption).
  destruct (digit_not_sign _ Hd0) as (N1 & N2 & N3 & N4).
  set (body := map digit_char (d0 :: ds) ++ dot :: map digit_char (milli_digits n)).
  assert (Hsign : take_sign (sign_text s ++ body) = (s, body)).
  { destruct s; [reflexivity|]. unfold body.
    cbn [sign_text map app take_sign]. now rewrite N1, N2. }
  rewrite Hsign.
  assert (Hword : lower body = body).
  { apply lower_plain. unfold body. apply Forall_app. split.
    - now apply plain_digit_chars.
    - constructor; [reflexivity|].
      apply plain_digit_chars, milli_digits_small. }
  rewrite Hword.
  assert (Hinf : member body [lit "inf"; lit "infinity"] = false).
  { unfold body, member, lit.
    cbn [map app existsb str_eqb list_ascii_of_string].
    now rewrite N3. }
  assert (Hnan : str_eqb body (lit "nan") = false).
  { unfold body, lit. cbn [map app str_eqb list_ascii_of_string].
    now rewrite N4. }
  rewrite Hinf, Hnan.
  unfold parse_number, body.
  rewrite (take_digits_written (d0 :: ds) _ F) by reflexivity.
  change (Ascii.eqb dot (ascii_of_nat 46)) with true. cbv iota.
  rewrite <- (app_nil_r (map digit_char (milli_digits n))).
  rewrite (take_digits_written _ [] (milli_digits_small n)) by reflexivity.
  destruct ((d0 :: ds) ++ milli_digits n) as [|e0 es] eqn:Eall; [discriminate|].
  rewrite <- Eall. cbn [take_exponent option_map].
  rewrite value_of_app, V, milli_digits_value.
  reflexivity.
Qed.

(* ================================================================= *)
(** ** The negation script *)

Lemma negate_line_fields (line : str) :
  negate_line line =
  match fields_of line with
  | Some (p0, p1) =>
      match float_of_str p0, float_of_str p1 with
      | Some current, Some flux => formatted_line (fneg current) (fneg flux)
      | _, _ => line
      end
  | None => line
  end.
Proof.
  unfold negate_line, fields_of.
  destruct (match strip line with [] => true | _ => false end
            || negb (contains [tab] line)); [reflexivity|].
  destruct (split tab (strip line)) as [|p0 [|p1 [|p2 r]]]; try reflexivity.
  destruct (existsb (fun keyword => contains keyword (lower p0))
                    [lit "current"; lit "i/a"]); [reflexivity|].
  destruct (existsb (fun keyword => contains keyword (lower p1))
                    [lit "flux"; lit "b/mt"]); [reflexivity|].
  destruct (float_of_str p0); [|reflexivity].
  destruct (float_of_str p1); reflexivity.
Qed.

(** A line is kept as it is or replaced by a formatted line. *)
Lemma negate_line_shape (line : str) :
  negate_line line = line \/
  exists u v, negate_line line = formatted_line u v.
Proof.
  rewrite negate_line_fields.
  destruct (fields_of line) as [[p0 p1]|]; [|now left].
  destruct (float_of_str p0) as [c|]; [|now left].
  destruct (float_of_str p1) as [f|]; [|now left].
  right. now exists (fneg c), (fneg f).
Qed.

Lemma strip_between (s1 s2 : str) :
  Forall (fun c => plain c = true) s1 -> s1 <> [] ->
  Forall (fun c => plain c = true) s2 -> s2 <> [] ->
  strip (s1 ++ tab :: s2 ++ [newline]) = s1 ++ tab :: s2.
Proof.
  intros P1 N1 P2 N2. unfold strip, strip_with, rstrip_with.
  destruct s1 as [|c1 t1]; [congruence|].
  rewrite <- app_comm_cons.
  rewrite lstrip_with_head
    by (apply plain_not_space; inversion P1; assumption).
  rewrite app_comm_cons.
  replace ((c1 :: t1) ++ tab :: s2 ++ [newline])
    with (((c1 :: t1) ++ tab :: s2) ++ [newline])
    by (rewrite <- app_assoc; reflexivity).
  rewrite rev_app_distr. cbn [rev app lstrip_with].
  change (is_space newline) with true. cbv iota.
  rewrite rev_app_distr. cbn [rev].
  destruct (rev s2) as [|d r] eqn:E.
  - apply (f_equal (@rev ascii)) in E. rewrite rev_involutive in E.
    contradiction.
  - rewrite <- !app_assoc. rewrite <- app_comm_cons.
    rewrite lstrip_with_head.
    + rewrite app_comm_cons, <- E.
      rewrite rev_app_distr, rev_involutive.
      rewrite !rev_app_distr. cbn [rev app].
      rewrite rev_involutive. rewrite <- app_assoc. reflexivity.
    + apply plain_not_space. rewrite Forall_forall in P2. apply P2.
      apply in_rev. rewrite E. now left.
Qed.

Lemma no_keyword_in_plain (s : str) (keys : list str) :
  Forall (fun c => plain c = true) s ->
  Forall (fun k => exists c, In c k /\ plain c = false) keys ->
  existsb (fun keyword => contains keyword (lower s)) keys = false.
Proof.
  intros P K. rewrite (lower_plain s P).
  induction K as [|k keys (c & Hin & Hc) _ IH]; [reflexivity|].
  cbn [existsb]. rewrite IH, orb_false_r.
  apply (contains_missing_char k s c Hin).
  intros Hs. rewrite Forall_forall in P. rewrite (P c Hs) in Hc. discriminate.
Qed.

(** The fields of a formatted line are the two written numbers. *)
Lemma fields_of_formatted (u v : pyfloat) :
  fields_of (formatted_line u v) = Some (format3 u, format3 v).
Proof.
  destruct (format3_plain u) as [Pu Nu], (format3_plain v) as [Pv Nv].
  unfold fields_of, formatted_line.
  cbn [app]. rewrite (strip_between _ _ Pu Nu Pv Nv).
  rewrite contains_tab_here.
  destruct (format3 u ++ tab :: format3 v) as [|c r] eqn:E;
    [destruct (format3 u); discriminate|].
  rewrite <- E. cbn [orb negb].
  rewrite split_at_sep
    by (eapply Forall_impl; [|exact Pu]; apply plain_not_tab).
  rewrite split_no_sep
    by (eapply Forall_impl; [|exact Pv]; apply plain_not_tab).
  rewrite (no_keyword_in_plain _ _ Pu).
  - rewrite (no_keyword_in_plain _ _ Pv); [reflexivity|].
    repeat constructor.
    + exists "l"%char. split; [simpl; auto | reflexivity].
    + exists "/"%char. split; [simpl; auto | reflexivity].
  - repeat constructor.
    + exists "c"%char. split; [simpl; auto | reflexivity].
    + exists "/"%char. split; [simpl; auto | reflexivity].
Qed.

Lemma three_decimals_format3 (s : bool) (m : Q) :
  three_decimals (format3 (Finite s m)) = true.
Proof.
  rewrite format3_finite.
  set (n := round_milli m).
  destruct (digits_spec (n / 1000)) as (_ & F & NE).
  unfold decimal.
  destruct (digits (n / 1000)) as [|d0 ds] eqn:Ed; [congruence|].
  assert (Hd0 : is_digit (digit_char d0) = true)
    by (apply digit_char_is_digit; inversion F; assumption).
  destruct (digit_not_sign _ Hd0) as (N1 & _).
  unfold three_decimals.
  assert (B : drop_minus (sign_text s ++ map digit_char (d0 :: ds) ++
                          dot :: map digit_char (milli_digits n))
              = map digit_char (d0 :: ds) ++
                dot :: map digit_char (milli_digits n)).
  { destruct s; [reflexivity|].
    cbn [sign_text map app drop_minus]. now rewrite N1. }
  rewrite B.
  rewrite (take_digits_written (d0 :: ds) _ F) by reflexivity.
  pose proof (milli_digits_small n) as M.
  unfold milli_digits in *. cbn [map].
  inversion M as [|? ? M1 M']; subst.
  inversion M' as [|? ? M2 M'']; subst.
  inversion M'' as [|? ? M3 _]; subst.
  rewrite !digit_char_is_digit by assumption.
  reflexivity.
Qed.

Lemma decimal_of_str_special :
  (forall s, decimal_of_str (format3 (Infinite s)) = Some (Infinite s)) /\
  decimal_of_str (format3 NaN) = Some NaN.
Proof.
  split; [intros [|]|]; reflexivity.
Qed.

(** The text that [format3] writes never exceeds three decimals. *)
Lemma format3_within_three_decimals (u : pyfloat) :
  ~ exceeds_three_decimals (format3 u).
Proof.
  intros (s & m & E & X). destruct u as [s' m'|s'|].
  - rewrite decimal_of_str_format3 in E. injection E as <- <-.
    apply X. exists (Z.of_N (round_milli m')).
    unfold Qeq, Qmult, inject_Z. simpl. lia.
  - rewrite (proj1 decimal_of_str_special) in E. discriminate.
  - rewrite (proj2 decimal_of_str_special) in E. discriminate.
Qed.

(** *** Lines of a file *)

Lemma readlines_terminated (body rest : str) :
  no_newline body ->
  readlines (body ++ newline :: rest) = (body ++ [newline]) :: readlines rest.
Proof.
  induction 1 as [|c body Hc _ IH]; cbn [app readlines].
  - now rewrite Ascii.eqb_refl.
  - now rewrite Hc, IH.
Qed.

Lemma readlines_unterminated (l : str) :
  l <> [] -> no_newline l -> readlines l = [l].
Proof.
  intros N H. induction H as [|c l Hc H IH]; [congruence|].
  cbn [readlines]. rewrite Hc.
  destruct l as [|d l]; [reflexivity|].
  rewrite IH by discriminate. reflexivity.
Qed.

Lemma readlines_concat (ls : list str) :
  file_lines ls -> readlines (concat ls) = ls.
Proof.
  induction 1 as [|l N H|l ls (body & -> & H) _ IH]; cbn [concat].
  - reflexivity.
  - rewrite app_nil_r. now apply readlines_unterminated.
  - rewrite <- app_assoc. cbn [app].
    now rewrite readlines_terminated, IH.
Qed.

Lemma readlines_file_lines (s : str) :
  file_lines (readlines s) /\ concat (readlines s) = s.
Proof.
  induction s as [|c s [W E]]; [split; [constructor | reflexivity]|].
  cbn [readlines].
  destruct (Ascii.eqb c newline) eqn:Hc.
  - apply Ascii.eqb_eq in Hc. subst c. split.
    + apply file_lines_cons; [|exact W].
      exists []. split; [reflexivity | constructor].
    + cbn [concat app]. now rewrite E.
  - destruct (readlines s) as [|l ls] eqn:R.
    + cbn [concat] in E. subst s. split; [|reflexivity].
      apply file_lines_last; [discriminate | repeat constructor; exact Hc].
    + split.
      * inversion W as [|l' N H|l' ls' (body & -> & H) W']; subst.
        -- apply file_lines_last; [discriminate | constructor; assumption].
        -- apply file_lines_cons; [|exact W'].
           exists (c :: body). split; [reflexivity | constructor; assumption].
      * cbn [concat app] in E |- *. now rewrite E.
Qed.

Lemma formatted_line_terminated (u v : pyfloat) :
  terminated (formatted_line u v).
Proof.
  destruct (format3_plain u) as [Pu _], (format3_plain v) as [Pv _].
  exists (format3 u ++ tab :: format3 v). split.
  - unfold formatted_line. rewrite <- app_assoc. reflexivity.
  - apply Forall_app. split.
    + eapply Forall_impl; [|exact Pu]. apply plain_not_newline.
    + constructor; [reflexivity|].
      eapply Forall_impl; [|exact Pv]. apply plain_not_newline.
Qed.

(** The lines that the script writes are again the lines of a file. *)
Lemma negate_file_lines (ls : list str) :
  file_lines ls -> file_lines (map negate_line ls).
Proof.
  induction 1 as [|l N H|l ls T _ IH]; cbn [map].
  - constructor.
  - destruct (negate_line_shape l) as [->|(u & v & ->)].
    + now apply file_lines_last.
    + apply file_lines_cons; [apply formatted_line_terminated | constructor].
  - apply file_lines_cons; [|exact IH].
    destruct (negate_line_shape l) as [->|(u & v & ->)];
      [exact T | apply formatted_line_terminated].
Qed.

Lemma map_fixed_point {A : Type} (g : A -> A) (l : list A) (x : A) :
  map g l = l -> In x l -> g x = x.
Proof.
  induction l as [|y l IH]; intros E H; [destruct H|].
  injection E as E1 E2. destruct H as [<-|H]; auto.
Qed.

(** Two runs of the script on a file transform each line twice. *)
Lemma negate_dataset_twice (content : str) :
  negate_dataset (negate_dataset content) = content ->
  forall line, In line (readlines content) ->
               negate_line (negate_line line) = line.
Proof.
  intros E line Hin.
  destruct (readlines_file_lines content) as [W C].
  unfold negate_dataset, writelines in E.
  rewrite (readlines_concat _ (negate_file_lines _ W)) in E.
  apply (f_equal readlines) in E.
  rewrite (readlines_concat _ (negate_file_lines _ (negate_file_lines _ W))) in E.
  rewrite map_map in E.
  exact (map_fixed_point (fun l => negate_line (negate_line l)) _ line E Hin).
Qed.

(* ================================================================= *)
(** ** More on the reader *)

Lemma read_rows_data (rows : list (list str)) :
  forall currents fluxes,
    read_rows rows currents fluxes =
    (currents ++ map fst (data_of rows), fluxes ++ map snd (data_of rows)).
Proof.
  induction rows as [|row rows IH]; intros currents fluxes.
  - simpl. now rewrite !app_nil_r.
  - rewrite read_rows_cons. unfold data_of. cbn [flat_map].
    fold (data_of rows). unfold row_values.
    destruct row as [|r0 [|r1 rest]]; try apply IH.
    destruct (current_label r0); [apply IH|].
    destruct (flux_label r1); [apply IH|].
    destruct (float_of_str (strip r0)) as [c|]; [|apply IH].
    destruct (float_of_str (strip r1)) as [f|]; [|apply IH].
    rewrite IH. cbn [app map fst snd]. now rewrite <- !app_assoc.
Qed.

Lemma data_of_length (rows : list (list str)) :
  (length (data_of rows) <= length rows)%nat.
Proof.
  induction rows as [|row rows IH]; [apply Nat.le_refl|].
  unfold data_of in *. cbn [flat_map]. rewrite length_app.
  destruct (row_values row); simpl; lia.
Qed.

(** X1.  The two sequences that [read_dataset] returns are the first and
    the second values of the data rows of the file, in file order: the
    i-th current and the i-th flux come from the same row.  They have the
    same length, which is at most the number of rows. *)
Theorem read_dataset_keeps_pairs (rows : list (list str)) :
  read_dataset rows = (map fst (data_of rows), map snd (data_of rows)) /\
  length (fst (read_dataset rows)) = length (snd (read_dataset rows)) /\
  (length (fst (read_dataset rows)) <= length rows)%nat.
Proof.
  unfold read_dataset. rewrite read_rows_data. cbn [app fst snd].
  rewrite !length_map. repeat split. apply data_of_length.
Qed.

(** X2.  Reading two files one after the other: the dataset of the
    concatenated rows is the dataset of the first followed by the dataset
    of the second. *)
Theorem read_dataset_app (rows1 rows2 : list (list str)) :
  read_dataset (rows1 ++ rows2) =
  (fst (read_dataset rows1) ++ fst (read_dataset rows2),
   snd (read_dataset rows1) ++ snd (read_dataset rows2)).
Proof.
  unfold read_dataset. rewrite !read_rows_data. cbn [app fst snd].
  unfold data_of. now rewrite flat_map_app, !map_app.
Qed.

(** X3.  A row with fewer than two fields, or with a first or second field
    that [float] rejects, is dropped without an error, wherever it stands
    in the file. *)
Theorem malformed_rows_are_skipped
        (before after : list (list str)) (row : list str) :
  malformed_row row ->
  read_dataset (before ++ row :: after) = read_dataset (before ++ after).
Proof.
  intros H. unfold read_dataset. rewrite !read_rows_data. cbn [app].
  assert (E : row_values row = None).
  { unfold row_values.
    destruct H as [H|[(r0 & rest & -> & H)|(r0 & r1 & rest & -> & H)]].
    - destruct row as [|r0 [|r1 rest]]; try reflexivity. simpl in H. lia.
    - destruct rest as [|r1 rest]; [reflexivity|]. rewrite H.
      destruct (current_label r0), (flux_label r1); reflexivity.
    - rewrite H.
      destruct (current_label r0), (flux_label r1),
               (float_of_str (strip r0)); reflexivity. }
  unfold data_of. rewrite !flat_map_app. cbn [flat_map]. rewrite E.
  reflexivity.
Qed.

Lemma malformed_rows_are_skipped_witness :
  read_dataset ([[lit "1"; lit "2"]]
                  ++ [lit "n/a"; lit "0.5"] :: [[lit "3"; lit "4"]])
  = read_dataset ([[lit "1"; lit "2"]] ++ [[lit "3"; lit "4"]]).
Proof.
  apply (malformed_rows_are_skipped
           [[lit "1"; lit "2"]] [[lit "3"; lit "4"]]
           [lit "n/a"; lit "0.5"]).
  right. left. exists (lit "n/a"), [lit "0.5"]. split; reflexivity.
Defined.

(* ================================================================= *)
(** ** More on crossing detection *)





(** A sign change puts zero between the two values. *)
Lemma sign_change_order (x y : Q) :
  x * y <= 0 -> ~ x == y -> (x <= 0 /\ 0 <= y /\ x < y) \/ (y <= 0 /\ 0 <= x /\ y < x).
Proof.
  intros P N.
  destruct (product_nonpos_signs x y P) as [[? ?]|[[? ?]|[E|E]]].
  - left. lra.
  - right. lra.
  - destruct (Q_dec y 0) as [[?|?]|?]; [right; lra | left; lra|].
    exfalso. apply N. lra.
  - destruct (Q_dec x 0) as [[?|?]|?]; [left; lra | right; lra|].
    exfalso. apply N. lra.
Qed.

(** The interpolation weight [-x / (y - x)] of a sign change is in [0, 1]. *)
Lemma interpolation_weight (x y : Q) :
  x * y <= 0 -> ~ x == y ->
  0 <= - x / (y - x) /\ - x / (y - x) <= 1.
Proof.
  intros P N.
  destruct (sign_change_order x y P N) as [(Hx & Hy & L)|(Hy & Hx & L)].
  - split.
    + apply Qle_shift_div_l; lra.
    + apply Qle_shift_div_r; lra.
  - assert (E : - x / (y - x) == x / (x - y)) by (field; lra).
    rewrite E. split.
    + apply Qle_shift_div_l; lra.
    + apply Qle_shift_div_r; lra.
Qed.

(** X5.  The value recorded for a crossing lies between the two paired
    samples it interpolates: the interpolation never extrapolates. *)
Theorem crossing_value_between_samples
        (a p : list Q) (cs : list crossing) (c : crossing) :
  detect_crossings a p = Ok cs -> In c cs ->
  exists pi pi1,
    nth_error p (c_index c) = Some pi /\
    nth_error p (c_index c + 1) = Some pi1 /\
    ((pi <= c_value c /\ c_value c <= pi1) \/
     (pi1 <= c_value c /\ c_value c <= pi)).
Proof.
  intros H Hin.
  assert (F : Forall (fun c =>
    exists pi pi1,
      nth_error p (c_index c) = Some pi /\
      nth_error p (c_index c + 1) = Some pi1 /\
      ((pi <= c_value c /\ c_value c <= pi1) \/
       (pi1 <= c_value c /\ c_value c <= pi))) cs).
  { eapply detect_loop_Forall; [|exact H|constructor].
    intros i d Hd. apply crossing_at_Some in Hd.
    destruct Hd as (ai & ai1 & pi & pi1 & m & _ & _ & H3 & H4 & Hs & Hne & _ & _ & ->).
    exists pi, pi1. cbn [c_index c_value]. repeat split; auto.
    destruct (interpolation_weight ai ai1 Hs Hne) as [W0 W1].
    set (t := - ai / (ai1 - ai)) in *.
    assert (E : pi + (pi1 - pi) * - ai / (ai1 - ai) == pi + (pi1 - pi) * t).
    { unfold t. field. intros Z. apply Hne. lra. }
    rewrite E.
    destruct (Qlt_le_dec pi pi1) as [L|L]; [left | right]; split; nra. }
  rewrite Forall_forall in F. exact (F c Hin).
Qed.

Lemma crossing_value_between_samples_witness :
  exists pi pi1,
    nth_error b_example 1 = Some pi /\
    nth_error b_example (1 + 1) = Some pi1 /\
    ((pi <= 0 # 80 /\ 0 # 80 <= pi1) \/ (pi1 <= 0 # 80 /\ 0 # 80 <= pi)).
Proof.
  apply (crossing_value_between_samples
           h_example b_example [Crossing 1 (0 # 80) 1] (Crossing 1 (0 # 80) 1)).
  - vm_compute. reflexivity.
  - simpl. left. reflexivity.
Defined.

(* ================================================================= *)
(** ** More on the branch classifier *)







(* ================================================================= *)
(** ** More on the Shoelace area *)

(** In exact arithmetic, on series of equal length the area routine with
    the length guard and the one without return the same area. *)
Lemma area_routines_agree_exact (h b : list Q) :
  length h = length b ->
  same_value (calculate_hysteresis_area h b) (calculate_area_shoelace h b).
Proof.
  intros L.
  eapply same_value_of_closed;
    [now apply calculate_hysteresis_area_closed
    |now apply calculate_area_shoelace_closed
    |reflexivity].
Qed.

Lemma getitem_out_of_range (l : list Q) (i : nat) :
  (length l <= i)%nat -> getitem l i = Raise IndexError.
Proof.
  intros H. unfold getitem.
  now rewrite (proj2 (nth_error_None l i) H).
Qed.

(** The loop stops with IndexError at the first index of its range at
    which [b] is too short. *)
Lemma shoelace_loop_short (h b : list Q) :
  forall range area,
    (forall i, In i range -> (i < length h)%nat) ->
    (exists i, In i range /\
               (length b <= i \/ length b <= (i + 1) mod length h)%nat) ->
    shoelace_loop h b (length h) range area = Raise IndexError.
Proof.
  induction range as [|i range IH]; intros area Hr (k & Hk & Hbad);
    [destruct Hk|].
  cbn [shoelace_loop].
  assert (Hi : (i < length h)%nat) by (apply Hr; now left).
  assert (Hj : ((i + 1) mod length h < length h)%nat)
    by (apply Nat.mod_upper_bound; lia).
  destruct (getitem_in_range h i Hi) as (hi & ->). cbn [bind].
  destruct (le_lt_dec (length b) ((i + 1) mod length h)) as [Bj|Bj].
  { now rewrite (getitem_out_of_range b _ Bj). }
  destruct (getitem_in_range b _ Bj) as (bj & ->). cbn [bind].
  destruct (getitem_in_range h _ Hj) as (hj & ->). cbn [bind].
  destruct (le_lt_dec (length b) i) as [Bi|Bi].
  { now rewrite (getitem_out_of_range b _ Bi). }
  destruct (getitem_in_range b _ Bi) as (bi & ->). cbn [bind].
  apply IH.
  - intros j Hin. apply Hr. now right.
  - exists k. split; [|exact Hbad].
    destruct Hk as [<-|Hk]; [lia | exact Hk].
Qed.

(** Only the first [length h] values of [b] are read. *)
Lemma shoelace_loop_prefix (h b : list Q) :
  (length h <= length b)%nat ->
  forall range area,
    (forall i, In i range -> (i < length h)%nat) ->
    shoelace_loop h (firstn (length h) b) (length h) range area
    = shoelace_loop h b (length h) range area.
Proof.
  intros L.
  assert (G : forall i, (i < length h)%nat ->
                        getitem (firstn (length h) b) i = getitem b i).
  { intros i Hi. unfold getitem. now rewrite nth_error_firstn,
      (proj2 (Nat.ltb_lt i (length h)) Hi). }
  induction range as [|i range IH]; intros area Hr; [reflexivity|].
  cbn [shoelace_loop].
  assert (Hi : (i < length h)%nat) by (apply Hr; now left).
  assert (Hj : ((i + 1) mod length h < length h)%nat)
    by (apply Nat.mod_upper_bound; lia).
  rewrite (G _ Hi), (G _ Hj).
  destruct (getitem h i) as [hi|e]; [|reflexivity]. cbn [bind].
  destruct (getitem b ((i + 1) mod length h)) as [bj|e]; [|reflexivity].
  cbn [bind].
  destruct (getitem h ((i + 1) mod length h)) as [hj|e]; [|reflexivity].
  cbn [bind].
  destruct (getitem b i) as [bi|e]; [|reflexivity]. cbn [bind].
  apply IH. intros j Hin. apply Hr. now right.
Qed.

(** X9.  Series of unequal length.  When the flux series is shorter than
    the field series the unguarded routine raises IndexError, and so does
    the guarded one unless its guard returns 0 first; when the flux series
    is longer, both routines ignore the surplus values. *)
Theorem area_of_unequal_series (h b : list Q) :
  ((length b < length h)%nat ->
   calculate_area_shoelace h b = Raise IndexError /\
   ((3 <= length b)%nat -> calculate_hysteresis_area h b = Raise IndexError) /\
   ((length b < 3)%nat -> calculate_hysteresis_area h b = Ok 0)) /\
  ((length h <= length b)%nat ->
   calculate_area_shoelace h b
   = calculate_area_shoelace h (firstn (length h) b) /\
   ((3 <= length h)%nat ->
    calculate_hysteresis_area h b
    = calculate_hysteresis_area h (firstn (length h) b))).
Proof.
  split.
  - intros L.
    assert (R : shoelace_loop h b (length h) (seq 0 (length h)) 0
                = Raise IndexError).
    { apply shoelace_loop_short.
      - intros i Hi. apply in_seq in Hi. lia.
      - exists (length b - 1)%nat. split; [apply in_seq; lia|].
        destruct (length b) as [|n] eqn:E; [left; lia|]. right.
        replace (S n - 1 + 1)%nat with (S n) by lia.
        rewrite Nat.mod_small; lia. }
    split; [|split].
    + unfold calculate_area_shoelace. now rewrite R.
    + intros B. unfold calculate_hysteresis_area.
      rewrite (proj2 (Nat.ltb_ge (length h) 3)) by lia.
      rewrite (proj2 (Nat.ltb_ge (length b) 3)) by lia.
      cbn [orb]. now rewrite R.
    + intros B. unfold calculate_hysteresis_area.
      rewrite (proj2 (Nat.ltb_lt (length b) 3)) by lia.
      now rewrite orb_true_r.
  - intros L.
    assert (R : shoelace_loop h (firstn (length h) b) (length h)
                  (seq 0 (length h)) 0
                = shoelace_loop h b (length h) (seq 0 (length h)) 0).
    { apply shoelace_loop_prefix; [exact L|].
      intros i Hi. apply in_seq in Hi. lia. }
    split.
    + unfold calculate_area_shoelace. now rewrite R.
    + intros Hh. unfold calculate_hysteresis_area.
      rewrite length_firstn, (Nat.min_l _ _ L).
      rewrite (proj2 (Nat.ltb_ge (length h) 3)) by lia.
      rewrite (proj2 (Nat.ltb_ge (length b) 3)) by lia.
      cbn [orb]. now rewrite R.
Qed.

Lemma area_of_unequal_series_witness :
  calculate_area_shoelace [1; 2; 3; 4] [5; 6; 7] = Raise IndexError.
Proof.
  refine (proj1 (proj1 (area_of_unequal_series [1; 2; 3; 4] [5; 6; 7]) _)).
  simpl. lia.
Defined.

Lemma cross_shift (dx dy : Q) (u v : Q * Q) :
  cross (shift_point dx dy u) (shift_point dx dy v)
  == cross u v + dx * (snd v - snd u) + dy * (fst u - fst v).
Proof. unfold cross, shift_point. simpl. ring. Qed.

Lemma last_cons_default {A : Type} (l : list A) :
  forall v u : A, last (v :: l) u = last l v.
Proof.
  induction l as [|p l IH]; intros v u; [reflexivity|].
  change (last (v :: p :: l) u) with (last (p :: l) u).
  now rewrite (IH p u), (IH p v).
Qed.

Lemma chain_shift (dx dy : Q) (l : list (Q * Q)) (u : Q * Q) :
  chain (map (shift_point dx dy) (u :: l))
  == chain (u :: l) + dx * (snd (last l u) - snd u)
     + dy * (fst u - fst (last l u)).
Proof.
  revert u. induction l as [|v l IH]; intros u.
  - simpl. ring.
  - change (map (shift_point dx dy) (u :: v :: l))
      with (shift_point dx dy u :: map (shift_point dx dy) (v :: l)).
    change (map (shift_point dx dy) (v :: l))
      with (shift_point dx dy v :: map (shift_point dx dy) l) at 1.
    rewrite !chain_cons2.
    change (shift_point dx dy v :: map (shift_point dx dy) l)
      with (map (shift_point dx dy) (v :: l)).
    rewrite IH, cross_shift.
    rewrite (last_cons_default l v u). ring.
Qed.

(** Moving every vertex by the same vector keeps the closed sum. *)
Lemma closed_sum_shift (dx dy : Q) (l : list (Q * Q)) :
  closed_sum (map (shift_point dx dy) l) == closed_sum l.
Proof.
  destruct l as [|u t]; [reflexivity|].
  change (map (shift_point dx dy) (u :: t))
    with (shift_point dx dy u :: map (shift_point dx dy) t).
  rewrite !closed_sum_cons.
  change (shift_point dx dy u :: map (shift_point dx dy) t ++ [shift_point dx dy u])
    with (shift_point dx dy u
          :: (map (shift_point dx dy) t ++ map (shift_point dx dy) [u])).
  rewrite <- map_app.
  change (shift_point dx dy u :: map (shift_point dx dy) (t ++ [u]))
    with (map (shift_point dx dy) (u :: t ++ [u])).
  rewrite chain_shift, last_last. ring.
Qed.

Lemma combine_offset (dx dy : Q) (h b : list Q) :
  combine (offset_by dx h) (offset_by dy b)
  = map (shift_point dx dy) (combine h b).
Proof.
  revert b. induction h as [|x h IH]; intros [|y b]; simpl; try reflexivity.
  now rewrite <- IH.
Qed.

(** X10.  The enclosed area does not depend on the origin: adding one
    constant to every H and another to every B leaves the area of both
    routines unchanged. *)
Theorem area_is_translation_invariant (h b : list Q) (dx dy : Q) :
  length h = length b ->
  same_value (calculate_area_shoelace h b)
             (calculate_area_shoelace (offset_by dx h) (offset_by dy b)) /\
  same_value (calculate_hysteresis_area h b)
             (calculate_hysteresis_area (offset_by dx h) (offset_by dy b)).
Proof.
  intros L.
  assert (L' : length (offset_by dx h) = length (offset_by dy b))
    by (unfold offset_by; rewrite !length_map; exact L).
  assert (E : Qabs (closed_sum (combine h b))
              == Qabs (closed_sum (combine (offset_by dx h) (offset_by dy b)))).
  { rewrite combine_offset, closed_sum_shift. reflexivity. }
  split.
  - eapply same_value_of_closed; [| |exact E];
      now apply calculate_area_shoelace_closed.
  - eapply same_value_of_closed; [| |exact E];
      now apply calculate_hysteresis_area_closed.
Qed.

Lemma area_is_translation_invariant_witness :
  same_value (calculate_area_shoelace h_loop b_loop)
             (calculate_area_shoelace (offset_by 10 h_loop)
                                      (offset_by (-3) b_loop)).
Proof.
  apply (area_is_translation_invariant h_loop b_loop 10 (-3)). reflexivity.
Defined.

Lemma combine_scaled (k : Q) (h b : list Q) :
  combine (scaled_by k h) b = map (fun u => (k * fst u, snd u)) (combine h b).
Proof.
  revert b. induction h as [|x h IH]; intros [|y b]; simpl; try reflexivity.
  now rewrite <- IH.
Qed.

Lemma chain_scaled (k : Q) (l : list (Q * Q)) :
  chain (map (fun u => (k * fst u, snd u)) l) == k * chain l.
Proof.
  induction l as [|u l IH]; [simpl; ring|].
  destruct l as [|v l]; [simpl; ring|].
  change (map (fun u => (k * fst u, snd u)) (u :: v :: l))
    with ((k * fst u, snd u) :: map (fun u => (k * fst u, snd u)) (v :: l)).
  change (map (fun u => (k * fst u, snd u)) (v :: l))
    with ((k * fst v, snd v) :: map (fun u => (k * fst u, snd u)) l) at 1.
  rewrite !chain_cons2.
  change ((k * fst v, snd v) :: map (fun u => (k * fst u, snd u)) l)
    with (map (fun u => (k * fst u, snd u)) (v :: l)).
  rewrite IH. unfold cross. simpl. ring.
Qed.

Lemma closed_sum_scaled (k : Q) (l : list (Q * Q)) :
  closed_sum (map (fun u => (k * fst u, snd u)) l) == k * closed_sum l.
Proof.
  destruct l as [|u t]; [simpl; ring|].
  change (map (fun u => (k * fst u, snd u)) (u :: t))
    with ((k * fst u, snd u) :: map (fun u => (k * fst u, snd u)) t).
  rewrite !closed_sum_cons.
  change ((k * fst u, snd u) :: map (fun u => (k * fst u, snd u)) t
                             ++ [(k * fst u, snd u)])
    with ((k * fst u, snd u)
          :: (map (fun u => (k * fst u, snd u)) t
              ++ map (fun u => (k * fst u, snd u)) [u])).
  rewrite <- map_app.
  change ((k * fst u, snd u) :: map (fun u => (k * fst u, snd u)) (t ++ [u]))
    with (map (fun u => (k * fst u, snd u)) (u :: t ++ [u])).
  apply chain_scaled.
Qed.

(** X11.  The area is proportional to the conversion factor: with
    [h_values = h_factor * currents] both routines return [|h_factor|]
    times the area enclosed in the (current, flux) plane. *)
Theorem area_scales_with_h_factor (h_factor : Q) (currents fluxes : list Q) :
  length currents = length fluxes ->
  (exists area area_i,
      calculate_hysteresis_area (scaled_by h_factor currents) fluxes = Ok area /\
      calculate_hysteresis_area currents fluxes = Ok area_i /\
      area == Qabs h_factor * area_i) /\
  (exists area area_i,
      calculate_area_shoelace (scaled_by h_factor currents) fluxes = Ok area /\
      calculate_area_shoelace currents fluxes = Ok area_i /\
      area == Qabs h_factor * area_i).
Proof.
  intros L.
  assert (L' : length (scaled_by h_factor currents) = length fluxes)
    by (unfold scaled_by; rewrite length_map; exact L).
  assert (E : Qabs (closed_sum (combine (scaled_by h_factor currents) fluxes)) / 2
              == Qabs h_factor * (Qabs (closed_sum (combine currents fluxes)) / 2)).
  { rewrite combine_scaled, closed_sum_scaled, Qabs_Qmult. field. }
  split.
  - destruct (calculate_hysteresis_area_closed _ _ L') as (r' & H' & E').
    destruct (calculate_hysteresis_area_closed _ _ L) as (r & H & Er).
    exists r', r. repeat split; auto. now rewrite E', Er, E.
  - destruct (calculate_area_shoelace_closed _ _ L') as (r' & H' & E').
    destruct (calculate_area_shoelace_closed _ _ L) as (r & H & Er).
    exists r', r. repeat split; auto. now rewrite E', Er, E.
Qed.

Lemma area_scales_with_h_factor_witness :
  exists area area_i,
    calculate_hysteresis_area (scaled_by 2459 h_loop) b_loop = Ok area /\
    calculate_hysteresis_area h_loop b_loop = Ok area_i /\
    area == Qabs 2459 * area_i.
Proof.
  apply (proj1 (area_scales_with_h_factor 2459 h_loop b_loop eq_refl)).
Defined.

(* ================================================================= *)
(** ** More on [find_remanence] *)

Lemma remanence_at_returns (h b : list Q) (i : nat) :
  length h = length b -> (i + 1 < length h)%nat ->
  exists oz, remanence_at h b i = Ok oz.
Proof.
  intros Hlen Hi. unfold remanence_at.
  destruct (getitem_in_range h i) as (hi & ->); [lia|].
  destruct (getitem_in_range h (i + 1)) as (hi1 & ->); [lia|].
  cbn [bind].
  destruct ((Qle_bool hi 0 && Qle_bool 0 hi1) || (Qle_bool hi1 0 && Qle_bool 0 hi));
    [|eauto].
  destruct (Qeq_bool hi1 hi) eqn:N; cbn [negb]; [eauto|].
  apply Qeq_bool_false in N.
  destruct (getitem_in_range b i) as (bi & ->); [lia|].
  destruct (getitem_in_range b (i + 1)) as (bi1 & ->); [lia|].
  cbn [bind]. rewrite true_divide_nonzero by (intros E; apply N; lra).
  cbn [bind]. eauto.
Qed.

Lemma remanence_loop_returns (h b : list Q) :
  length h = length b ->
  forall range acc,
    (forall i, In i range -> (i + 1 < length h)%nat) ->
    exists zs, remanence_loop h b range acc = Ok zs.
Proof.
  intros Hlen. induction range as [|i range IH]; intros acc Hr.
  - simpl. eauto.
  - cbn [remanence_loop].
    destruct (remanence_at_returns h b i Hlen) as (oz & ->);
      [apply Hr; now left|].
    cbn [bind]. apply IH. intros j Hj. apply Hr. now right.
Qed.

(** X12.  [find_remanence] returns on every pair of non-empty series of
    equal length, and raises ValueError when the field series is empty,
    whatever the flux series is. *)
Theorem find_remanence_returns (h b : list Q) :
  (h <> [] -> length h = length b ->
   exists b_plus b_minus, find_remanence h b = Ok (b_plus, b_minus)) /\
  find_remanence [] b = Raise ValueError.
Proof.
  split; [|reflexivity].
  intros Hne Hlen. unfold find_remanence, zero_crossings_of.
  destruct (remanence_loop_returns h b Hlen (seq 0 (length h - 1)) [])
    as (zs & ->).
  { intros i Hi. apply in_seq in Hi. lia. }
  cbn [bind].
  destruct zs as [|z0 [|z1 zs]]; [|eauto|eauto].
  destruct (np_argmin_in_range (np_abs h)) as (k & -> & Hk).
  { unfold np_abs. intros E. apply map_eq_nil in E. contradiction. }
  unfold np_abs in Hk. rewrite length_map in Hk. cbn [bind].
  destruct (getitem_in_range b k) as (v & ->); [lia|].
  cbn [bind]. eauto.
Qed.

Lemma find_remanence_returns_witness :
  exists b_plus b_minus,
    find_remanence h_rising b_rising = Ok (b_plus, b_minus).
Proof.
  apply (proj1 (find_remanence_returns h_rising b_rising)).
  - discriminate.
  - reflexivity.
Defined.





Lemma zero_between (x y : Q) :
  (Qle_bool x 0 && Qle_bool 0 y) || (Qle_bool y 0 && Qle_bool 0 x)
  = Qle_bool (x * y) 0.
Proof.
  destruct (Qle_bool (x * y) 0) eqn:P.
  - apply Qle_bool_iff in P.
    apply orb_true_iff.
    destruct (product_nonpos_signs x y P) as [[? ?]|[[? ?]|[E|E]]].
    + left. apply andb_true_iff. split; apply Qle_bool_iff; lra.
    + right. apply andb_true_iff. split; apply Qle_bool_iff; lra.
    + destruct (Qlt_le_dec y 0).
      * right. apply andb_true_iff. split; apply Qle_bool_iff; lra.
      * left. apply andb_true_iff. split; apply Qle_bool_iff; lra.
    + destruct (Qlt_le_dec x 0).
      * left. apply andb_true_iff. split; apply Qle_bool_iff; lra.
      * right. apply andb_true_iff. split; apply Qle_bool_iff; lra.
  - apply orb_false_iff. split; apply andb_false_iff.
    + destruct (Qle_bool x 0) eqn:A; [|now left].
      destruct (Qle_bool 0 y) eqn:B; [|now right].
      apply Qle_bool_iff in A, B. exfalso.
      assert (T : Qle_bool (x * y) 0 = true).
      { apply Qle_bool_iff.
        assert (0 <= (- x) * y) by (apply Qmult_le_0_compat; lra). lra. }
      congruence.
    + destruct (Qle_bool y 0) eqn:A; [|now left].
      destruct (Qle_bool 0 x) eqn:B; [|now right].
      apply Qle_bool_iff in A, B. exfalso.
      assert (T : Qle_bool (x * y) 0 = true).
      { apply Qle_bool_iff.
        assert (0 <= x * (- y)) by (apply Qmult_le_0_compat; lra). lra. }
      congruence.
Qed.

Lemma Qeq_bool_swap (x y : Q) : Qeq_bool y x = Qeq_bool x y.
Proof.
  destruct (Qeq_bool x y) eqn:E.
  - apply Qeq_bool_iff in E. apply Qeq_bool_iff. now symmetry.
  - apply Qeq_bool_false in E. apply Qeq_bool_false.
    intros N. apply E. now symmetry.
Qed.

Lemma remanence_at_crossing_at (h b : list Q) (i : nat) :
  res_rel_hetero
    (fun oz oc => match oz, oc with
                  | Some z, Some c => same_crossing z c
                  | None, None => True
                  | _, _ => False
                  end)
    (remanence_at h b i) (crossing_at h b i).
Proof.
  unfold remanence_at, crossing_at, res_rel_hetero.
  destruct (getitem h i) as [hi|e]; cbn [bind]; [|reflexivity].
  destruct (getitem h (i + 1)) as [hi1|e]; cbn [bind]; [|reflexivity].
  rewrite zero_between, (Qeq_bool_swap hi hi1).
  destruct (Qle_bool (hi * hi1) 0); cbn [andb]; [|exact I].
  destruct (Qeq_bool hi hi1) eqn:N; cbn [negb]; [exact I|].
  apply Qeq_bool_false in N.
  destruct (getitem b i) as [bi|e] eqn:Gi; cbn [bind]; [|reflexivity].
  destruct (getitem b (i + 1)) as [bi1|e]; cbn [bind]; [|reflexivity].
  rewrite !true_divide_nonzero by (intros E; apply N; lra). cbn [bind].
  destruct (np_max (np_abs (slice b (i - 50) (i + 1)))) as [m|e] eqn:M;
    cbn [bind].
  - unfold same_crossing. cbn [c_value]. field. intros E. apply N. lra.
  - apply np_max_raises in M. destruct M as [_ M].
    unfold np_abs in M. apply map_eq_nil in M.
    apply slice_window_nonempty in M; [contradiction|].
    apply getitem_Ok in Gi. apply nth_error_Some. congruence.
Qed.

Lemma remanence_loop_detect_loop (h b : list Q) :
  forall range zs cs,
    Forall2 same_crossing zs cs ->
    res_rel_hetero (Forall2 same_crossing)
                   (remanence_loop h b range zs) (detect_loop h b range cs).
Proof.
  induction range as [|i range IH]; intros zs cs F; [exact F|].
  cbn [remanence_loop detect_loop].
  pose proof (remanence_at_crossing_at h b i) as R.
  unfold res_rel_hetero in R |- *.
  destruct (remanence_at h b i) as [oz|e], (crossing_at h b i) as [oc|e'];
    cbn [bind] in *; try contradiction; [|exact R].
  apply IH.
  destruct oz as [z|], oc as [c|]; try contradiction; [|exact F].
  apply Forall2_app; [exact F | constructor; [exact R | constructor]].
Qed.

(** In exact arithmetic the two remanence scripts detect the same
    crossings of H: [find_remanence] and [find_main_hysteresis_crossings]
    end alike on every input, with as many crossings and, one for one and
    in order, equal interpolated flux values. *)
Lemma remanence_crossings_exact (h b : list Q) :
  res_rel_hetero (Forall2 same_crossing)
                 (zero_crossings_of h b) (detect_crossings h b) /\
  (forall zs cs, zero_crossings_of h b = Ok zs -> detect_crossings h b = Ok cs ->
                 length zs = length cs).
Proof.
  assert (R : res_rel_hetero (Forall2 same_crossing)
                (zero_crossings_of h b) (detect_crossings h b))
    by (apply remanence_loop_detect_loop; constructor).
  split; [exact R|].
  intros zs cs Hz Hc. rewrite Hz, Hc in R.
  exact (Forall2_length R).
Qed.

(* ================================================================= *)
(** ** The conversion factor of the callers *)

Lemma bind_rel {A A' B B' : Type} (R : A -> A' -> Prop) (S : B -> B' -> Prop)
      (c : result A) (c' : result A') (k : A -> result B) (k' : A' -> result B') :
  res_rel_hetero R c c' ->
  (forall x x', R x x' -> res_rel_hetero S (k x) (k' x')) ->
  res_rel_hetero S (bind c k) (bind c' k').
Proof.
  intros Hc Hk. destruct c as [x|e], c' as [x'|e']; simpl in Hc |- *;
    try contradiction; [now apply Hk | exact Hc].
Qed.

Lemma getitem_proportional (k : Q) (l l' : list Q) (i : nat) :
  Forall2 (proportional k) l l' ->
  res_rel_hetero (proportional k) (getitem l i) (getitem l' i).
Proof.
  intros F. revert i. unfold getitem.
  induction F as [|x x' l l' Hx F IH]; intros [|i]; simpl; auto.
Qed.

Lemma Forall2_skipn {A B : Type} (R : A -> B -> Prop) (l : list A) (l' : list B) :
  Forall2 R l l' -> forall n, Forall2 R (skipn n l) (skipn n l').
Proof.
  induction 1 as [|x x' l l' Hx F IH]; intros [|n]; simpl;
    try constructor; auto.
Qed.

Lemma Forall2_firstn {A B : Type} (R : A -> B -> Prop) (l : list A) (l' : list B) :
  Forall2 R l l' -> forall n, Forall2 R (firstn n l) (firstn n l').
Proof.
  induction 1 as [|x x' l l' Hx F IH]; intros [|n]; simpl;
    try constructor; auto.
Qed.

Lemma np_abs_proportional (k : Q) (l l' : list Q) :
  0 < k -> Forall2 (proportional k) l l' ->
  Forall2 (proportional k) (np_abs l) (np_abs l').
Proof.
  intros Hk. induction 1 as [|x x' l l' Hx F IH]; simpl; constructor; auto.
  unfold proportional in *. rewrite Hx, Qabs_Qmult, (Qabs_pos k); [reflexivity|].
  lra.
Qed.

Lemma Qmax_proportional (k x y x' y' : Q) :
  0 < k -> proportional k x x' -> proportional k y y' ->
  proportional k (Qmax x y) (Qmax x' y').
Proof.
  unfold proportional. intros Hk Hx Hy.
  destruct (Qmax_cases x y) as [[E L]|[E L]],
           (Qmax_cases x' y') as [[E' L']|[E' L']]; rewrite E, E'; auto.
  - assert (k * y <= k * x) by (apply Qmult_le_l; assumption).
    apply Qle_antisym; lra.
  - assert (k * x <= k * y) by (apply Qmult_le_l; assumption).
    apply Qle_antisym; lra.
Qed.

Lemma np_max_proportional (k : Q) (v v' : list Q) :
  0 < k -> Forall2 (proportional k) v v' ->
  res_rel_hetero (proportional k) (np_max v) (np_max v').
Proof.
  intros Hk F. destruct F as [|x x' v v' Hx F]; simpl; [reflexivity|].
  revert x x' Hx. induction F as [|y y' v v' Hy F IH]; intros x x' Hx; simpl.
  - exact Hx.
  - apply IH. now apply Qmax_proportional.
Qed.

Lemma product_test_scaled (k x y x' y' : Q) :
  ~ k == 0 -> proportional k x x' -> proportional k y y' ->
  Qle_bool (x' * y') 0 = Qle_bool (x * y) 0.
Proof.
  unfold proportional. intros Hk Hx Hy.
  assert (K2 : 0 < k * k).
  { destruct (Q_dec k 0) as [[N|P]|Z]; [| |contradiction].
    - assert (0 < (- k) * (- k)) by (apply Qmult_lt_0_compat; lra). lra.
    - apply Qmult_lt_0_compat; assumption. }
  assert (E : x' * y' == (k * k) * (x * y)) by (rewrite Hx, Hy; ring).
  rewrite E. destruct (Qle_bool (x * y) 0) eqn:P.
  - apply Qle_bool_iff in P. apply Qle_bool_iff.
    assert (0 <= (k * k) * (- (x * y))) by (apply Qmult_le_0_compat; lra).
    lra.
  - destruct (Qle_bool (k * k * (x * y)) 0) eqn:P'; [|reflexivity].
    apply Qle_bool_iff in P'.
    assert (T : Qle_bool (x * y) 0 = true).
    { apply Qle_bool_iff.
      destruct (Qlt_le_dec 0 (x * y)) as [L|L]; [|exact L].
      assert (0 < (k * k) * (x * y)) by (apply Qmult_lt_0_compat; lra).
      lra. }
    congruence.
Qed.

Lemma equality_test_scaled (k x y x' y' : Q) :
  ~ k == 0 -> proportional k x x' -> proportional k y y' ->
  Qeq_bool x' y' = Qeq_bool x y.
Proof.
  unfold proportional. intros Hk Hx Hy.
  rewrite Hx, Hy. destruct (Qeq_bool x y) eqn:N.
  - apply Qeq_bool_iff in N. apply Qeq_bool_iff. now rewrite N.
  - apply Qeq_bool_false in N. apply Qeq_bool_false.
    intros Z. apply N.
    assert (Z' : k * (x - y) == 0) by lra.
    apply Qmult_integral in Z'. destruct Z'; [contradiction | lra].
Qed.

Lemma sign_test_scaled (k x y x' y' : Q) :
  ~ k == 0 -> proportional k x x' -> proportional k y y' ->
  Qle_bool (x' * y') 0 && negb (Qeq_bool x' y')
  = Qle_bool (x * y) 0 && negb (Qeq_bool x y).
Proof.
  intros Hk Hx Hy.
  now rewrite (product_test_scaled k x y x' y' Hk Hx Hy),
              (equality_test_scaled k x y x' y' Hk Hx Hy).
Qed.

Lemma crossing_at_scaled (ka kp : Q) (a a' p p' : list Q) (i : nat) :
  ~ ka == 0 -> 0 < kp ->
  Forall2 (proportional ka) a a' -> Forall2 (proportional kp) p p' ->
  res_rel_hetero
    (fun oc oc' => match oc, oc' with
                   | Some c, Some c' => scaled_record kp c c'
                   | None, None => True
                   | _, _ => False
                   end)
    (crossing_at a p i) (crossing_at a' p' i).
Proof.
  intros Ha Hp Fa Fp. unfold crossing_at.
  eapply bind_rel; [apply (getitem_proportional ka _ _ i Fa)|].
  intros ai ai' Hai.
  eapply bind_rel; [apply (getitem_proportional ka _ _ (i + 1) Fa)|].
  intros ai1 ai1' Hai1.
  rewrite (sign_test_scaled ka ai ai1 ai' ai1' Ha Hai Hai1).
  destruct (Qle_bool (ai * ai1) 0 && negb (Qeq_bool ai ai1)) eqn:G;
    [|exact I].
  apply andb_true_iff in G. destruct G as [_ G].
  apply negb_true_iff in G. apply Qeq_bool_false in G.
  eapply bind_rel; [apply (getitem_proportional kp _ _ i Fp)|].
  intros pi pi' Hpi.
  eapply bind_rel; [apply (getitem_proportional kp _ _ (i + 1) Fp)|].
  intros pi1 pi1' Hpi1.
  unfold proportional in Hai, Hai1, Hpi, Hpi1.
  assert (D : ~ ai1 - ai == 0) by (intros Z; apply G; lra).
  assert (D' : ~ ai1' - ai' == 0).
  { rewrite Hai, Hai1. intros Z.
    assert (Z' : ka * (ai1 - ai) == 0) by lra.
    apply Qmult_integral in Z'. destruct Z'; contradiction. }
  rewrite !true_divide_nonzero by assumption. cbn [bind].
  eapply bind_rel.
  - apply (np_max_proportional kp); [exact Hp|].
    apply np_abs_proportional; [exact Hp|].
    unfold slice. apply Forall2_firstn, Forall2_skipn, Fp.
  - intros m m' Hm. repeat split; cbn [c_index c_value c_salience];
      [|exact Hm].
    rewrite Hai, Hai1, Hpi, Hpi1. field.
    split; [exact D|].
    intros Z. apply D'. rewrite Hai, Hai1. exact Z.
Qed.

Lemma detect_loop_scaled (ka kp : Q) (a a' p p' : list Q) :
  ~ ka == 0 -> 0 < kp ->
  Forall2 (proportional ka) a a' -> Forall2 (proportional kp) p p' ->
  forall range acc acc',
    Forall2 (scaled_record kp) acc acc' ->
    res_rel_hetero (Forall2 (scaled_record kp))
                   (detect_loop a p range acc) (detect_loop a' p' range acc').
Proof.
  intros Ha Hp Fa Fp.
  induction range as [|i range IH]; intros acc acc' F; [exact F|].
  cbn [detect_loop].
  eapply bind_rel; [apply (crossing_at_scaled ka kp); assumption|].
  intros oc oc' R. apply IH.
  destruct oc as [c|], oc' as [c'|]; try contradiction; [|exact F].
  apply Forall2_app; [exact F | constructor; [exact R | constructor]].
Qed.

Lemma Qltb_scaled (k x y x' y' : Q) :
  0 < k -> x' == k * x -> y' == k * y -> Qltb x' y' = Qltb x y.
Proof.
  intros Hk Hx Hy. rewrite (Qltb_comp _ _ _ _ Hx Hy).
  destruct (Qltb x y) eqn:E.
  - apply Qltb_lt in E. apply Qltb_lt.
    assert (0 < k * (y - x)) by (apply Qmult_lt_0_compat; lra). lra.
  - apply Qltb_ge in E. apply Qltb_ge.
    assert (0 <= k * (x - y)) by (apply Qmult_le_0_compat; lra). lra.
Qed.

Lemma insert_desc_scaled (k : Q) (c c' : crossing) (l l' : list crossing) :
  0 < k -> scaled_record k c c' -> Forall2 (scaled_record k) l l' ->
  Forall2 (scaled_record k) (insert_desc c l) (insert_desc c' l').
Proof.
  intros Hk M F. induction F as [|d d' l l' Md F IH]; simpl.
  - constructor; [exact M | constructor].
  - rewrite (Qltb_scaled k (c_salience c) (c_salience d) _ _ Hk
               (proj2 (proj2 M)) (proj2 (proj2 Md))).
    destruct (Qltb (c_salience c) (c_salience d)).
    + constructor; assumption.
    + constructor; [exact M|]. constructor; assumption.
Qed.

Lemma sorted_desc_scaled (k : Q) (l l' : list crossing) :
  0 < k -> Forall2 (scaled_record k) l l' ->
  Forall2 (scaled_record k) (sorted_desc l) (sorted_desc l').
Proof.
  intros Hk. induction 1 as [|c c' l l' M F IH]; simpl; [constructor|].
  now apply insert_desc_scaled.
Qed.

Lemma select_main_scaled (k : Q) (cs cs' : list crossing) :
  0 < k -> Forall2 (scaled_record k) cs cs' ->
  forall main main',
    Forall2 (proportional k) main main' ->
    Forall2 (proportional k)
            (fst (select_main cs main)) (fst (select_main cs' main')).
Proof.
  intros Hk. induction 1 as [|c c' cs cs' M F IH]; intros main main' Fm; simpl.
  - exact Fm.
  - pose proof (Forall2_length Fm) as L.
    destruct M as (Mi & Mv & Ms).
    destruct Fm as [|m0 m0' t t' O Ft].
    + apply IH. constructor; [exact Mv | constructor].
    + rewrite <- L.
      destruct (length (m0 :: t) =? 1)%nat; [|apply IH; now constructor].
      unfold proportional in O.
      assert (E : Qltb (c_value c' * m0') 0 = Qltb (c_value c * m0) 0).
      { assert (P : c_value c' * m0' == (k * k) * (c_value c * m0))
          by (rewrite Mv, O; ring).
        assert (Z : 0 == (k * k) * 0) by ring.
        assert (K2 : 0 < k * k) by (apply Qmult_lt_0_compat; assumption).
        exact (Qltb_scaled (k * k) _ _ _ _ K2 P Z). }
      rewrite E.
      destruct (Qltb (c_value c * m0) 0); simpl.
      * constructor; [exact O|].
        apply Forall2_app; [exact Ft | constructor; [exact Mv | constructor]].
      * apply IH. now constructor.
Qed.

Lemma assign_branches_scaled (k : Q) (cs cs' : list crossing) :
  0 < k -> Forall2 (scaled_record k) cs cs' ->
  fst (assign_branches cs') == k * fst (assign_branches cs) /\
  snd (assign_branches cs') == k * snd (assign_branches cs).
Proof.
  intros Hk F.
  pose proof (select_main_scaled k _ _ Hk (sorted_desc_scaled k _ _ Hk F)
                [] [] (Forall2_nil _)) as Fm.
  destruct F as [|c c' cs cs' M F]; [simpl; split; ring|].
  rewrite !assign_branches_cons.
  remember (fst (select_main (sorted_desc (c :: cs)) [])) as main eqn:Em.
  remember (fst (select_main (sorted_desc (c' :: cs')) [])) as main' eqn:Em'.
  clear Em Em'.
  destruct Fm as [|m0 m0' t t' O0 Ft]; [simpl; split; ring|].
  destruct Ft as [|m1 m1' t t' O1 Ft]; [simpl; split; ring|].
  unfold proportional in O0, O1.
  assert (Z : 0 == k * 0) by ring.
  rewrite (Qltb_scaled k 0 m0 0 m0' Hk Z O0).
  destruct (Qltb 0 m0); simpl; split; assumption.
Qed.

Lemma classify_scaled (ka kp : Q) (a a' p p' : list Q) :
  ~ ka == 0 -> 0 < kp ->
  Forall2 (proportional ka) a a' -> Forall2 (proportional kp) p p' ->
  res_rel_hetero (fun r r' => fst r' == kp * fst r /\ snd r' == kp * snd r)
                 (classify a p) (classify a' p').
Proof.
  intros Ha Hp Fa Fp. unfold classify, detect_crossings.
  rewrite <- (Forall2_length Fa).
  eapply bind_rel.
  - apply (detect_loop_scaled ka kp); try assumption. constructor.
  - intros cs cs' F. now apply assign_branches_scaled.
Qed.

Lemma proportional_scaled_by (k : Q) (l : list Q) :
  Forall2 (proportional k) l (scaled_by k l).
Proof.
  induction l as [|x l IH]; simpl; constructor; [reflexivity | exact IH].
Qed.

Lemma proportional_same (l : list Q) : Forall2 (proportional 1) l l.
Proof.
  induction l as [|x l IH]; constructor; [unfold proportional; ring | exact IH].
Qed.

Lemma midpoint_scaled (k plus minus plus' minus' : Q) :
  0 < k -> plus' == k * plus -> minus' == k * minus ->
  midpoint plus' minus' == k * midpoint plus minus /\
  uncertainty plus' minus' == k * uncertainty plus minus.
Proof.
  intros Hk Ep Em. unfold midpoint, uncertainty.
  assert (A : Qabs minus' == k * Qabs minus).
  { rewrite Em, Qabs_Qmult, (Qabs_pos k); [reflexivity | lra]. }
  split.
  - rewrite Ep, A. field.
  - assert (B : plus' - Qabs minus' == k * (plus - Qabs minus))
      by (rewrite Ep, A; ring).
    rewrite B, Qabs_Qmult, (Qabs_pos k); [field | lra].
Qed.

(** X15.  The coercivity is proportional to the conversion factor: with
    [h_values = h_factor * currents] and a positive factor, the B = 0
    crossings found by [find_main_coercivity_crossings] are [h_factor]
    times those found on the currents themselves, and so are the midpoint
    H_c and its uncertainty. *)
Theorem coercivity_scales_with_h_factor
        (h_factor : Q) (currents fluxes : list Q) :
  0 < h_factor -> length currents = length fluxes ->
  exists h_plus h_minus i_plus i_minus,
    find_main_coercivity_crossings (scaled_by h_factor currents) fluxes
    = Ok (h_plus, h_minus) /\
    find_main_coercivity_crossings currents fluxes = Ok (i_plus, i_minus) /\
    h_plus == h_factor * i_plus /\ h_minus == h_factor * i_minus /\
    midpoint h_plus h_minus == h_factor * midpoint i_plus i_minus /\
    uncertainty h_plus h_minus == h_factor * uncertainty i_plus i_minus.
Proof.
  intros Hk L.
  assert (One : ~ 1 == 0) by (intros Z; discriminate Z).
  pose proof (classify_scaled 1 h_factor fluxes fluxes currents
                (scaled_by h_factor currents) One Hk
                (proportional_same fluxes)
                (proportional_scaled_by h_factor currents)) as R.
  unfold find_main_coercivity_crossings.
  destruct (detect_crossings_returns fluxes currents (eq_sym L)) as (cs & Hcs).
  assert (Hc : classify fluxes currents = Ok (assign_branches cs))
    by (unfold classify; now rewrite Hcs).
  rewrite Hc in R |- *.
  destruct (classify fluxes (scaled_by h_factor currents))
    as [[h_plus h_minus]|e]; simpl in R; [|contradiction].
  destruct R as [R1 R2].
  destruct (assign_branches cs) as [i_plus i_minus]. cbn [fst snd] in *.
  exists h_plus, h_minus, i_plus, i_minus.
  destruct (midpoint_scaled h_factor i_plus i_minus h_plus h_minus Hk R1 R2).
  repeat split; auto.
Qed.

Lemma coercivity_scales_with_h_factor_witness :
  exists h_plus h_minus i_plus i_minus,
    find_main_coercivity_crossings (scaled_by 2459 h_loop) b_loop
    = Ok (h_plus, h_minus) /\
    find_main_coercivity_crossings h_loop b_loop = Ok (i_plus, i_minus) /\
    h_plus == 2459 * i_plus /\ h_minus == 2459 * i_minus.
Proof.
  destruct (coercivity_scales_with_h_factor 2459 h_loop b_loop)
    as (hp & hm & ip & im & H1 & H2 & H3 & H4 & _).
  - reflexivity.
  - reflexivity.
  - exists hp, hm, ip, im. auto.
Defined.

Lemma remanence_at_scaled (k : Q) (h h' b : list Q) (i : nat) :
  ~ k == 0 -> Forall2 (proportional k) h h' ->
  res_rel_hetero
    (fun oz oz' => match oz, oz' with
                   | Some z, Some z' => z' == z
                   | None, None => True
                   | _, _ => False
                   end)
    (remanence_at h b i) (remanence_at h' b i).
Proof.
  intros Hk Fh. unfold remanence_at.
  eapply bind_rel; [apply (getitem_proportional k _ _ i Fh)|].
  intros hi hi' Hhi.
  eapply bind_rel; [apply (getitem_proportional k _ _ (i + 1) Fh)|].
  intros hi1 hi1' Hhi1.
  rewrite !zero_between, (Qeq_bool_swap hi hi1), (Qeq_bool_swap hi' hi1').
  rewrite (product_test_scaled k hi hi1 hi' hi1' Hk Hhi Hhi1).
  rewrite (equality_test_scaled k hi hi1 hi' hi1' Hk Hhi Hhi1).
  unfold proportional in Hhi, Hhi1.
  destruct (Qle_bool (hi * hi1) 0); [|exact I].
  destruct (Qeq_bool hi hi1) eqn:N; cbn [negb]; [exact I|].
  apply Qeq_bool_false in N.
  assert (D : ~ hi1 - hi == 0) by (intros Z; apply N; lra).
  assert (D' : ~ hi1' - hi' == 0).
  { rewrite Hhi, Hhi1. intros Z.
    assert (Z' : k * (hi1 - hi) == 0) by lra.
    apply Qmult_integral in Z'. destruct Z'; contradiction. }
  destruct (getitem b i) as [bi|e]; cbn [bind]; [|reflexivity].
  destruct (getitem b (i + 1)) as [bi1|e]; cbn [bind]; [|reflexivity].
  rewrite !true_divide_nonzero by assumption. cbn [bind].
  cbv beta iota delta [res_rel_hetero].
  rewrite Hhi, Hhi1. field.
  split; [exact D|].
  intros Z. apply D'. rewrite Hhi, Hhi1. exact Z.
Qed.

Lemma remanence_loop_scaled (k : Q) (h h' b : list Q) :
  ~ k == 0 -> Forall2 (proportional k) h h' ->
  forall range zs zs',
    Forall2 (fun z z' => z' == z) zs zs' ->
    res_rel_hetero (Forall2 (fun z z' => z' == z))
                   (remanence_loop h b range zs) (remanence_loop h' b range zs').
Proof.
  intros Hk Fh.
  induction range as [|i range IH]; intros zs zs' F; [exact F|].
  cbn [remanence_loop].
  eapply bind_rel; [apply (remanence_at_scaled k); assumption|].
  intros oz oz' R. apply IH.
  destruct oz as [z|], oz' as [z'|]; try contradiction; [|exact F].
  apply Forall2_app; [exact F | constructor; [exact R | constructor]].
Qed.

Lemma argmin_from_proportional (c : Q) (v v' : list Q) :
  0 < c -> Forall2 (proportional c) v v' ->
  forall i best best' besti,
    best' == c * best ->
    argmin_from v' i best' besti = argmin_from v i best besti.
Proof.
  intros Hc. induction 1 as [|x x' v v' Hx F IH];
    intros i best best' besti Hb; [reflexivity|].
  cbn [argmin_from].
  rewrite (Qltb_scaled c x best x' best' Hc Hx Hb).
  destruct (Qltb x best); apply IH; assumption.
Qed.

Lemma np_argmin_scaled (k : Q) (h : list Q) :
  ~ k == 0 ->
  np_argmin (np_abs (scaled_by k h)) = np_argmin (np_abs h).
Proof.
  intros Hk.
  assert (Hc : 0 < Qabs k).
  { destruct (Q_dec 0 (Qabs k)) as [[L|L]|E]; [exact L| |].
    - pose proof (Qabs_nonneg k). lra.
    - exfalso. apply Hk. revert E. apply Qabs_case; intros; lra. }
  assert (F : Forall2 (proportional (Qabs k)) (np_abs h) (np_abs (scaled_by k h))).
  { induction h as [|x h IH]; simpl; constructor; [|exact IH].
    unfold proportional. apply Qabs_Qmult. }
  destruct F as [|x x' v v' Hx F]; [reflexivity|].
  cbn [np_argmin]. f_equal.
  now apply (argmin_from_proportional (Qabs k)).
Qed.

(** X16.  The remanence does not depend on the conversion factor: for
    any non-zero [h_factor] both remanence routines return, on
    [h_values = h_factor * currents], the values they return on the
    currents themselves. *)
Theorem remanence_is_independent_of_h_factor
        (h_factor : Q) (currents fluxes : list Q) :
  ~ h_factor == 0 -> length currents = length fluxes ->
  (exists b_plus b_minus c_plus c_minus,
      find_main_hysteresis_crossings (scaled_by h_factor currents) fluxes
      = Ok (b_plus, b_minus) /\
      find_main_hysteresis_crossings currents fluxes = Ok (c_plus, c_minus) /\
      b_plus == c_plus /\ b_minus == c_minus) /\
  res_rel_hetero (fun r r' => fst r' == fst r /\ snd r' == snd r)
                 (find_remanence currents fluxes)
                 (find_remanence (scaled_by h_factor currents) fluxes).
Proof.
  intros Hk L. split.
  - assert (One : 0 < 1) by reflexivity.
    pose proof (classify_scaled h_factor 1 currents
                  (scaled_by h_factor currents) fluxes fluxes Hk One
                  (proportional_scaled_by h_factor currents)
                  (proportional_same fluxes)) as R.
    unfold find_main_hysteresis_crossings.
    destruct (detect_crossings_returns currents fluxes L) as (cs & Hcs).
    assert (Hc : classify currents fluxes = Ok (assign_branches cs))
      by (unfold classify; now rewrite Hcs).
    rewrite Hc in R |- *.
    destruct (classify (scaled_by h_factor currents) fluxes)
      as [[b_plus b_minus]|e]; simpl in R; [|contradiction].
    destruct R as [R1 R2].
    destruct (assign_branches cs) as [c_plus c_minus]. cbn [fst snd] in *.
    exists b_plus, b_minus, c_plus, c_minus. repeat split; auto; lra.
  - unfold find_remanence, zero_crossings_of.
    replace (length (scaled_by h_factor currents)) with (length currents)
      by (unfold scaled_by; now rewrite length_map).
    eapply bind_rel.
    + apply (remanence_loop_scaled h_factor); [exact Hk| |constructor].
      apply proportional_scaled_by.
    + intros zs zs' F.
      destruct F as [|z0 z0' t t' E0 F].
      * rewrite (np_argmin_scaled h_factor currents Hk).
        destruct (np_argmin (np_abs currents)) as [k|e]; cbn [bind];
          [|reflexivity].
        destruct (getitem fluxes k) as [v|e]; cbn [bind]; [|reflexivity].
        simpl. split; reflexivity.
      * destruct F as [|z1 z1' t t' E1 F]; simpl; split; assumption.
Qed.

Lemma remanence_is_independent_of_h_factor_witness :
  exists b_plus b_minus c_plus c_minus,
    find_main_hysteresis_crossings (scaled_by 2586 h_example) b_example
    = Ok (b_plus, b_minus) /\
    find_main_hysteresis_crossings h_example b_example = Ok (c_plus, c_minus) /\
    b_plus == c_plus /\ b_minus == c_minus.
Proof.
  refine (proj1 (remanence_is_independent_of_h_factor
                   2586 h_example b_example _ eq_refl)).
  intros Z. discriminate Z.
Defined.

(* ================================================================= *)
(** ** Series of unequal length in the classifiers *)











(* ================================================================= *)
(** ** More on the negation script *)

Lemma negate_line_without_tab (line : str) :
  contains [tab] line = false -> negate_line line = line.
Proof.
  intros H. unfold negate_line. rewrite H.
  now rewrite orb_true_r.
Qed.

Lemma contains_tab_app (s1 s2 : str) :
  contains [tab] (s1 ++ s2) = false ->
  contains [tab] s1 = false /\ contains [tab] s2 = false.
Proof.
  induction s1 as [|c s1 IH]; intros H.
  - split; [reflexivity | exact H].
  - rewrite <- app_comm_cons in H. cbn [contains starts_with] in H |- *.
    apply orb_false_iff in H. destruct H as [H1 H2].
    destruct (IH H2) as [I1 I2]. rewrite H1, I1. split; [reflexivity | exact I2].
Qed.

Lemma lines_without_tab (ls : list str) :
  contains [tab] (concat ls) = false ->
  map negate_line ls = ls.
Proof.
  induction ls as [|l ls IH]; intros H; [reflexivity|].
  cbn [concat] in H. apply contains_tab_app in H. destruct H as [H1 H2].
  cbn [map]. now rewrite (negate_line_without_tab l H1), IH.
Qed.

(** X18.  The script rewrites a file line by line: the lines of the file
    after the run are the transformed lines of the file before the run,
    one for one and in order, so no line is added, removed or moved. *)
Theorem negate_dataset_line_by_line (content : str) :
  readlines (negate_dataset content) = map negate_line (readlines content) /\
  length (readlines (negate_dataset content)) = length (readlines content).
Proof.
  destruct (readlines_file_lines content) as [W _].
  assert (E : readlines (negate_dataset content)
              = map negate_line (readlines content)).
  { unfold negate_dataset, writelines.
    apply readlines_concat, negate_file_lines, W. }
  split; [exact E|]. now rewrite E, length_map.
Qed.

(** A text that contains no tab character is handed to [writelines] as
    it was read. *)
Lemma negate_dataset_tab_free (content : str) :
  contains [tab] content = false -> negate_dataset content = content.
Proof.
  intros H. destruct (readlines_file_lines content) as [_ C].
  unfold negate_dataset, writelines.
  rewrite lines_without_tab; [exact C|]. now rewrite C.
Qed.

(* ================================================================= *)
(** ** Binary64: order and rounding *)



Lemma fle_finite (s t : bool) (m n : Q) :
  fle (Finite s m) (Finite t n) = true <-> signed s m <= signed t n.
Proof.
  unfold fle, fcompare. rewrite Qle_alt.
  destruct (signed s m ?= signed t n); split; intros H;
    try reflexivity; try discriminate; try congruence.
Qed.












(** [scale2] is the multiplication by a power of two. *)
Lemma scale2_spec (x : Q) (e : Z) : scale2 x e == x * 2 ^ e.
Proof.
  unfold scale2. destruct (0 <=? e)%Z eqn:E.
  - apply Z.leb_le in E.
    rewrite <- (Zpower_Qpower 2 e E).
    unfold Qeq, Qmult, inject_Z. cbn [Qnum Qden].
    rewrite Pos.mul_1_r. reflexivity.
  - apply Z.leb_gt in E.
    assert (P : (0 < 2 ^ (- e))%Z) by (apply Z.pow_pos_nonneg; lia).
    replace e with (- - e)%Z at 2 by lia.
    rewrite Qpower_opp, <- (Zpower_Qpower 2 (- e)) by lia.
    destruct (2 ^ (- e))%Z as [|q|q] eqn:Eq; try lia.
    unfold Qeq, Qmult, Qinv, inject_Z. cbn [Qnum Qden Z.to_pos].
    rewrite Pos2Z.inj_mul. ring.
Qed.

Lemma pow2_pos (e : Z) : 0 < 2 ^ e.
Proof. apply Qpower_0_lt. reflexivity. Qed.

Lemma pow2_add (a b : Z) : 2 ^ (a + b) == 2 ^ a * 2 ^ b.
Proof. apply Qpower_plus. discriminate. Qed.




Lemma round_half_even_nonneg (x : Q) : 0 <= x -> (0 <= round_half_even x)%Z.
Proof.
  intros H. unfold round_half_even.
  assert (D : (0 <= Qnum x / Z.pos (Qden x))%Z).
  { apply Z.div_pos; [|apply Pos2Z.is_pos].
    destruct x as [n d]. unfold Qle in H. simpl in H |- *. lia. }
  destruct (2 * (Qnum x mod Z.pos (Qden x)) ?= Z.pos (Qden x))%Z; try lia.
  destruct (Z.even _); lia.
Qed.


(** Rounding keeps a magnitude non-negative. *)
Lemma round_binary64_nonneg (m v : Q) :
  0 <= m -> round_binary64 m = Some v -> 0 <= v.
Proof.
  intros Hm. unfold round_binary64.
  destruct (Qnum m =? 0)%Z; [intros E; injection E as <-; apply Qle_refl|].
  cbv zeta.
  destruct (Qle_bool _ _); [discriminate|].
  intros E. injection E as <-. rewrite scale2_spec.
  apply Qmult_le_0_compat; [|apply Qlt_le_weak, pow2_pos].
  change 0 with (inject_Z 0). rewrite <- Zle_Qle.
  apply round_half_even_nonneg. rewrite scale2_spec.
  apply Qmult_le_0_compat; [exact Hm | apply Qlt_le_weak, pow2_pos].
Qed.

(** Every binary64 value is a whole number of [tiny]. *)
Lemma binary64_on_grid (s : bool) (m : Q) :
  is_binary64 (Finite s m) = true ->
  0 <= m /\ exists k : Z, m == inject_Z k * tiny.
Proof.
  unfold is_binary64. intros H. apply andb_true_iff in H.
  destruct H as [H0 H]. apply Qle_bool_iff in H0. split; [exact H0|].
  unfold round_binary64 in H.
  destruct (Qnum m =? 0)%Z eqn:Z0.
  - apply Z.eqb_eq in Z0. exists 0%Z.
    destruct m as [n d]. simpl in Z0. subst n. reflexivity.
  - cbv zeta in H.
    set (e := Z.max (floor_log2 m - 52) (-1074)) in *.
    set (M := round_half_even (scale2 m (- e))) in *.
    destruct (Qle_bool _ _); [discriminate|].
    apply Qeq_bool_iff in H. rewrite scale2_spec in H.
    exists (M * 2 ^ (e + 1074))%Z.
    rewrite <- H. unfold tiny.
    rewrite inject_Z_mult, Zpower_Qpower by (unfold e; lia).
    change (inject_Z 2) with 2.
    rewrite <- Qmult_assoc, <- pow2_add.
    replace (e + 1074 + -1074)%Z with e by lia. reflexivity.
Qed.




(* ================================================================= *)
(** ** The classifiers in binary64 *)
































(* ================================================================= *)
(** ** The two main branches *)




(* ================================================================= *)
(** ** Degenerate inputs in binary64 *)






(** The all-positive, rising series [h_minute] is classified as a loop:
    the products of its adjacent values underflow to 0.0, the test of the
    detection loop passes, and the classifier answers (11.0, -1.0). *)
Lemma minute_series_has_branches :
  Forall (fun x => flt fzero x = true) h_minute /\
  exists plus minus,
    Geometry64.find_main_hysteresis_crossings h_minute b_minute
    = Ok (plus, minus) /\
    feq plus (of_Q 11) = true /\ feq minus (of_Q (-1)) = true.
Proof.
  split; [repeat (constructor; [vm_compute; reflexivity|]); constructor|].
  eexists. eexists. split; [vm_compute; reflexivity|].
  split; vm_compute; reflexivity.
Qed.



(* ================================================================= *)
(** ** The divisor of the interpolation *)





Lemma fne_sym (x y : pyfloat) : fne x y = fne y x.
Proof.
  unfold fne, feq.
  destruct x as [s m|s|], y as [t n|t|]; try reflexivity;
    try (destruct s, t; reflexivity).
  simpl. rewrite <- (Qcompare_antisym (signed s m) (signed t n)).
  now destruct (signed s m ?= signed t n).
Qed.




(* ================================================================= *)
(** ** The Shoelace area in binary64 *)







(** In binary64 the sum of the routine without a guard does not cancel on
    two vertices: for (0.1, 0.7) and (0.3, 0.2) it returns 2^-57, about
    6.9e-18, where the guarded routine returns 0.0. *)
Lemma two_vertices_leave_a_residue :
  exists r,
    Geometry64.calculate_area_shoelace h_pair b_pair = Ok r /\
    flt fzero r = true /\
    feq r (of_Q (2 ^ (-57))) = true /\
    Geometry64.calculate_hysteresis_area h_pair b_pair = Ok fzero.
Proof.
  eexists. split; [vm_compute; reflexivity|].
  repeat split; vm_compute; reflexivity.
Qed.

(** C7, as the code has it.  The guarded routine returns 0.0 as soon as
    either series has fewer than three values.  The routine without a
    guard returns 0.0 on the empty polygon; on one or two vertices its
    signed sum cancels in exact arithmetic, where it returns 0 as well. *)
Theorem area_of_fewer_than_three_vertices :
  (forall h b : list pyfloat,
      (length h < 3)%nat \/ (length b < 3)%nat ->
      Geometry64.calculate_hysteresis_area h b = Ok fzero) /\
  (forall b : list pyfloat,
      Geometry64.calculate_area_shoelace [] b = Ok fzero) /\
  (forall h b : list Q,
      length h = length b -> (length h < 3)%nat ->
      calculate_hysteresis_area h b = Ok 0 /\
      exists r, calculate_area_shoelace h b = Ok r /\ r == 0).
Proof.
  split; [|split].
  - intros h b H. unfold Geometry64.calculate_hysteresis_area.
    assert (G : (length h <? 3)%nat || (length b <? 3)%nat = true).
    { apply orb_true_iff. destruct H as [H|H]; [left|right];
        now apply Nat.ltb_lt. }
    now rewrite G.
  - intros b. reflexivity.
  - exact small_polygon_area_exact.
Qed.

Lemma area_of_fewer_than_three_vertices_witness :
  Geometry64.calculate_hysteresis_area h_pair b_pair = Ok fzero /\
  exists r, calculate_area_shoelace [3; 5] [7; 11] = Ok r /\ r == 0.
Proof.
  split.
  - apply (proj1 area_of_fewer_than_three_vertices h_pair b_pair).
    left. simpl. lia.
  - apply (proj2 (proj2 area_of_fewer_than_three_vertices) [3; 5] [7; 11]).
    + reflexivity.
    + simpl. lia.
Defined.

(** X8.  In binary64 the area routine with the length guard and the one
    without return the same float, or raise alike, whenever both series
    have at least three values; on shorter series the guard returns 0.0
    where the sum of the other routine can leave a residue.  In exact
    arithmetic the two routines return the same area on all series of
    equal length. *)
Theorem area_routines_agree :
  (forall h b : list pyfloat,
      (3 <= length h)%nat -> (3 <= length b)%nat ->
      Geometry64.calculate_hysteresis_area h b
      = Geometry64.calculate_area_shoelace h b) /\
  (exists r,
      Geometry64.calculate_hysteresis_area h_pair b_pair = Ok fzero /\
      Geometry64.calculate_area_shoelace h_pair b_pair = Ok r /\
      feq r fzero = false) /\
  (forall h b : list Q,
      length h = length b ->
      same_value (calculate_hysteresis_area h b) (calculate_area_shoelace h b)).
Proof.
  split; [|split].
  - intros h b Hh Hb. unfold Geometry64.calculate_hysteresis_area.
    apply Nat.ltb_ge in Hh, Hb. rewrite Hh, Hb. reflexivity.
  - eexists. split; [vm_compute; reflexivity|].
    split; vm_compute; reflexivity.
  - exact area_routines_agree_exact.
Qed.

Lemma area_routines_agree_witness :
  Geometry64.calculate_hysteresis_area h_tenths b_tenths
  = Geometry64.calculate_area_shoelace h_tenths b_tenths /\
  same_value (calculate_hysteresis_area (tri_h1 ++ tri_h2) (tri_b1 ++ tri_b2))
             (calculate_area_shoelace (tri_h1 ++ tri_h2) (tri_b1 ++ tri_b2)).
Proof.
  split.
  - apply (proj1 area_routines_agree h_tenths b_tenths); simpl; lia.
  - apply (proj2 (proj2 area_routines_agree)
             (tri_h1 ++ tri_h2) (tri_b1 ++ tri_b2)).
    reflexivity.
Defined.

(* ================================================================= *)
(** ** The two crossing tests in binary64 *)

(** A product of a finite value that is not above zero and one that is
    not below zero is not above zero. *)
Lemma product_across_zero (x y : pyfloat) :
  finite_binary64 x = true -> finite_binary64 y = true ->
  fle x fzero = true -> fle fzero y = true ->
  fle (fmul x y) fzero = true.
Proof.
  destruct x as [s m|s|], y as [t n|t|]; try discriminate.
  intros Bx By Hx Hy. simpl in Bx, By.
  destruct (binary64_on_grid s m Bx) as [Pm _].
  destruct (binary64_on_grid t n By) as [Pn _].
  apply fle_finite in Hx, Hy. simpl in Hx, Hy.
  assert (Pmn : 0 <= m * n) by now apply Qmult_le_0_compat.
  unfold fmul, to_binary64.
  destruct (Qeq_bool (m * n) 0) eqn:Z.
  - apply Qeq_bool_iff in Z.
    assert (Z0 : (Qnum (m * n) =? 0)%Z = true).
    { apply Z.eqb_eq. unfold Qeq in Z. simpl in Z |- *. lia. }
    unfold round_binary64. rewrite Z0.
    apply fle_finite. destruct (xorb s t); simpl; lra.
  - apply Qeq_bool_false in Z.
    assert (M : 0 < m /\ 0 < n).
    { split.
      - destruct (Qlt_le_dec 0 m) as [L|L]; [exact L|].
        exfalso. apply Z. assert (E : m == 0) by lra. rewrite E. ring.
      - destruct (Qlt_le_dec 0 n) as [L|L]; [exact L|].
        exfalso. apply Z. assert (E : n == 0) by lra. rewrite E. ring. }
    destruct M as [M N].
    assert (S : s = true) by (destruct s; [reflexivity | simpl in Hx; lra]).
    assert (T : t = false) by (destruct t; [simpl in Hy; lra | reflexivity]).
    subst s t. cbn [xorb].
    destruct (round_binary64 (m * n)) as [v|] eqn:R; [|reflexivity].
    pose proof (round_binary64_nonneg _ _ Pmn R) as Pv.
    apply fle_finite. simpl. lra.
Qed.

Lemma fmul_comm_le (x y : pyfloat) :
  fle (fmul x y) fzero = fle (fmul y x) fzero.
Proof.
  destruct x as [s m|s|], y as [t n|t|]; simpl; try reflexivity;
    rewrite ?(xorb_comm s t); try reflexivity.
  unfold round_binary64.
  assert (Q1 : Qnum (m * n) = Qnum (n * m)) by (simpl; ring).
  assert (Q2 : Qden (m * n) = Qden (n * m)) by (simpl; apply Pos.mul_comm).
  destruct (m * n) as [a b], (n * m) as [c d]. simpl in Q1, Q2. now subst.
Qed.

(** On finite values the test of [find_remanence] implies the test of the
    classifiers. *)
Lemma straddles_zero_sign_change (h : list pyfloat) (i : nat) :
  Forall (fun x => finite_binary64 x = true) h ->
  straddles_zero h i = true -> sign_change64 h i = true.
Proof.
  intros F. unfold straddles_zero, sign_change64. rewrite Forall_forall in F.
  destruct (nth_error h i) as [x|] eqn:Ex; [|discriminate].
  destruct (nth_error h (i + 1)) as [y|] eqn:Ey; [|discriminate].
  apply nth_error_In in Ex, Ey.
  intros H. apply andb_true_iff in H. destruct H as [H N].
  rewrite fne_sym in N. rewrite N, andb_true_r.
  apply orb_true_iff in H. destruct H as [H|H];
    apply andb_true_iff in H; destruct H as [H1 H2].
  - apply product_across_zero; auto.
  - rewrite fmul_comm_le. apply product_across_zero; auto.
Qed.

(** X14.  In exact arithmetic the two remanence scripts detect the same
    crossings of H: [find_remanence] and [find_main_hysteresis_crossings]
    end alike on every input, with as many crossings and, one for one and
    in order, equal interpolated flux values.  In binary64 the test of
    [find_remanence] still implies the test of the classifier on finite
    values, but not the other way round: on the all-positive series
    [h_minute] the products underflow, the classifier records two
    crossings and [find_remanence] none. *)
Theorem remanence_scripts_see_the_same_crossings :
  (forall h b : list Q,
      res_rel_hetero (Forall2 same_crossing)
                     (zero_crossings_of h b) (detect_crossings h b) /\
      (forall zs cs,
          zero_crossings_of h b = Ok zs -> detect_crossings h b = Ok cs ->
          length zs = length cs)) /\
  (forall (h : list pyfloat) (i : nat),
      Forall (fun x => finite_binary64 x = true) h ->
      straddles_zero h i = true -> sign_change64 h i = true) /\
  (exists cs,
      Geometry64.zero_crossings_of h_minute b_minute = Ok [] /\
      Geometry64.detect_crossings h_minute b_minute = Ok cs /\
      length cs = 2%nat).
Proof.
  split; [exact remanence_crossings_exact|].
  split; [exact straddles_zero_sign_change|].
  eexists. split; [vm_compute; reflexivity|].
  split; [vm_compute; reflexivity | reflexivity].
Qed.

Lemma remanence_scripts_see_the_same_crossings_witness :
  (exists zs cs,
      zero_crossings_of h_example b_example = Ok zs /\
      detect_crossings h_example b_example = Ok cs /\
      zs <> [] /\ length zs = length cs) /\
  sign_change64 h_example64 1 = true.
Proof.
  split.
  - destruct (zero_crossings_of h_example b_example) as [zs|e] eqn:Hz;
      [|vm_compute in Hz; discriminate].
    destruct (detect_crossings h_example b_example) as [cs|e] eqn:Hc;
      [|vm_compute in Hc; discriminate].
    exists zs, cs. repeat split.
    + intros ->. vm_compute in Hz. discriminate.
    + exact (proj2 (proj1 remanence_scripts_see_the_same_crossings
                      h_example b_example) zs cs Hz Hc).
  - apply (proj1 (proj2 remanence_scripts_see_the_same_crossings)
             h_example64 1%nat).
    + repeat (constructor; [vm_compute; reflexivity|]); constructor.
    + vm_compute. reflexivity.
Defined.

(* ================================================================= *)
(** ** The characters of a number *)

Lemma lstrip_with_Forall (P : ascii -> Prop) (space : ascii -> bool) (s : str) :
  (forall c, space c = true -> P c) ->
  Forall P (lstrip_with space s) -> Forall P s.
Proof.
  intros Hs. induction s as [|c s IH]; simpl; [auto|].
  destruct (space c) eqn:E; [|auto].
  intros H. constructor; auto.
Qed.

Lemma strip_with_Forall (P : ascii -> Prop) (space : ascii -> bool) (s : str) :
  (forall c, space c = true -> P c) ->
  Forall P (strip_with space s) -> Forall P s.
Proof.
  intros Hs H. unfold strip_with, rstrip_with in H.
  apply (lstrip_with_Forall P space s Hs).
  apply Forall_rev in H. rewrite rev_involutive in H.
  apply (lstrip_with_Forall P space _ Hs) in H.
  apply Forall_rev in H. now rewrite rev_involutive in H.
Qed.

Lemma remove_underscores_Forall (P : ascii -> Prop) (s : str) :
  P underscore ->
  forall prev t, remove_underscores prev s = Some t -> Forall P t -> Forall P s.
Proof.
  intros Pu. induction s as [|c s IH]; simpl; intros prev t H Ht; [constructor|].
  destruct (Ascii.eqb c underscore) eqn:E.
  - apply Ascii.eqb_eq in E. subst c.
    destruct (is_digit prev); [|discriminate].
    constructor; [exact Pu | eauto].
  - destruct (Ascii.eqb prev underscore && negb (is_digit c)); [discriminate|].
    destruct (remove_underscores c s) as [t'|] eqn:R; [|discriminate].
    simpl in H. injection H as <-.
    inversion Ht; subst. constructor; eauto.
Qed.

Lemma take_sign_Forall (P : ascii -> Prop) (t body : str) (negative : bool) :
  P (ascii_of_nat 45) -> P (ascii_of_nat 43) ->
  take_sign t = (negative, body) -> Forall P body -> Forall P t.
Proof.
  intros Pm Pp. unfold take_sign. destruct t as [|c t]; intros H Hb.
  - constructor.
  - destruct (Ascii.eqb c (ascii_of_nat 45)) eqn:E1.
    + apply Ascii.eqb_eq in E1. subst c. injection H as _ <-.
      now constructor.
    + destruct (Ascii.eqb c (ascii_of_nat 43)) eqn:E2.
      * apply Ascii.eqb_eq in E2. subst c. injection H as _ <-.
        now constructor.
      * injection H as _ <-. exact Hb.
Qed.

Lemma take_digits_Forall (P : ascii -> Prop) (s : str) :
  (forall c, is_digit c = true -> P c) ->
  forall ds r, take_digits s = (ds, r) -> Forall P r -> Forall P s.
Proof.
  intros Pd. induction s as [|c s IH]; simpl; intros ds r H Hr.
  - constructor.
  - unfold digit_of in H. destruct (is_digit c) eqn:E.
    + destruct (take_digits s) as [ds' r'] eqn:T.
      injection H as _ <-. constructor; eauto.
    + injection H as _ <-. exact Hr.
Qed.

Lemma str_eqb_eq (s t : str) : str_eqb s t = true -> s = t.
Proof.
  revert t. induction s as [|c s IH]; intros [|d t]; simpl;
    try discriminate; [reflexivity|].
  intros H. apply andb_true_iff in H. destruct H as [H1 H2].
  apply Ascii.eqb_eq in H1. subst d. f_equal. auto.
Qed.

(** A text whose lower case is [word] is made of the letters of [word]. *)
Lemma lower_word_Forall (P : ascii -> Prop) (word body : str) :
  (forall c, In (lower_char c) word -> P c) ->
  lower body = word -> Forall P body.
Proof.
  intros Pw E. rewrite Forall_forall. intros c Hc. apply Pw.
  rewrite <- E. unfold lower. now apply in_map.
Qed.

Lemma numeric_char_letters :
  forall c, In (lower_char c) (lit "infinity") \/ In (lower_char c) (lit "nan") ->
            numeric_char c = true.
Proof.
  intros c H. unfold numeric_char.
  apply orb_true_iff. right. apply existsb_exists.
  exists (lower_char c). split; [|apply Ascii.eqb_refl].
  cbn in H |- *. intuition.
Qed.

Lemma numeric_char_exponent :
  forall c, Ascii.eqb (lower_char c) (ascii_of_nat 101) = true ->
            numeric_char c = true.
Proof.
  intros c H. unfold numeric_char.
  apply orb_true_iff. right. apply existsb_exists.
  exists (lower_char c). split; [|apply Ascii.eqb_refl].
  apply Ascii.eqb_eq in H. rewrite H. cbn. intuition.
Qed.

Lemma numeric_char_digit :
  forall c, is_digit c = true -> numeric_char c = true.
Proof.
  intros c H. unfold numeric_char. rewrite H. now rewrite orb_true_r.
Qed.

Lemma numeric_char_space :
  forall c, is_c_space c = true -> numeric_char c = true.
Proof.
  intros c H. unfold numeric_char. now rewrite H.
Qed.

Lemma take_exponent_Forall (r : str) (e : Z) :
  take_exponent r = Some e -> Forall (fun c => numeric_char c = true) r.
Proof.
  unfold take_exponent. destruct r as [|c r]; intros H; [constructor|].
  destruct (Ascii.eqb (lower_char c) (ascii_of_nat 101)) eqn:E; [|discriminate].
  constructor; [now apply numeric_char_exponent|].
  destruct (take_sign r) as [negative r'] eqn:S.
  destruct (take_digits r') as [ds rest] eqn:T.
  destruct ds as [|d ds]; [discriminate|].
  destruct rest; [|discriminate].
  eapply take_sign_Forall; [| |exact S|]; try reflexivity.
  eapply take_digits_Forall; [|exact T|constructor].
  apply numeric_char_digit.
Qed.

Lemma parse_number_Forall (body : str) (q : Q) :
  parse_number body = Some q -> Forall (fun c => numeric_char c = true) body.
Proof.
  unfold parse_number.
  destruct (take_digits body) as [ip r1] eqn:T1.
  intros H.
  eapply take_digits_Forall; [apply numeric_char_digit | exact T1 |].
  destruct r1 as [|c r].
  - constructor.
  - destruct (Ascii.eqb c (ascii_of_nat 46)) eqn:E.
    + apply Ascii.eqb_eq in E. subst c.
      destruct (take_digits r) as [fp r2] eqn:T2.
      constructor; [reflexivity|].
      eapply take_digits_Forall; [apply numeric_char_digit | exact T2 |].
      destruct (ip ++ fp); [discriminate|].
      destruct (take_exponent r2) as [e|] eqn:X; [|discriminate].
      eapply take_exponent_Forall; eauto.
    + destruct (ip ++ []); [discriminate|].
      destruct (take_exponent (c :: r)) as [e|] eqn:X; [|discriminate].
      eapply take_exponent_Forall; eauto.
Qed.

(** Every character of a text that [float] accepts is a character of a
    number. *)
Lemma float_of_str_chars (s : str) (x : pyfloat) :
  float_of_str s = Some x -> Forall (fun c => numeric_char c = true) s.
Proof.
  unfold float_of_str, decimal_of_str. intros H.
  apply (strip_with_Forall _ is_c_space); [apply numeric_char_space|].
  destruct (remove_underscores zero (strip_with is_c_space s)) as [t|] eqn:R;
    [|discriminate].
  eapply remove_underscores_Forall; [reflexivity | exact R |].
  destruct (take_sign t) as [negative body] eqn:S.
  eapply take_sign_Forall; [| |exact S|]; try reflexivity.
  destruct (member (lower body) [lit "inf"; lit "infinity"]) eqn:M.
  - unfold member in M. cbn [existsb] in M.
    apply orb_true_iff in M. destruct M as [M|M].
    + apply str_eqb_eq in M.
      eapply lower_word_Forall; [|exact M].
      intros c Hc. apply numeric_char_letters. left.
      cbn in Hc |- *. intuition.
    + rewrite orb_false_r in M. apply str_eqb_eq in M.
      eapply lower_word_Forall; [|exact M].
      intros c Hc. apply numeric_char_letters. now left.
  - destruct (str_eqb (lower body) (lit "nan")) eqn:N.
    + apply str_eqb_eq in N.
      eapply lower_word_Forall; [|exact N].
      intros c Hc. apply numeric_char_letters. now right.
    + destruct (parse_number body) as [q|] eqn:P; [|discriminate].
      eapply parse_number_Forall; eauto.
Qed.

Lemma numeric_char_lower :
  forall c, numeric_char c = true ->
            lower_char c <> "c"%char /\ lower_char c <> "/"%char /\
            lower_char c <> "x"%char.
Proof.
  intros c. destruct c as [[|] [|] [|] [|] [|] [|] [|] [|]];
    vm_compute; intros H; try discriminate H;
    repeat split; discriminate.
Qed.

(** No header keyword occurs in a text that [float] accepts. *)
Lemma no_keyword_in_number (s : str) (x : pyfloat) :
  float_of_str s = Some x ->
  existsb (fun keyword => contains keyword (lower s))
          [lit "current"; lit "i/a"] = false /\
  existsb (fun keyword => contains keyword (lower s))
          [lit "flux"; lit "b/mt"] = false.
Proof.
  intros H. apply float_of_str_chars in H. rewrite Forall_forall in H.
  assert (K : forall k c, In c k ->
             (c = "c"%char \/ c = "/"%char \/ c = "x"%char) ->
             contains k (lower s) = false).
  { intros k c Hk Hc. apply (contains_missing_char k (lower s) c Hk).
    intros Hin. unfold lower in Hin. apply in_map_iff in Hin.
    destruct Hin as (d & Hd & Hin).
    destruct (numeric_char_lower d (H d Hin)) as (N1 & N2 & N3).
    destruct Hc as [ -> | [ -> | -> ] ]; contradiction. }
  split; cbn [existsb].
  - rewrite (K (lit "current") "c"%char), (K (lit "i/a") "/"%char);
      cbn; intuition.
  - rewrite (K (lit "flux") "x"%char), (K (lit "b/mt") "/"%char);
      cbn; intuition.
Qed.

(* ================================================================= *)
(** ** The negation script on numeric lines *)

Lemma contains_char_false (c : ascii) (s : str) :
  contains [c] s = false <-> Forall (fun d => Ascii.eqb d c = false) s.
Proof.
  induction s as [|d s IH]; cbn [contains starts_with].
  - split; [constructor | reflexivity].
  - rewrite orb_false_iff, IH, andb_true_r.
    rewrite (Ascii.eqb_sym c d).
    split.
    + intros [H1 H2]. now constructor.
    + intros H. inversion H. now split.
Qed.

Lemma contains_char_true (c : ascii) (s : str) :
  In c s -> contains [c] s = true.
Proof.
  intros H. destruct (contains [c] s) eqn:E; [reflexivity|].
  apply contains_char_false in E. rewrite Forall_forall in E.
  specialize (E c H). now rewrite Ascii.eqb_refl in E.
Qed.

Lemma lstrip_with_incl (space : ascii -> bool) (s : str) :
  incl (lstrip_with space s) s.
Proof.
  induction s as [|c s IH]; simpl; [apply incl_refl|].
  destruct (space c); [now apply incl_tl | apply incl_refl].
Qed.

Lemma strip_incl (s : str) : incl (strip s) s.
Proof.
  unfold strip, strip_with, rstrip_with. intros c H.
  apply in_rev in H. apply lstrip_with_incl in H. apply in_rev in H.
  now apply lstrip_with_incl in H.
Qed.

(** The fields of a line whose stripped text is two numbers with a tab
    between them. *)
Lemma fields_of_numbers (line p0 p1 : str) (x y : pyfloat) :
  strip line = p0 ++ tab :: p1 ->
  contains [tab] p0 = false -> contains [tab] p1 = false ->
  float_of_str p0 = Some x -> float_of_str p1 = Some y ->
  fields_of line = Some (p0, p1).
Proof.
  intros Hs T0 T1 Hx Hy. unfold fields_of. rewrite Hs.
  assert (C : contains [tab] line = true).
  { apply contains_char_true, strip_incl. rewrite Hs.
    apply in_or_app. right. now left. }
  rewrite C.
  assert (N : match p0 ++ tab :: p1 with [] => true | _ :: _ => false end = false)
    by (destruct p0; reflexivity).
  rewrite N. cbn [negb orb].
  apply contains_char_false in T0, T1.
  rewrite (split_at_sep tab p0 p1 T0), (split_no_sep tab p1 T1).
  destruct (no_keyword_in_number p0 x Hx) as [K0 _].
  destruct (no_keyword_in_number p1 y Hy) as [_ K1].
  now rewrite K0, K1.
Qed.

Lemma universal_newlines_no_cr (s : str) : no_cr (universal_newlines s).
Proof.
  unfold no_cr.
  assert (G : forall n s, (length s <= n)%nat ->
             Forall (fun c => Ascii.eqb c cr = false) (universal_newlines s)).
  { induction n as [|n IH]; intros [|c t] L; simpl in L |- *;
      try constructor; try lia.
    - destruct (Ascii.eqb c cr) eqn:E.
      + destruct t as [|d t']; [repeat constructor|].
        destruct (Ascii.eqb d newline).
        * constructor; [reflexivity|]. apply IH. simpl in L. lia.
        * constructor; [reflexivity|]. apply IH. simpl in L |- *. lia.
      + constructor; [exact E|]. apply IH. lia. }
  exact (G (length s) s (le_n _)).
Qed.

Lemma universal_newlines_id (s : str) : no_cr s -> universal_newlines s = s.
Proof.
  induction 1 as [|c s Hc Hs IH]; [reflexivity|].
  cbn [universal_newlines]. rewrite Hc. now rewrite IH.
Qed.

Lemma plain_not_cr : forall c, plain c = true -> Ascii.eqb c cr = false.
Proof. by_enumeration. Qed.

Lemma formatted_line_no_cr (u v : pyfloat) : no_cr (formatted_line u v).
Proof.
  unfold no_cr, formatted_line.
  destruct (format3_plain u) as [Pu _]. destruct (format3_plain v) as [Pv _].
  apply Forall_app. split.
  - eapply Forall_impl; [|exact Pu]. apply plain_not_cr.
  - constructor; [reflexivity|]. apply Forall_app. split.
    + eapply Forall_impl; [|exact Pv]. apply plain_not_cr.
    + repeat constructor.
Qed.

Lemma negate_dataset_no_cr (content : str) :
  no_cr content -> no_cr (negate_dataset content).
Proof.
  intros H. unfold negate_dataset, writelines.
  destruct (readlines_file_lines content) as [_ C].
  assert (L : Forall no_cr (readlines content)).
  { rewrite <- C in H. unfold no_cr in H |- *.
    rewrite Forall_forall. intros l Hl.
    rewrite Forall_forall in H |- *. intros c Hc. apply H.
    apply in_concat. eauto. }
  unfold no_cr. rewrite Forall_forall. intros c Hc.
  apply in_concat in Hc. destruct Hc as (l' & Hl' & Hc).
  apply in_map_iff in Hl'. destruct Hl' as (l & <- & Hl).
  rewrite Forall_forall in L. specialize (L l Hl).
  destruct (negate_line_shape l) as [E|(u & v & E)]; rewrite E in Hc.
  - unfold no_cr in L. rewrite Forall_forall in L. now apply L.
  - pose proof (formatted_line_no_cr u v) as F.
    unfold no_cr in F. rewrite Forall_forall in F. now apply F.
Qed.

(** Two runs of the script on a stored file: the second run reads what the
    first has written, which has no carriage return left. *)
Lemma negate_file_twice (stored : str) :
  negate_file (negate_file stored)
  = negate_dataset (negate_dataset (universal_newlines stored)) /\
  (negate_file (negate_file stored) = stored ->
   universal_newlines stored = stored).
Proof.
  assert (E : negate_file (negate_file stored)
              = negate_dataset (negate_dataset (universal_newlines stored))).
  { unfold negate_file at 1. f_equal.
    apply universal_newlines_id. unfold negate_file.
    apply negate_dataset_no_cr, universal_newlines_no_cr. }
  split; [exact E|].
  intros H. apply universal_newlines_id. rewrite <- H, E.
  apply negate_dataset_no_cr, negate_dataset_no_cr, universal_newlines_no_cr.
Qed.

(** An infinity and a NaN are numeric fields, and the script writes them
    as they are spelt, not with three decimals. *)
Lemma special_values_are_not_decimals :
  strip line_special = lit "inf" ++ tab :: lit "nan" /\
  float_of_str (lit "inf") = Some (Infinite false) /\
  float_of_str (lit "nan") = Some NaN /\
  negate_line line_special = lit "-inf" ++ tab :: lit "nan" ++ [newline] /\
  three_decimals (lit "-inf") = false /\
  three_decimals (lit "nan") = false.
Proof.
  repeat split; vm_compute; reflexivity.
Qed.

(** C9, as the code has it.  A line whose stripped text is two fields
    without a tab, separated by one tab and both accepted by [float], is
    replaced by the two negated values in the format [.3f], separated by a
    tab and ended by a newline.  For a finite value the written field is
    an optional minus sign, the integer digits, a point and exactly three
    decimals, and read back as a decimal it is the value rounded to
    thousandths with the opposite sign.  The transform is therefore not
    an involution: when the decimal literal of either field has more than
    three decimals, transforming the line twice does not give the line
    back, and two runs of the script do not restore a file that contains
    the line. *)
Theorem negation_rounds_to_three_decimals
        (line p0 p1 : str) (x y : pyfloat) :
  strip line = p0 ++ tab :: p1 ->
  contains [tab] p0 = false -> contains [tab] p1 = false ->
  float_of_str p0 = Some x -> float_of_str p1 = Some y ->
  negate_line line =
    format3 (fneg x) ++ [tab] ++ format3 (fneg y) ++ [newline] /\
  (forall s m, x = Finite s m ->
     three_decimals (format3 (fneg x)) = true /\
     decimal_of_str (format3 (fneg x))
     = Some (Finite (negb s) (Z.of_N (round_milli m) # 1000))) /\
  (forall s m, y = Finite s m ->
     three_decimals (format3 (fneg y)) = true /\
     decimal_of_str (format3 (fneg y))
     = Some (Finite (negb s) (Z.of_N (round_milli m) # 1000))) /\
  (exceeds_three_decimals p0 \/ exceeds_three_decimals p1 ->
   negate_line (negate_line line) <> line /\
   forall stored, In line (readlines (universal_newlines stored)) ->
                  negate_file (negate_file stored) <> stored).
Proof.
  intros Hs T0 T1 Hx Hy.
  pose proof (fields_of_numbers line p0 p1 x y Hs T0 T1 Hx Hy) as Hf.
  assert (L1 : negate_line line = formatted_line (fneg x) (fneg y))
    by (rewrite negate_line_fields, Hf, Hx, Hy; reflexivity).
  split; [exact L1|]. split; [|split].
  - intros s m ->. cbn [fneg].
    split; [apply three_decimals_format3 | apply decimal_of_str_format3].
  - intros s m ->. cbn [fneg].
    split; [apply three_decimals_format3 | apply decimal_of_str_format3].
  - intros X.
    assert (NE : negate_line (negate_line line) <> line).
    { intros E.
      assert (S : exists u v, line = formatted_line u v).
      { rewrite L1 in E.
        destruct (negate_line_shape (formatted_line (fneg x) (fneg y)))
          as [K|(u & v & K)]; rewrite K in E; eauto. }
      destruct S as (u & v & ->).
      rewrite fields_of_formatted in Hf. injection Hf as <- <-.
      destruct X as [X|X]; exact (format3_within_three_decimals _ X). }
    split; [exact NE|].
    intros stored Hin E. apply NE.
    destruct (negate_file_twice stored) as [E2 Fix].
    rewrite E2 in E. specialize (Fix (eq_trans E2 E)).
    rewrite Fix in E, Hin.
    exact (negate_dataset_twice stored E line Hin).
Qed.

Lemma negation_rounds_to_three_decimals_witness :
  negate_line line_example = lit "-1.235	0.500
" /\
  negate_line (negate_line line_example) <> line_example.
Proof.
  assert (Hs : strip line_example = lit "1.23456" ++ tab :: lit "-0.5")
    by (vm_compute; reflexivity).
  assert (Hx : float_of_str (lit "1.23456") = Some example_current)
    by (vm_compute; reflexivity).
  assert (Hy : float_of_str (lit "-0.5") = Some example_flux)
    by (vm_compute; reflexivity).
  destruct (negation_rounds_to_three_decimals
              line_example (lit "1.23456") (lit "-0.5")
              example_current example_flux Hs eq_refl eq_refl Hx Hy)
    as (H1 & _ & _ & H).
  split.
  - rewrite H1. vm_compute. reflexivity.
  - refine (proj1 (H (or_introl _))).
    exists false, (123456 # 100000). split; [vm_compute; reflexivity|].
    intros (k & K). unfold Qeq in K. simpl in K. lia.
Defined.

(* ================================================================= *)
(** ** Files without a tab *)

(** X19.  A stored file that contains no tab character, a space-delimited
    table for one, is written back with its newlines translated to LF and
    otherwise unchanged; when it has no carriage return either it is
    written back unchanged.  A file with CR LF line ends is thus
    rewritten with LF line ends. *)
Theorem negate_dataset_without_tab :
  (forall stored : str,
      contains [tab] stored = false ->
      negate_file stored = universal_newlines stored /\
      (contains [cr] stored = false -> negate_file stored = stored)) /\
  contains [tab] crlf_file = false /\
  negate_file crlf_file = lit "1.5 2.5
3 4
" /\
  negate_file crlf_file <> crlf_file.
Proof.
  split; [|split; [reflexivity | split; [reflexivity|]]].
  - intros stored H.
    assert (T : contains [tab] (universal_newlines stored) = false).
    { apply contains_char_false in H. apply contains_char_false.
      assert (G : forall n s, (length s <= n)%nat ->
                 Forall (fun d => Ascii.eqb d tab = false) s ->
                 Forall (fun d => Ascii.eqb d tab = false)
                        (universal_newlines s)).
      { induction n as [|n IH]; intros [|c t] L F; simpl in L |- *;
          try constructor; try lia.
        inversion F as [|? ? Fc Ft]; subst.
        destruct (Ascii.eqb c cr) eqn:E.
        - destruct t as [|d t']; [repeat constructor|].
          inversion Ft as [|? ? Fd Ft']; subst.
          destruct (Ascii.eqb d newline).
          + constructor; [reflexivity|]. apply IH; [simpl in L; lia | exact Ft'].
          + constructor; [reflexivity|]. apply IH; [simpl in L |- *; lia | exact Ft].
        - constructor; [exact Fc|]. apply IH; [lia | exact Ft]. }
      exact (G (length stored) stored (le_n _) H). }
    assert (E : negate_file stored = universal_newlines stored)
      by (unfold negate_file; now apply negate_dataset_tab_free).
    split; [exact E|].
    intros C. rewrite E. apply universal_newlines_id.
    now apply contains_char_false.
  - intros E. vm_compute in E. discriminate E.
Qed.

Lemma negate_dataset_without_tab_witness :
  negate_file (lit "1.5 2.5
3 4") = lit "1.5 2.5
3 4".
Proof.
  apply (proj1 negate_dataset_without_tab); reflexivity.
Defined.
